(** * Verification of the CRI project-sheet extraction scripts

    Shallow embedding of [cri_benimallal.py] and [extract_projects.py]:
    the deterministic field extraction (regular-expression strategy
    chains), the numeric normaliser, the record assembler and the
    dataset merge step, followed by the theorems that settle the
    specification's claims and by further properties of the code
    (text cleaning, provinces and zones, pages and numbering, the
    order and the keys of the rows).

    Conventions of the embedding.
    - A Python [str] is a list of Unicode code points ([list N]).  String
      literals of this file are UTF-8 encoded and decoded by [utf8].
    - The regular expressions of the source are kept verbatim as strings
      and compiled by [re_compile] to the abstract syntax run by a
      backtracking matcher with the priorities of Python's [re] module
      (leftmost match, greedy and lazy repetition, ordered alternation).
    - A Python [float] that the scripts obtain from a decimal numeral is
      an exact rational ([Q], kept in lowest terms).  Binary64 rounding is
      not modelled: every arithmetic step is exact, and [round(x, 2)] is
      rounding of the exact value, ties to even.  The theorems on the
      reciprocal fills and on the areas therefore state quotients,
      means and products within a tolerance, on a range of values on
      which the binary64 results satisfy them as well.
    - The Unicode tables (white space, word characters, case mapping,
      canonical decomposition) are exact on Basic Latin and Latin-1
      Supplement, on the combining diacritical marks U+0300..U+036F, on
      General Punctuation U+2000..U+206F and on the symbols the source
      names (U+2212, U+F0FC, U+FFFD); [covered] is the predicate of the
      texts written with these characters.
    - A pandas DataFrame is a list of column names with a list of rows,
      each row a finite map from column name to cell. *)

From Stdlib Require Import ZArith NArith QArith Qround Qabs List String Ascii Bool Lia Lqa.
From Stdlib Require Import Qcanon DecimalString Sorting.Permutation Sorting.Sorted.
From Stdlib Require DecimalZ.
From stdpp Require Import gmap strings list fin_maps.

Local Open Scope N_scope.

(* ===================================================================== *)
(** * Text: code points, UTF-8 literals, Python string methods           *)
(* ===================================================================== *)

(** Bytes of a literal of this file. *)
Definition bytes_of_string (s : string) : list N :=
  List.map N_of_ascii (list_ascii_of_string s).

(** UTF-8 decoding (well-formed input; a truncated sequence is dropped). *)
Fixpoint utf8_decode (bs : list N) : list N :=
  match bs with
  | [] => []
  | b0 :: r0 =>
    if b0 <? 128 then b0 :: utf8_decode r0
    else
      match r0 with
      | [] => []
      | b1 :: r1 =>
        if b0 <? 224 then ((b0 - 192) * 64 + (b1 - 128)) :: utf8_decode r1
        else
          match r1 with
          | [] => []
          | b2 :: r2 =>
            if b0 <? 240
            then ((b0 - 224) * 4096 + (b1 - 128) * 64 + (b2 - 128)) :: utf8_decode r2
            else
              match r2 with
              | [] => []
              | b3 :: r3 =>
                ((b0 - 240) * 262144 + (b1 - 128) * 4096 + (b2 - 128) * 64 + (b3 - 128))
                  :: utf8_decode r3
              end
          end
      end
  end.

Definition utf8 (s : string) : list N := utf8_decode (bytes_of_string s).

Definition text_eqb (a b : list N) : bool := bool_decide (a = b).

(* --------------------------------------------------------------------- *)
(** ** Unicode character tables                                           *)
(* --------------------------------------------------------------------- *)

Definition in_range (lo hi c : N) : bool := (lo <=? c) && (c <=? hi).

(** [str.isspace] and the class [\s] of a [str] pattern. *)
Definition is_space (c : N) : bool :=
  in_range 9 13 c || in_range 28 32 c || (c =? 133) || (c =? 160)
  || (c =? 5760) || in_range 8192 8202 c || (c =? 8232) || (c =? 8233)
  || (c =? 8239) || (c =? 8287) || (c =? 12288).

(** Decimal digits, class [\d]: the ASCII digits (the only ones of
    category Nd below U+0660). *)
Definition is_digit (c : N) : bool := in_range 48 57 c.

(** [str.isalnum]: letters, decimal digits, and characters with a digit
    or numeric value (superscripts and vulgar fractions of Latin-1). *)
Definition is_alnum (c : N) : bool :=
  in_range 48 57 c || in_range 65 90 c || in_range 97 122 c
  || (c =? 170) || (c =? 178) || (c =? 179) || (c =? 181) || (c =? 185)
  || (c =? 186) || in_range 188 190 c
  || in_range 192 214 c || in_range 216 246 c || in_range 248 591 c.

(** Class [\w]: alphanumerics and the underscore. *)
Definition is_word (c : N) : bool := is_alnum c || (c =? 95).

(** Simple lower-case mapping (the one [re.IGNORECASE] applies). *)
Definition lower (c : N) : N :=
  if in_range 65 90 c then c + 32
  else if in_range 192 222 c && negb (c =? 215) then c + 32
  else if c =? 304 then 105          (* I with dot above *)
  else if c =? 376 then 255          (* Y with diaeresis *)
  else if c =? 7838 then 223         (* capital sharp s *)
  else if c =? 8490 then 107         (* Kelvin sign *)
  else if c =? 8491 then 229         (* Angstrom sign *)
  else c.

(** Case folding used to compare a pattern character with a text
    character under [re.IGNORECASE]: lower case, plus the two
    equivalences of the [re] compiler that reach ASCII letters
    (long s with s, dotless i with i). *)
Definition fold_case (c : N) : N :=
  let l := lower c in
  if l =? 383 then 115 else if l =? 305 then 105 else l.

(** [str.upper] (full mapping: sharp s becomes two letters). *)
Definition upper (c : N) : list N :=
  if in_range 97 122 c then [c - 32]
  else if c =? 181 then [924]
  else if c =? 223 then [83; 83]
  else if in_range 224 254 c && negb (c =? 247) then [c - 32]
  else if c =? 255 then [376]
  else if c =? 305 then [73]
  else if c =? 383 then [83]
  else [c].

(** Canonical decomposition of the precomposed letters of Latin-1:
    (code point, base letter, combining mark). *)
Definition latin1_decomposition : list (N * (N * N)) :=
  [ (192, (65, 768)); (193, (65, 769)); (194, (65, 770)); (195, (65, 771));
    (196, (65, 776)); (197, (65, 778)); (199, (67, 807)); (200, (69, 768));
    (201, (69, 769)); (202, (69, 770)); (203, (69, 776)); (204, (73, 768));
    (205, (73, 769)); (206, (73, 770)); (207, (73, 776)); (209, (78, 771));
    (210, (79, 768)); (211, (79, 769)); (212, (79, 770)); (213, (79, 771));
    (214, (79, 776)); (217, (85, 768)); (218, (85, 769)); (219, (85, 770));
    (220, (85, 776)); (221, (89, 769));
    (224, (97, 768)); (225, (97, 769)); (226, (97, 770)); (227, (97, 771));
    (228, (97, 776)); (229, (97, 778)); (231, (99, 807)); (232, (101, 768));
    (233, (101, 769)); (234, (101, 770)); (235, (101, 776)); (236, (105, 768));
    (237, (105, 769)); (238, (105, 770)); (239, (105, 776)); (241, (110, 771));
    (242, (111, 768)); (243, (111, 769)); (244, (111, 770)); (245, (111, 771));
    (246, (111, 776)); (249, (117, 768)); (250, (117, 769)); (251, (117, 770));
    (252, (117, 776)); (253, (121, 769)); (255, (121, 776)) ].

Fixpoint assoc_N {A} (k : N) (l : list (N * A)) : option A :=
  match l with
  | [] => None
  | (k', v) :: l' => if k =? k' then Some v else assoc_N k l'
  end.

(** [unicodedata.normalize("NFD", .)] on one character. *)
Definition nfd_char (c : N) : list N :=
  match assoc_N c latin1_decomposition with
  | Some (b, m) => [b; m]
  | None => [c]
  end.

(** [unicodedata.category(c) == "Mn"]: the combining diacritical marks. *)
Definition is_Mn (c : N) : bool := in_range 768 879 c.

(* --------------------------------------------------------------------- *)
(** ** Python string methods                                              *)
(* --------------------------------------------------------------------- *)

Fixpoint lstrip_by (p : N -> bool) (s : list N) : list N :=
  match s with
  | c :: s' => if p c then lstrip_by p s' else s
  | [] => []
  end.

Definition rstrip_by (p : N -> bool) (s : list N) : list N :=
  rev (lstrip_by p (rev s)).

(** [s.strip()] and [s.strip(chars)]. *)
Definition strip_by (p : N -> bool) (s : list N) : list N :=
  rstrip_by p (lstrip_by p s).
Definition strip (s : list N) : list N := strip_by is_space s.

(** [s.split()]: maximal runs of non-blank characters. *)
Fixpoint split_ws_aux (cur : list N) (s : list N) : list (list N) :=
  match s with
  | [] => match cur with [] => [] | _ => [rev cur] end
  | c :: s' =>
    if is_space c
    then match cur with
         | [] => split_ws_aux [] s'
         | _ => rev cur :: split_ws_aux [] s'
         end
    else split_ws_aux (c :: cur) s'
  end.
Definition split_ws (s : list N) : list (list N) := split_ws_aux [] s.

(** [s.split(sep)] for a one-character separator. *)
Fixpoint split_on_aux (sep : N) (cur : list N) (s : list N) : list (list N) :=
  match s with
  | [] => [rev cur]
  | c :: s' =>
    if c =? sep then rev cur :: split_on_aux sep [] s'
    else split_on_aux sep (c :: cur) s'
  end.
Definition split_on (sep : N) (s : list N) : list (list N) := split_on_aux sep [] s.

(** [sep.join(parts)]. *)
Fixpoint join (sep : list N) (parts : list (list N)) : list N :=
  match parts with
  | [] => []
  | [p] => p
  | p :: ps => p ++ sep ++ join sep ps
  end.

Fixpoint is_prefix (p s : list N) : bool :=
  match p, s with
  | [], _ => true
  | a :: p', b :: s' => (a =? b) && is_prefix p' s'
  | _ :: _, [] => false
  end.

(** [sub in s]. *)
Fixpoint contains (sub s : list N) : bool :=
  is_prefix sub s ||
  match s with
  | [] => false
  | _ :: s' => contains sub s'
  end.

(** [s.replace(old, new)], left to right, non-overlapping ([old] not
    empty). *)
Fixpoint replace_fuel (fuel : nat) (old new s : list N) : list N :=
  match fuel with
  | O => s
  | S f =>
    match s with
    | [] => []
    | c :: s' =>
      if is_prefix old s
      then new ++ replace_fuel f old new (skipn (List.length old) s)
      else c :: replace_fuel f old new s'
    end
  end.
Definition replace (old new s : list N) : list N :=
  replace_fuel (S (List.length s)) old new s.

(** [s.upper()]. *)
Definition str_upper (s : list N) : list N := List.concat (List.map upper s).

(** [s[:n]]. *)
Definition slice_to (n : nat) (s : list N) : list N := firstn n s.

(** [s[a:b]]. *)
Definition substr (a b : nat) (s : list N) : list N := firstn (b - a) (skipn a s).

(* ===================================================================== *)
(** * Regular expressions: syntax, compiler, backtracking matcher         *)
(* ===================================================================== *)

(** Members of a bracketed class. *)
Inductive cset_item : Type :=
| CChar (c : N)
| CRange (lo hi : N)
| CDigit
| CSpace
| CWord.

Inductive regex : Type :=
| REps
| RFail
| RChar (c : N)
| RAny
| RSet (neg : bool) (items : list cset_item)
| RBol
| REol
| RWordB
| RSeq (r1 r2 : regex)
| RAlt (r1 r2 : regex)
| RRep (greedy : bool) (lo : nat) (hi : option nat) (r : regex)
| RGroup (i : nat) (r : regex)
| RLook (r : regex).

(** Flags of a call: [re.IGNORECASE], [re.DOTALL]. *)
Record flags : Type := { ignorecase : bool; dotall : bool }.
Definition NOFLAGS : flags := {| ignorecase := false; dotall := false |}.
Definition IGNORECASE : flags := {| ignorecase := true; dotall := false |}.
Definition IGNORECASE_DOTALL : flags := {| ignorecase := true; dotall := true |}.

(* --------------------------------------------------------------------- *)
(** ** Compiler from the pattern text                                     *)
(* --------------------------------------------------------------------- *)

Definition hex_val (c : N) : option N :=
  if in_range 48 57 c then Some (c - 48)
  else if in_range 97 102 c then Some (c - 87)
  else if in_range 65 70 c then Some (c - 55)
  else None.

(** [\uXXXX] *)
Definition parse_hex4 (s : list N) : option (N * list N) :=
  match s with
  | a :: b :: c :: d :: s' =>
    match hex_val a, hex_val b, hex_val c, hex_val d with
    | Some a, Some b, Some c, Some d => Some (a * 4096 + b * 256 + c * 16 + d, s')
    | _, _, _, _ => None
    end
  | _ => None
  end.

(** An escape inside or outside a class, after the backslash;
    [inl] a class item, [inr] the word-boundary assertion. *)
Definition parse_escape (s : list N) : option ((cset_item + unit) * list N) :=
  match s with
  | [] => None
  | c :: s' =>
    if c =? 100 then Some (inl CDigit, s')            (* \d *)
    else if c =? 115 then Some (inl CSpace, s')       (* \s *)
    else if c =? 119 then Some (inl CWord, s')        (* \w *)
    else if c =? 98 then Some (inr tt, s')            (* \b *)
    else if c =? 110 then Some (inl (CChar 10), s')   (* \n *)
    else if c =? 116 then Some (inl (CChar 9), s')    (* \t *)
    else if c =? 117 then                             (* \uXXXX *)
      match parse_hex4 s' with
      | Some (v, s'') => Some (inl (CChar v), s'')
      | None => None
      end
    else if is_alnum c then None                      (* other letters: not used *)
    else Some (inl (CChar c), s')                     (* escaped punctuation *)
  end.

(** The items of a class up to its closing bracket. *)
Fixpoint parse_class_items (fuel : nat) (s : list N) : option (list cset_item * list N) :=
  match fuel with
  | O => None
  | S f =>
    match s with
    | [] => None
    | 93 :: s' => Some ([], s')                                   (* ] *)
    | 92 :: s' =>                                                 (* \ *)
      match parse_escape s' with
      | Some (inl it, s'') =>
        match parse_class_items f s'' with
        | Some (its, s3) => Some (it :: its, s3)
        | None => None
        end
      | _ => None
      end
    | a :: 45 :: b :: s' =>                                       (* a-b *)
      if (b =? 93) || (b =? 92)
      then match parse_class_items f (45 :: b :: s') with
           | Some (its, s3) => Some (CChar a :: its, s3)
           | None => None
           end
      else match parse_class_items f s' with
           | Some (its, s3) => Some (CRange a b :: its, s3)
           | None => None
           end
    | a :: s' =>
      match parse_class_items f s' with
      | Some (its, s3) => Some (CChar a :: its, s3)
      | None => None
      end
    end
  end.

Definition parse_class (s : list N) : option (regex * list N) :=
  match s with
  | 94 :: s' =>                                                   (* [^ *)
    match parse_class_items (S (List.length s')) s' with
    | Some (its, s'') => Some (RSet true its, s'')
    | None => None
    end
  | _ =>
    match parse_class_items (S (List.length s)) s with
    | Some (its, s'') => Some (RSet false its, s'')
    | None => None
    end
  end.

(** A run of decimal digits. *)
Fixpoint parse_nat (acc : nat) (seen : bool) (s : list N) : option nat * list N :=
  match s with
  | c :: s' =>
    if is_digit c then parse_nat (acc * 10 + N.to_nat (c - 48)) true s'
    else (if seen then Some acc else None, s)
  | [] => (if seen then Some acc else None, s)
  end.

(** The bounds of a repetition written after an atom, if any. *)
Definition parse_bounds (s : list N) : option (nat * option nat * list N) :=
  match s with
  | 42 :: s' => Some (O, None, s')                                (* * *)
  | 43 :: s' => Some (1%nat, None, s')                            (* + *)
  | 63 :: s' => Some (O, Some 1%nat, s')                          (* ? *)
  | 123 :: s' =>                                                  (* {m,n} *)
    match parse_nat O false s' with
    | (Some m, 125 :: s'') => Some (m, Some m, s'')
    | (Some m, 44 :: s'') =>
      match parse_nat O false s'' with
      | (Some n, 125 :: s3) => Some (m, Some n, s3)
      | (None, 125 :: s3) => Some (m, None, s3)
      | _ => None
      end
    | _ => None
    end
  | _ => None
  end.

Definition parse_quant (a : regex) (s : list N) : regex * list N :=
  match parse_bounds s with
  | Some (lo, hi, 63 :: s') => (RRep false lo hi a, s')           (* lazy *)
  | Some (lo, hi, s') => (RRep true lo hi a, s')
  | None => (a, s)
  end.

(** Recursive descent; [g] is the number of the next capturing group. *)
Fixpoint parse_alt (fuel : nat) (s : list N) (g : nat) : option (regex * list N * nat) :=
  match fuel with
  | O => None
  | S f =>
    match parse_seq f s g with
    | Some (r, 124 :: s', g') =>                                  (* | *)
      match parse_alt f s' g' with
      | Some (r2, s'', g'') => Some (RAlt r r2, s'', g'')
      | None => None
      end
    | other => other
    end
  end
with parse_seq (fuel : nat) (s : list N) (g : nat) : option (regex * list N * nat) :=
  match fuel with
  | O => None
  | S f =>
    match s with
    | [] => Some (REps, [], g)
    | c :: _ =>
      if (c =? 124) || (c =? 41) then Some (REps, s, g)
      else
        match parse_atom f s g with
        | Some (a, s1, g1) =>
          let '(a', s2) := parse_quant a s1 in
          match parse_seq f s2 g1 with
          | Some (REps, s3, g3) => Some (a', s3, g3)
          | Some (r, s3, g3) => Some (RSeq a' r, s3, g3)
          | None => None
          end
        | None => None
        end
    end
  end
with parse_atom (fuel : nat) (s : list N) (g : nat) : option (regex * list N * nat) :=
  match fuel with
  | O => None
  | S f =>
    match s with
    | [] => None
    | 40 :: 63 :: 58 :: s' =>                                     (* (?: *)
      match parse_alt f s' g with
      | Some (r, 41 :: s'', g') => Some (r, s'', g')
      | _ => None
      end
    | 40 :: 63 :: 61 :: s' =>                                     (* (?= *)
      match parse_alt f s' g with
      | Some (r, 41 :: s'', g') => Some (RLook r, s'', g')
      | _ => None
      end
    | 40 :: 63 :: _ => None
    | 40 :: s' =>                                                 (* ( *)
      match parse_alt f s' (S g) with
      | Some (r, 41 :: s'', g') => Some (RGroup g r, s'', g')
      | _ => None
      end
    | 91 :: s' =>                                                 (* [ *)
      match parse_class s' with
      | Some (r, s'') => Some (r, s'', g)
      | None => None
      end
    | 92 :: s' =>                                                 (* \ *)
      match parse_escape s' with
      | Some (inl (CChar c), s'') => Some (RChar c, s'', g)
      | Some (inl it, s'') => Some (RSet false [it], s'', g)
      | Some (inr _, s'') => Some (RWordB, s'', g)
      | None => None
      end
    | 46 :: s' => Some (RAny, s', g)                              (* . *)
    | 94 :: s' => Some (RBol, s', g)                              (* ^ *)
    | 36 :: s' => Some (REol, s', g)                              (* $ *)
    | 42 :: _ | 43 :: _ | 63 :: _ | 41 :: _ => None
    | c :: s' => Some (RChar c, s', g)
    end
  end.

(** [re.compile]: the syntax tree and the number of capturing groups;
    [None] when the pattern is outside the supported syntax. *)
Definition re_parse (p : list N) : option (regex * nat) :=
  match parse_alt (3 * List.length p + 3) p 1%nat with
  | Some (r, [], g) => Some (r, (g - 1)%nat)
  | _ => None
  end.

Definition re_compile (p : string) : regex :=
  match re_parse (utf8 p) with
  | Some (r, _) => r
  | None => RFail
  end.

Definition re_groups (p : string) : nat :=
  match re_parse (utf8 p) with
  | Some (_, n) => n
  | None => O
  end.

(* --------------------------------------------------------------------- *)
(** ** Matcher                                                            *)
(* --------------------------------------------------------------------- *)

(** A position in the subject: its index, the character before it and
    the characters from it on. *)
Record cursor : Type := { cpos : nat; cprev : option N; crest : list N }.

(** Spans of the capturing groups set so far, most recent first. *)
Definition caps : Type := list (nat * (nat * nat)).

Definition advance (c : cursor) (y : N) (rest : list N) : cursor :=
  {| cpos := S (cpos c); cprev := Some y; crest := rest |}.

Definition char_matches (fl : flags) (x y : N) : bool :=
  if ignorecase fl then fold_case x =? fold_case y else x =? y.

Definition item_matches (fl : flags) (it : cset_item) (y : N) : bool :=
  match it with
  | CChar x => char_matches fl x y
  | CRange lo hi =>
    in_range lo hi y
    || (ignorecase fl
        && (in_range lo hi (lower y)
            || existsb (in_range lo hi) (upper y)))
  | CDigit => is_digit y
  | CSpace => is_space y
  | CWord => is_word y
  end.

Definition set_matches (fl : flags) (neg : bool) (items : list cset_item) (y : N) : bool :=
  xorb neg (existsb (fun it => item_matches fl it y) items).

Definition word_at (o : option N) : bool :=
  match o with
  | Some c => is_word c
  | None => false
  end.

(** [\b]: exactly one side of the position is a word character. *)
Definition at_word_boundary (c : cursor) : bool :=
  xorb (word_at (cprev c)) (word_at (head (crest c))).

(** [$] without [re.MULTILINE]: the end, or just before a final newline. *)
Definition at_end (c : cursor) : bool :=
  match crest c with
  | [] => true
  | [10] => true
  | _ => false
  end.

Definition within (hi : option nat) (n : nat) : bool :=
  match hi with
  | Some h => (n <? h)%nat
  | None => true
  end.

Definition orelse {A} (a b : option A) : option A :=
  match a with
  | Some _ => a
  | None => b
  end.

(** Result of a match attempt: end position and captures. *)
Definition mres : Type := option (cursor * caps).
Definition kont : Type := cursor -> caps -> mres.

(** Repetition of [body] between [lo] and [hi] times, then [k].  A greedy
    repetition tries one more iteration before stopping, a lazy one
    stops first.  The loop runs on fuel bounded by the characters left,
    each iteration having to consume one (all repeated sub-patterns of
    the source do). *)
Fixpoint rep_loop (body : cursor -> caps -> kont -> mres) (greedy : bool)
    (lo : nat) (hi : option nat) (k : kont)
    (fuel : nat) (n : nat) (c : cursor) (cs : caps) {struct fuel} : mres :=
  let stop := if (lo <=? n)%nat then k c cs else None in
  let more :=
    match fuel with
    | O => None
    | S f =>
      if within hi n
      then body c cs
             (fun c' cs' =>
                if (cpos c <? cpos c')%nat
                then rep_loop body greedy lo hi k f (S n) c' cs'
                else None)
      else None
    end in
  if greedy then orelse more stop else orelse stop more.

(** Backtracking match in continuation-passing style: [rmatch fl r c cs k]
    tries the ways [r] can match at [c] in priority order and hands the
    end position and captures of each to [k] until [k] succeeds. *)
Fixpoint rmatch (fl : flags) (r : regex) (c : cursor) (cs : caps) (k : kont)
    {struct r} : mres :=
  match r with
  | REps => k c cs
  | RFail => None
  | RChar x =>
    match crest c with
    | y :: rest => if char_matches fl x y then k (advance c y rest) cs else None
    | [] => None
    end
  | RAny =>
    match crest c with
    | y :: rest => if dotall fl || negb (y =? 10) then k (advance c y rest) cs else None
    | [] => None
    end
  | RSet neg items =>
    match crest c with
    | y :: rest => if set_matches fl neg items y then k (advance c y rest) cs else None
    | [] => None
    end
  | RBol => if (cpos c =? 0)%nat then k c cs else None
  | REol => if at_end c then k c cs else None
  | RWordB => if at_word_boundary c then k c cs else None
  | RSeq r1 r2 => rmatch fl r1 c cs (fun c' cs' => rmatch fl r2 c' cs' k)
  | RAlt r1 r2 => orelse (rmatch fl r1 c cs k) (rmatch fl r2 c cs k)
  | RGroup i r1 =>
    rmatch fl r1 c cs (fun c' cs' => k c' ((i, (cpos c, cpos c')) :: cs'))
  | RLook r1 =>
    match rmatch fl r1 c cs (fun c' cs' => Some (c', cs')) with
    | Some (_, cs') => k c cs'
    | None => None
    end
  | RRep greedy lo hi r1 =>
    rep_loop (rmatch fl r1) greedy lo hi k (S (List.length (crest c))) O c cs
  end.

(** A match object: the subject, the span of the whole match, the
    spans of the groups. *)
Record rematch : Type :=
  { m_text : list N; m_start : nat; m_end : nat; m_caps : caps }.

Fixpoint search_from (fl : flags) (r : regex) (t : list N)
    (pos : nat) (prev : option N) (rest : list N) : option rematch :=
  match rmatch fl r {| cpos := pos; cprev := prev; crest := rest |} []
               (fun c cs => Some (c, cs)) with
  | Some (c', cs) =>
    Some {| m_text := t; m_start := pos; m_end := cpos c'; m_caps := cs |}
  | None =>
    match rest with
    | [] => None
    | y :: rest' => search_from fl r t (S pos) (Some y) rest'
    end
  end.

(** [re.search(pattern, t, flags)]: the leftmost match. *)
Definition re_search (r : regex) (fl : flags) (t : list N) : option rematch :=
  search_from fl r t O None t.

Fixpoint assoc_nat {A} (k : nat) (l : list (nat * A)) : option A :=
  match l with
  | [] => None
  | (k', v) :: l' => if (k =? k')%nat then Some v else assoc_nat k l'
  end.

(** [m.group(i)] for [i >= 1]: [None] when the group took no part. *)
Definition group (m : rematch) (i : nat) : option (list N) :=
  match assoc_nat i (m_caps m) with
  | Some (a, b) => Some (substr a b (m_text m))
  | None => None
  end.

(** [m.group(0)]. *)
Definition group0 (m : rematch) : list N := substr (m_start m) (m_end m) (m_text m).

(** [m.lastindex]: the last group that matched (groups of the source
    are never nested, so it is the one of highest number). *)
Definition lastindex (m : rematch) : option nat :=
  match m_caps m with
  | [] => None
  | cs => Some (fold_right Nat.max O (List.map fst cs))
  end.

Fixpoint last_char (s : list N) : option N :=
  match s with
  | [] => None
  | [c] => Some c
  | _ :: s' => last_char s'
  end.

(** [re.sub(pattern, repl, t, flags)] with [repl] a function of the
    match (a constant one for a replacement string without escapes).
    The patterns substituted in the source never match the empty
    string; an empty match is stepped over. *)
Fixpoint sub_from (fuel : nat) (fl : flags) (r : regex) (repl : rematch -> list N)
    (t : list N) (pos : nat) (prev : option N) (rest : list N) : list N :=
  match fuel with
  | O => rest
  | S f =>
    match search_from fl r t pos prev rest with
    | None => rest
    | Some m =>
      let before := firstn (m_start m - pos) rest in
      let matched := (m_end m - m_start m)%nat in
      let after := skipn (m_end m - pos) rest in
      match matched with
      | O =>
        match skipn (m_start m - pos) rest with
        | [] => before ++ repl m
        | y :: rest' =>
          before ++ repl m ++ y :: sub_from f fl r repl t (S (m_start m)) (Some y) rest'
        end
      | S _ =>
        before ++ repl m
          ++ sub_from f fl r repl t (m_end m) (last_char (firstn (m_end m - pos) rest)) after
      end
    end
  end.

Definition re_sub_fun (r : regex) (repl : rematch -> list N) (fl : flags) (t : list N) : list N :=
  sub_from (S (List.length t)) fl r repl t O None t.

Definition re_sub (r : regex) (repl : list N) (fl : flags) (t : list N) : list N :=
  re_sub_fun r (fun _ => repl) fl t.

(* ===================================================================== *)
(** * Numbers                                                             *)
(* ===================================================================== *)

(** Floats of the scripts as exact rationals in lowest terms. *)
Definition fadd (a b : Q) : Q := Qred (a + b).
Definition fmul (a b : Q) : Q := Qred (a * b).
Definition fdiv (a b : Q) : Q := Qred (a / b).

(** [a < b], [a <= b]. *)
Definition flt (a b : Q) : bool :=
  match Qcompare a b with
  | Lt => true
  | _ => false
  end.
Definition fle (a b : Q) : bool :=
  match Qcompare a b with
  | Gt => false
  | _ => true
  end.

(** Value of a run of decimal digits, most significant first. *)
Fixpoint digits_value (acc : Z) (s : list N) : option Z :=
  match s with
  | [] => Some acc
  | c :: s' =>
    if is_digit c then digits_value (acc * 10 + Z.of_N (c - 48)) s' else None
  end.

(** [float(s)] on the numerals the scripts build (digits with at most
    one decimal point, at least one digit); [None] stands for
    [ValueError]. *)
Definition float_of_text (s : list N) : option Q :=
  match split_on 46 s with
  | [ip] =>
    match ip with
    | [] => None
    | _ => match digits_value 0 ip with
           | Some n => Some (inject_Z n)
           | None => None
           end
    end
  | [ip; fp] =>
    match ip, fp with
    | [], [] => None
    | _, _ =>
      match digits_value 0 ip, digits_value 0 fp with
      | Some n, Some f =>
        let d := (10 ^ Z.of_nat (List.length fp))%Z in
        Some (Qred (Qmake (n * d + f) (Z.to_pos d)))
      | _, _ => None
      end
    end
  | _ => None
  end.

(** Nearest integer, ties to even. *)
Definition round_half_even (x : Q) : Z :=
  let f := Qfloor x in
  match Qcompare (x - inject_Z f) (1 # 2) with
  | Lt => f
  | Gt => (f + 1)%Z
  | Eq => if Z.even f then f else (f + 1)%Z
  end.

(** [round(x, 2)]. *)
Definition round2 (x : Q) : Q := Qred (Qmake (round_half_even (x * 100)) 100).

(** [int(x)]: truncation toward zero. *)
Definition int_of_Q (x : Q) : Z :=
  if Qle_bool 0 x then Qfloor x else Qceiling x.

(** [str(n)] for an integer. *)
Definition str_of_Z (z : Z) : list N :=
  bytes_of_string (DecimalString.NilZero.string_of_int (Z.to_int z)).


(* ===================================================================== *)
(** * cri_benimallal.py                                                   *)
(* ===================================================================== *)

Module Cri.

(** ** Configuration *)

Definition CURRENCY : list N := utf8 "MAD".
Definition LANGUAGE : list N := utf8 "FR".
Definition SOURCE_TYPE : list N := utf8 "CRI Béni Mellal-Khénifra".
Definition REGION : list N := utf8 "Béni Mellal-Khénifra".

(** Investment range thresholds (MAD). *)
Definition INV_LOW_MAX : Q := 5000000.
Definition INV_MEDIUM_MAX : Q := 20000000.

(** ** Helpers *)

Definition RE_NON_WORD : regex := Eval vm_compute in re_compile "[^\w\s\-]".
Definition RE_SPACES : regex := Eval vm_compute in re_compile "\s+".

(** Remove accents (NFD and strip combining marks). *)
Definition _remove_accents (s : list N) : list N :=
  List.filter (fun c => negb (is_Mn c)) (List.concat (List.map nfd_char s)).

(** Uppercase, replace spaces with hyphens, remove accents. *)
Definition normalize_for_reference (s : list N) : list N :=
  match strip s with
  | [] => []
  | s1 =>
    let s2 := _remove_accents s1 in
    let s3 := re_sub RE_NON_WORD [] NOFLAGS s2 in
    let s4 := strip_by (N.eqb 45) (re_sub RE_SPACES (utf8 "-") NOFLAGS s3) in
    str_upper s4
  end.

(** Clean extra spaces and newlines. *)
Definition clean_text (t : list N) : list N :=
  strip (re_sub RE_SPACES (utf8 " ") NOFLAGS t).

Definition RE_LABEL_PREFIX : regex :=
  Eval vm_compute in
    re_compile "^(?:Secteur\s*économique|Filières\s*de\s*production)\s*:\s*".

Definition _strip_label_prefix (s : list N) : list N :=
  strip (re_sub RE_LABEL_PREFIX [] IGNORECASE (clean_text s)).

(** Some PDFs repeat the title twice in the extracted text: a title
    that is the same block of words twice keeps one block, when it has
    at least six words. *)
Definition _dedupe_repeated_title (title : list N) : list N :=
  let t := clean_text title in
  match t with
  | [] => t
  | _ =>
    let words := split_ws t in
    let n := List.length words in
    if (6 <=? n)%nat && (n mod 2 =? 0)%nat
    then
      let half := (n / 2)%nat in
      if bool_decide (firstn half words = skipn half words)
      then join (utf8 " ") (firstn half words)
      else t
    else t
  end.

(** ** Industrial zones *)

(** The words that end the name of a zone. *)
Definition STOP : string :=
  "(?:Future|ZI|ZAE|Sup|Lieu|PROGRAMME|CAPACIT[ÉE]|EMPLOIS|TRI|PBP|CA|Cha[iî]nes?|Mat[ée]riel|Equipements?|Emballages?|BESOINS|Web|Contact)".

Definition ZONE_NAME : string :=
  "\s+[A-Za-zÀ-ÿ][A-Za-zÀ-ÿ\s\-]{0,40}?(?=\b" ++ STOP ++ "\b|[;\n]|$)".

Definition zone_patterns : list regex :=
  Eval vm_compute in
    [ re_compile ("(?:Agro-?p[oô]le|Agropole)" ++ ZONE_NAME);
      re_compile ("Future\s+ZI" ++ ZONE_NAME);
      re_compile ("\bZAE" ++ ZONE_NAME);
      re_compile ("\bZI" ++ ZONE_NAME) ].

(** [re.finditer(pattern, t, flags)]: the successive matches, each
    search starting where the match before ended; an empty match is
    stepped over (the patterns of the source match no empty string). *)
Fixpoint finditer_from (fuel : nat) (fl : flags) (r : regex) (t : list N)
    (pos : nat) (prev : option N) (rest : list N) : list rematch :=
  match fuel with
  | O => []
  | S f =>
    match search_from fl r t pos prev rest with
    | None => []
    | Some m =>
      match (m_end m - m_start m)%nat with
      | O =>
        match skipn (m_start m - pos) rest with
        | [] => [m]
        | y :: rest' => m :: finditer_from f fl r t (S (m_start m)) (Some y) rest'
        end
      | S _ =>
        m :: finditer_from f fl r t (m_end m)
               (last_char (firstn (m_end m - pos) rest)) (skipn (m_end m - pos) rest)
      end
    end
  end.

Definition re_finditer (r : regex) (fl : flags) (t : list N) : list rematch :=
  finditer_from (S (List.length t)) fl r t O None t.

(** [z.strip(" -–—.,;:/\\")] *)
Definition zone_margin (c : N) : bool :=
  existsb (N.eqb c) [32; 45; 8211; 8212; 46; 44; 59; 58; 47; 92].

Definition RE_SPACED_DASH : regex := Eval vm_compute in re_compile "\s[-–—]\s".
Definition RE_STOP_TAIL : regex :=
  Eval vm_compute in re_compile ("\b(" ++ STOP ++ ")\b.*$").

(** [str.lower] on one character and on a text: the full mapping,
    in which the capital I with a dot above gives two characters
    (exact on the letters the zone patterns can match). *)
Definition lower_full (c : N) : list N :=
  if c =? 304 then [105; 775] else [lower c].
Definition str_lower (s : list N) : list N := List.concat (List.map lower_full s).

(** The zone without what follows its name: three words at most
    after a known marker, the text up to a stop word when the name
    holds a dash between spaces.  The list of words is not empty
    where its first word is read (the text there is not empty and
    does not start with a space). *)
Definition _trim_zone (z : list N) : list N :=
  let z := strip_by zone_margin (clean_text z) in
  match z with
  | [] => z
  | _ =>
    match re_search RE_SPACED_DASH NOFLAGS z with
    | Some _ => strip_by zone_margin (re_sub RE_STOP_TAIL [] IGNORECASE z)
    | None =>
      let tokens := split_ws z in
      let low := List.map str_lower tokens in
      let first3 := join (utf8 " ") (firstn 3 tokens) in
      let n := List.length tokens in
      if (3 <=? n)%nat && text_eqb (nth 0 low []) (utf8 "future")
         && text_eqb (nth 1 low []) (utf8 "zi")
      then first3
      else if (2 <=? n)%nat && text_eqb (nth 0 low []) (utf8 "zi")
      then (if (3 <=? n)%nat then first3 else z)
      else if (2 <=? n)%nat && text_eqb (nth 0 low []) (utf8 "zae")
      then (if (3 <=? n)%nat then first3 else z)
      else if is_prefix (utf8 "agro") (nth 0 low [])
              || is_prefix (utf8 "agropole") (nth 0 low [])
      then (if (3 <=? n)%nat then first3 else z)
      else z
    end
  end.

(** One turn of the inner loop: the trimmed zone is appended unless
    it is empty or already there. *)
Definition add_zone (zones : list (list N)) (m : rematch) : list (list N) :=
  let z := _trim_zone (group0 m) in
  match z with
  | [] => zones
  | _ => if bool_decide (z ∈ zones) then zones else zones ++ [z]
  end.

(** The zones found by the four patterns in turn. *)
Definition collect_zones (t : list N) : list (list N) :=
  fold_left (fun zones pat => fold_left add_zone (re_finditer pat IGNORECASE t) zones)
            zone_patterns [].

(** Industrial zones and location anchors, joined by "; ". *)
Definition extract_industrial_zone (text : list N) : option (list N) :=
  match text with
  | [] => None
  | _ =>
    let t := replace [8226] (utf8 " ") (replace [61692] (utf8 " ") text) in
    match collect_zones t with
    | [] => None
    | zones => Some (join (utf8 "; ") zones)
    end
  end.

(** ** Province *)

(** The characters [re.escape] puts a backslash before. *)
Definition re_special (c : N) : bool :=
  existsb (N.eqb c)
    [40; 41; 91; 93; 123; 125; 63; 42; 43; 45; 124; 94; 36; 92; 46; 38; 126; 35;
     32; 9; 10; 13; 11; 12].

(** [re.escape(s)] *)
Definition re_escape (s : list N) : list N :=
  List.concat (List.map (fun c => if re_special c then [92; c] else [c]) s).

(** The pattern [rf"\b{re.escape(p)}\b"], compiled. *)
Definition re_whole_word (p : list N) : regex :=
  match re_parse (utf8 "\b" ++ re_escape p ++ utf8 "\b") with
  | Some (r, _) => r
  | None => RFail
  end.

Definition known_provinces : list (list N) :=
  [ utf8 "Béni Mellal"; utf8 "Azilal"; utf8 "Fquih Ben Salah"; utf8 "Khénifra";
    utf8 "Khouribga" ].

(** The first known province found in the text as a whole word. *)
Fixpoint first_known (ps : list (list N)) (text : list N) : option (list N) :=
  match ps with
  | [] => None
  | p :: ps' =>
    match re_search (re_whole_word p) IGNORECASE text with
    | Some _ => Some p
    | None => first_known ps' text
    end
  end.

Definition RE_LIEU : regex :=
  Eval vm_compute in
    re_compile "Lieu\s*:\s*(.+?)(?=\b(?:Future|ZAE|ZI|Sup|PROGRAMME|CAPACIT[ÉE]|EMPLOIS|TRI|PBP|INVESTISSEMENT|BESOINS|Web|Contact)\b|\n|$)".
Definition RE_CHUNK_SEP : regex := Eval vm_compute in re_compile "\s*[;–—-]\s*".
Definition RE_DIGIT_PERCENT : regex := Eval vm_compute in re_compile "[\d%]".

(** [re.split(pattern, s)[0]] for a pattern that consumes a character:
    the text before the first match, the whole text without a match. *)
Definition re_split_first (r : regex) (fl : flags) (s : list N) : list N :=
  match re_search r fl s with
  | Some m => firstn (m_start m) s
  | None => s
  end.

(** Province: a known province found anywhere in the text, else the
    short value after the label Lieu. *)
Definition extract_province (text : list N) : option (list N) :=
  match text with
  | [] => None
  | _ =>
    match first_known known_provinces text with
    | Some p => Some p
    | None =>
      match re_search RE_LIEU IGNORECASE text with
      | None => None
      | Some m_loc =>
        let loc_text := clean_text (default [] (group m_loc 1)) in
        let loc_text := strip (re_split_first RE_CHUNK_SEP NOFLAGS loc_text) in
        if (40 <? List.length loc_text)%nat
           || match re_search RE_DIGIT_PERCENT NOFLAGS loc_text with
              | Some _ => true
              | None => false
              end
        then None
        else match loc_text with
             | [] => None
             | _ => Some loc_text
             end
      end
    end
  end.

(** ** Extraction logic *)

(** The text of the first pages, whole and by half-page column, as the
    PDF library returns it ([extract_text_with_layout]); each part is
    stripped. *)
Record layout_data : Type :=
  { full_text : list N; left_text : list N; right_text : list N }.

Definition RE_TITLE : regex :=
  Eval vm_compute in re_compile "Projet\s*N°\s*:\s*(?:PR\d+)?\s*\n(.+?)(?=\n|Secteur)".

(** Strategy 1 of [extract_project_title]: the line after a line
    holding the project-number marker. *)
Fixpoint title_after_marker (lines : list (list N)) : option (list N) :=
  match lines with
  | line :: rest =>
    match rest with
    | next :: _ =>
      if contains (utf8 "Projet N°") line || contains (utf8 "Projet N") line
      then
        let candidate := strip next in
        if (3 <? List.length candidate)%nat && negb (contains (utf8 "Secteur") candidate)
        then Some (_dedupe_repeated_title candidate)
        else title_after_marker rest
      else title_after_marker rest
    | [] => None
    end
  | [] => None
  end.

Definition extract_project_title (t filename : list N) : list N :=
  match title_after_marker (split_on 10 t) with
  | Some title => title
  | None =>
    match re_search RE_TITLE IGNORECASE_DOTALL t with
    | Some m => _dedupe_repeated_title (default [] (group m 1))
    | None => replace (utf8 "-") (utf8 " ") (replace (utf8 ".pdf") [] filename)
    end
  end.

Definition RE_SECTOR_LEFT : regex :=
  Eval vm_compute in
    re_compile "Secteur\s*économique\s*:\s*(.+?)(?=Filières|ACTIVITÉ|AnalySe|$)".
Definition RE_SECTOR_FULL : regex :=
  Eval vm_compute in
    re_compile "Secteur\s*économique\s*:\s*(.+?)(?=Filières|ACTIVITÉ|AnalySe)".

Definition extract_sector_from_layout (left full : list N) : list N :=
  match re_search RE_SECTOR_LEFT IGNORECASE_DOTALL left with
  | Some m => _strip_label_prefix (default [] (group m 1))
  | None =>
    match re_search RE_SECTOR_FULL IGNORECASE_DOTALL full with
    | Some m => _strip_label_prefix (default [] (group m 1))
    | None => utf8 "CRI"
    end
  end.

Definition RE_SUB_RIGHT : regex :=
  Eval vm_compute in
    re_compile "Filières\s*de\s*production\s*:\s*(.+?)(?=Secteur|ACTIVITÉ|AnalySe|$)".
Definition RE_SUB_FULL : regex :=
  Eval vm_compute in
    re_compile "Filières\s*de\s*production\s*:\s*(.+?)(?=Secteur|ACTIVITÉ|AnalySe)".

Definition extract_sub_sector_from_layout (right full : list N) : option (list N) :=
  match re_search RE_SUB_RIGHT IGNORECASE_DOTALL right with
  | Some m => Some (_strip_label_prefix (default [] (group m 1)))
  | None =>
    match re_search RE_SUB_FULL IGNORECASE_DOTALL full with
    | Some m => Some (_strip_label_prefix (default [] (group m 1)))
    | None => None
    end
  end.

(** ** Description *)

Definition RE_DESC_KEY : regex :=
  Eval vm_compute in
    re_compile "(?:ACTIVIT[ÉE]\s*-\s*)?DESCRIPTION\s*DU\s*PROJET\s*(.+?)(?=(?:\n\s*(?:Code\s*(?:HS|SH)|PRODUIT\s+PRINCIPAL|D[ÉE]BOUCH[ÉE]S|SUPERFICIE|PROGRAMME|CAPACIT[ÉE]|EMPLOIS|TRI|PBP|INVESTISSEMENT|BESOINS|Sup\s*:|Lieu\s*:|Web\s*:|Contact\s*:))|$)".
Definition RE_DESC_NARRATIVE : regex :=
  Eval vm_compute in
    re_compile "(?:^|\n)\s*(?:Un|Une|Le|La|L['’])\s+(.+?)(?=(?:\n\s*(?:Code\s*(?:HS|SH)|PRODUIT\s+PRINCIPAL|D[ÉE]BOUCH[ÉE]S|SUPERFICIE|PROGRAMME|CAPACIT[ÉE]|EMPLOIS|TRI|PBP|INVESTISSEMENT|BESOINS|Sup\s*:|Lieu\s*:|Web\s*:|Contact\s*:))|$)".

(** The description: what follows DESCRIPTION DU PROJET up to the next
    section heading, else the first narrative paragraph; the left
    column before the whole page. *)
Definition extract_description_from_layout (left_text full_text : list N)
    : option (list N) :=
  match re_search RE_DESC_KEY IGNORECASE_DOTALL left_text with
  | Some m_desc => Some (clean_text (default [] (group m_desc 1)))
  | None =>
    match re_search RE_DESC_KEY IGNORECASE_DOTALL full_text with
    | Some m_desc_full => Some (clean_text (default [] (group m_desc_full 1)))
    | None =>
      match re_search RE_DESC_NARRATIVE IGNORECASE_DOTALL left_text with
      | Some m_narr => Some (clean_text (group0 m_narr))
      | None =>
        match re_search RE_DESC_NARRATIVE IGNORECASE_DOTALL full_text with
        | Some m_narr_full => Some (clean_text (group0 m_narr_full))
        | None => None
        end
      end
    end
  end.

(** ** Numeric fields *)

Definition RE_N_MDH : regex := Eval vm_compute in re_compile "\bM\s*D\s*H\s*S?\b".
Definition RE_N_PBP : regex := Eval vm_compute in re_compile "\bP\s*B\s*P\b".
Definition RE_N_TRI : regex := Eval vm_compute in re_compile "\bT\s*R\s*I\b".
Definition RE_N_CA : regex := Eval vm_compute in re_compile "\bC\s*A\b".
Definition RE_N_DHS : regex := Eval vm_compute in re_compile "\bD\s*H\s*S\b".
Definition RE_N_DH : regex := Eval vm_compute in re_compile "\bD\s*H\b".
Definition RE_N_KDHS : regex := Eval vm_compute in re_compile "\bK\s*D\s*H\s*S\b".
Definition RE_N_PB0P : regex := Eval vm_compute in re_compile "\bP\s*B\s*0\s*P\b".
Definition RE_N_PB0P' : regex := Eval vm_compute in re_compile "\bPB0P\b".

(** Normalise the extracted text for the numeric patterns: bullets, no-break
    spaces and the replacement character, dash variants, unit keywords
    typed with spaces between their letters, runs of blanks. *)
Definition _norm (s : list N) : list N :=
  let s := replace [160] [32] s in
  let s := replace [61692] [32] s in
  let s := replace [8226] [32] s in
  let s := replace [65533] [45] s in
  let s := replace [8211] [45] s in
  let s := replace [8212] [45] s in
  let s := replace [8722] [45] s in
  let s := re_sub_fun RE_N_MDH (fun m => re_sub RE_SPACES [] NOFLAGS (group0 m)) IGNORECASE s in
  let s := re_sub RE_N_PBP (utf8 "PBP") IGNORECASE s in
  let s := re_sub RE_N_TRI (utf8 "TRI") IGNORECASE s in
  let s := re_sub RE_N_CA (utf8 "CA") IGNORECASE s in
  let s := re_sub RE_N_DHS (utf8 "DHS") IGNORECASE s in
  let s := re_sub RE_N_DH (utf8 "DH") IGNORECASE s in
  let s := re_sub RE_N_KDHS (utf8 "KDHS") IGNORECASE s in
  let s := re_sub RE_N_PB0P (utf8 "PBP") IGNORECASE s in
  let s := re_sub RE_N_PB0P' (utf8 "PBP") IGNORECASE s in
  re_sub RE_SPACES (utf8 " ") NOFLAGS s.

(** [float(m.group(i).replace(",", "."))] *)
Definition float_group (m : rematch) (i : nat) : option Q :=
  match group m i with
  | Some s => float_of_text (replace (utf8 ",") (utf8 ".") s)
  | None => None
  end.

(** [float(m.group(i).replace(" ", "").replace(",", "."))] *)
Definition float_group_nospace (m : rematch) (i : nat) : option Q :=
  match group m i with
  | Some s => float_of_text (replace (utf8 ",") (utf8 ".") (replace (utf8 " ") [] s))
  | None => None
  end.

(** [float(m.group(i).replace(" ", "").replace("\u00a0", "").replace(",", "."))] *)
Definition float_group_dh (m : rematch) (i : nat) : option Q :=
  match group m i with
  | Some s =>
    float_of_text (replace (utf8 ",") (utf8 ".") (replace [160] [] (replace (utf8 " ") [] s)))
  | None => None
  end.

(** Mean of the two numbers of a range match, times [unit]; [None] when
    a conversion raises. *)
Definition range_value (m : rematch) (unit : Q) : option Q :=
  match float_group m 1, float_group m 2 with
  | Some a, Some b => Some (fmul (fdiv (fadd a b) 2) unit)
  | _, _ => None
  end.

Definition single_value (m : rematch) (unit : Q) : option Q :=
  match float_group m 1 with
  | Some v => Some (fmul v unit)
  | None => None
  end.

(** [try: x = v  except: pass] on a variable holding [old]. *)
Definition assign_or_keep {A} (v : option A) (old : option A) : option A :=
  match v with
  | Some _ => v
  | None => old
  end.

Definition RE_MDH_RANGE : regex :=
  Eval vm_compute in
    re_compile "(\d+(?:[.,]\d+)?)\s*(?:-|à)\s*(\d+(?:[.,]\d+)?)\s*(?:Mns?|Mn)?\s*MDH(?:S)?\b".
Definition RE_KDHS_RANGE : regex :=
  Eval vm_compute in
    re_compile "(\d+(?:[.,]\d+)?)\s*(?:-|à)\s*(\d+(?:[.,]\d+)?)\s*KDHS?\b".
Definition RE_KDHS_SINGLE : regex :=
  Eval vm_compute in re_compile "\b(\d+(?:[.,]\d+)?)\s*KDHS?\b".
Definition RE_MDH_LABELED : regex :=
  Eval vm_compute in
    re_compile "(?:INVESTISSEMENT|D['’]INVESTISSEMENT)\s*[:\-]?\s*(\d+(?:[.,]\d+)?)\s*(?:Mns?|Mn)?\s*MDH(?:S)?\b".
Definition RE_MDH_SINGLE : regex :=
  Eval vm_compute in re_compile "(\d+(?:[.,]\d+)?)\s*(?:Mns?|Mn)?\s*MDH(?:S)?\b".
Definition RE_DH_CA : regex :=
  Eval vm_compute in re_compile "-\s*([\d\s.,]+)\s*DHS?\s*-\s*CA\b".
Definition RE_DH_LABELED : regex :=
  Eval vm_compute in
    re_compile "(?:INVESTISSEMENT|D['’]INVESTISSEMENT)\b.*?([\d\s.,]+)\s*DHS?\b".
Definition RE_DH_STANDALONE : regex :=
  Eval vm_compute in re_compile "\b([\d\s.,]{3,})\s*DHS?\b".

(** The value of [est_mad] after the KDHS block. *)
Definition est_after_kdhs (t : list N) : option Q :=
  match re_search RE_KDHS_RANGE IGNORECASE t with
  | Some m => assign_or_keep (range_value m 1000) None
  | None =>
    match re_search RE_KDHS_SINGLE IGNORECASE t with
    | Some m => assign_or_keep (single_value m 1000) None
    | None => None
    end
  end.

(** The first of two searches that matches ([m = re.search(p1, t)],
    [if not m: m = re.search(p2, t)]). *)
Definition search_first (ps : list regex) (fl : flags) (t : list N) : option rematch :=
  fold_right (fun p rest => orelse (re_search p fl t) rest) None ps.

(** The value of [est_mad] after the MDH block. *)
Definition est_after_mdh (t : list N) : option Q :=
  let est := est_after_kdhs t in
  match re_search RE_MDH_RANGE IGNORECASE t with
  | Some m => assign_or_keep (range_value m 1000000) est
  | None =>
    match search_first [RE_MDH_LABELED; RE_MDH_SINGLE] IGNORECASE t with
    | Some m =>
      match est with
      | None => assign_or_keep (single_value m 1000000) est
      | Some _ => est
      end
    | None => est
    end
  end.

(** [data["estimated_investment_mad"]]: the DH block runs when the
    blocks above left no value. *)
Definition estimated_investment (t : list N) : option Q :=
  match est_after_mdh t with
  | Some v => Some v
  | None =>
    match search_first [RE_DH_CA; RE_DH_LABELED; RE_DH_STANDALONE] IGNORECASE t with
    | Some m => float_group_dh m 1
    | None => None
    end
  end.

Definition RE_SURF_RANGE : regex :=
  Eval vm_compute in
    re_compile "Sup\s*[:\-]?\s*(\d+(?:[\s.,]\d+)?)(?:\s*m\s*[²2])?\s*(?:-|à)\s*(\d+(?:[\s.,]\d+)?)(?:\s*m\s*[²2])?\b".
Definition RE_SURF_SINGLE : regex :=
  Eval vm_compute in re_compile "Sup\s*[:\-]?\s*(\d+(?:[\s.,]\d+)?)\s*m\s*[²2]\b".
Definition RE_SURF_HA : regex :=
  Eval vm_compute in
    re_compile "Sup\s*[:\-]?\s*(\d+(?:[.,]\d+)?)(?:\s*(?:-|à)\s*(\d+(?:[.,]\d+)?))?\s*Ha\b".

(** The value of [data.get("required_land_area_m2")] after the m2
    block: the range pattern, else the single-value pattern. *)
Definition area_m2_block (t : list N) : option Q :=
  match re_search RE_SURF_RANGE IGNORECASE t with
  | Some m =>
    match float_group_nospace m 1, float_group_nospace m 2 with
    | Some s1, Some s2 => Some (fdiv (fadd s1 s2) 2)
    | _, _ => None
    end
  | None =>
    match re_search RE_SURF_SINGLE IGNORECASE t with
    | Some m => float_group_nospace m 1
    | None => None
    end
  end.

(** The hectare block (1 Ha = 10 000 m2). *)
Definition area_ha_block (t : list N) : option Q :=
  match re_search RE_SURF_HA IGNORECASE t with
  | Some m =>
    match float_group m 1 with
    | Some h1 =>
      match group m 2 with
      | Some (_ :: _) =>
        match float_group m 2 with
        | Some h2 => Some (fmul (fdiv (fadd h1 h2) 2) 10000)
        | None => None
        end
      | _ => Some (fmul h1 10000)
      end
    | None => None
    end
  | None => None
  end.

(** [data["required_land_area_m2"]]. *)
Definition required_land_area (t : list N) : option Q :=
  match area_m2_block t with
  | Some v => Some v
  | None => area_ha_block t
  end.

Definition RE_TRI_RANGE : regex :=
  Eval vm_compute in
    re_compile "TRI\s*(?:moyen)?\s*[:\-]?\s*(\d+(?:[.,]\d+)?)\s*(?:-|à)\s*(\d+(?:[.,]\d+)?)\s*%?".
Definition RE_TRI_SINGLE : regex :=
  Eval vm_compute in re_compile "TRI\s*(?:moyen)?\s*[:\-]?\s*(\d+(?:[.,]\d+)?)\s*%?".
Definition RE_PBP : regex :=
  Eval vm_compute in
    re_compile "PBP\s*[:\-]?\s*(\d+(?:[.,]\d+)?)\s*(?:-|à)?\s*(\d+(?:[.,]\d+)?)?\s*ans".
Definition RE_ROI_YEARS : regex :=
  Eval vm_compute in
    re_compile "\bROI\b\s*[:\-]?\s*(\d+(?:[.,]\d+)?)\s*(?:-|à)?\s*(\d+(?:[.,]\d+)?)?\s*ans".

(** One number, or the mean of two when the second group matched. *)
Definition one_or_mean (m : rematch) (second : option (list N)) : option Q :=
  match float_group m 1 with
  | Some r1 =>
    match second with
    | Some (_ :: _) =>
      match float_group m 2 with
      | Some r2 => Some (fdiv (fadd r1 r2) 2)
      | None => None
      end
    | _ => Some r1
    end
  | None => None
  end.

(** The rate of return read in the text (label TRI). *)
Definition roi_from_text (t : list N) : option Q :=
  match search_first [RE_TRI_RANGE; RE_TRI_SINGLE] IGNORECASE t with
  | Some m =>
    let r2 :=
      match lastindex m with
      | Some li => if (2 <=? li)%nat then group m 2 else None
      | None => None
      end in
    one_or_mean m r2
  | None => None
  end.

(** The payback period read in the text: label PBP, else label ROI
    followed by years. *)
Definition payback_from_text (t : list N) : option Q :=
  let pbp :=
    match re_search RE_PBP IGNORECASE t with
    | Some m => one_or_mean m (group m 2)
    | None => None
    end in
  match pbp with
  | Some v => Some v
  | None =>
    match re_search RE_ROI_YEARS IGNORECASE t with
    | Some m => one_or_mean m (group m 2)
    | None => None
    end
  end.

(** Deterministic fills: the rate from the payback when only the
    payback is known and positive ... *)
Definition fill_roi (roi pb : option Q) : option Q :=
  match roi, pb with
  | None, Some pb => if flt 0 pb then Some (round2 (fdiv 100 pb)) else None
  | _, _ => roi
  end.

(** ... then the payback from the rate when only the rate is known and
    lies in (0, 100]. *)
Definition fill_payback (roi pb : option Q) : option Q :=
  match pb, roi with
  | None, Some tri =>
    if flt 0 tri && fle tri 100 then Some (round2 (fdiv 100 tri)) else None
  | _, _ => pb
  end.

(** The dictionary returned by [extract_numeric_fields] (the province
    and the industrial zone, which no numeric field depends on, are
    left out). *)
Record numeric_fields : Type :=
  { nf_estimated_investment_mad : option Q;
    nf_required_land_area_m2 : option Q;
    nf_roi_estimated : option Q;
    nf_payback_period_years : option Q }.

Definition extract_numeric_fields (text : list N) : numeric_fields :=
  let t := _norm text in
  let roi0 := roi_from_text t in
  let pb0 := payback_from_text t in
  let roi := fill_roi roi0 pb0 in
  let pb := fill_payback roi pb0 in
  {| nf_estimated_investment_mad := estimated_investment t;
     nf_required_land_area_m2 := required_land_area t;
     nf_roi_estimated := roi;
     nf_payback_period_years := pb |}.

(** ** Record assembly *)

Inductive range_label : Type := Low | Medium | High.

Definition investment_range_label (estimated_mad : option Q) : option range_label :=
  match estimated_mad with
  | None => None
  | Some e =>
    if flt e INV_LOW_MAX then Some Low
    else if fle e INV_MEDIUM_MAX then Some Medium
    else Some High
  end.

Definition min_investment_mad (estimated_mad : option Q) : option Q :=
  match estimated_mad with
  | None => None
  | Some e => Some (round2 (fmul e (8 # 10)))
  end.

(** The dictionary built by [extract_fields] (the description is left
    out). *)
Record fields : Type :=
  { f_project_title : list N;
    f_sector : list N;
    f_sub_sector : option (list N);
    f_numeric : numeric_fields }.

Definition extract_fields (filename : list N) (l : layout_data) : fields :=
  {| f_project_title := extract_project_title (full_text l) filename;
     f_sector := extract_sector_from_layout (left_text l) (full_text l);
     f_sub_sector := extract_sub_sector_from_layout (right_text l) (full_text l);
     f_numeric :=
       extract_numeric_fields
         (join [10] [full_text l; left_text l; right_text l]) |}.

(** The record of one project: the columns that depend on the
    extracted text or on the identifier, and the source tags.  The
    remaining columns of the output (description, province, industrial
    zone, the constant flags and the path of the PDF) are not
    modelled. *)
Record project_record : Type :=
  { project_id : Z;
    project_reference : list N;
    project_title : list N;
    sector : option (list N);
    sub_sector : option (list N);
    project_bank_category : option (list N);
    region : list N;
    estimated_investment_mad : option Q;
    min_investment : option Q;
    investment_range : option range_label;
    payback_period_years : option Q;
    roi_estimated : option Q;
    required_land_area_m2 : option Q;
    language : list N;
    currency : list N;
    source_type : list N }.

(** Length cap of the reference and of its title part. *)
Definition REFERENCE_CAP : nat := 100.
Definition TITLE_CAP : nat := 50.

Definition make_reference (ref_region ref_title : list N) (id : Z) : list N :=
  let reference := ref_region ++ utf8 "-" ++ ref_title ++ utf8 "-" ++ str_of_Z id in
  if (REFERENCE_CAP <? List.length reference)%nat
  then ref_region ++ utf8 "-" ++ slice_to TITLE_CAP ref_title ++ utf8 "-" ++ str_of_Z id
  else reference.

(** [process_one_pdf] on the text the PDF library extracted from the
    file: no record when the page text is empty. *)
Definition process_one_pdf (filename : list N) (l : layout_data) (id : Z)
    : option project_record :=
  match full_text l with
  | [] => None
  | _ =>
    let f := extract_fields filename l in
    let title := f_project_title f in
    let ref_title := normalize_for_reference title in
    let ref_region := normalize_for_reference REGION in
    let est_mad := nf_estimated_investment_mad (f_numeric f) in
    Some
      {| project_id := id;
         project_reference := make_reference ref_region ref_title id;
         project_title := title;
         sector := Some (f_sector f);
         sub_sector := f_sub_sector f;
         project_bank_category := Some (f_sector f);
         region := REGION;
         estimated_investment_mad := est_mad;
         min_investment := min_investment_mad est_mad;
         investment_range := investment_range_label est_mad;
         payback_period_years := nf_payback_period_years (f_numeric f);
         roi_estimated := nf_roi_estimated (f_numeric f);
         required_land_area_m2 := nf_required_land_area_m2 (f_numeric f);
         language := LANGUAGE;
         currency := CURRENCY;
         source_type := SOURCE_TYPE |}
  end.

(** ** Output CSV helpers (refresh only this source, keep others) *)

Definition OUTPUT_COLUMNS : list string :=
  [ "project_id"; "project_reference"; "project_title"; "project_description";
    "sector"; "sub_sector"; "project_bank_category"; "is_project_bank";
    "region"; "province"; "industrial_zone"; "estimated_investment_mad";
    "min_investment_mad"; "investment_range"; "payback_period_years";
    "roi_estimated"; "required_land_area_m2"; "required_building_area_m2";
    "has_pdf"; "pdf_url"; "pdf_page_number"; "publication_date"; "last_update";
    "language"; "currency"; "source_type" ]%string.

(** A value of a DataFrame: missing ([None], NaN, an empty CSV field), a
    number, a string, a boolean. *)
Inductive cell : Type :=
| CNaN
| CNum (q : Qc)
| CStr (s : list N)
| CBool (b : bool).

#[global] Instance cell_eq_dec : EqDecision cell.
Proof. solve_decision. Defined.

(** A DataFrame: its column index and its rows in order. *)
Record dataframe : Type :=
  { columns : list string; rows : list (gmap string cell) }.

(** [df.empty]: one of the axes has length 0. *)
Definition df_empty (df : dataframe) : bool :=
  match rows df, columns df with
  | [], _ => true
  | _, [] => true
  | _, _ => false
  end.

(** The value of a row in a column of the frame. *)
Definition cell_at (r : gmap string cell) (col : string) : cell :=
  default CNaN (r !! col).

(** The persisted CSV as [pd.read_csv] finds it. *)
Inductive csv_file : Type :=
| Missing
| Unreadable
| Readable (df : dataframe).

Definition _safe_read_existing_output (csv : csv_file) : dataframe :=
  match csv with
  | Missing => {| columns := OUTPUT_COLUMNS; rows := [] |}
  | Unreadable => {| columns := OUTPUT_COLUMNS; rows := [] |}
  | Readable df => df
  end.

Definition label_text (l : range_label) : list N :=
  match l with
  | Low => utf8 "Low"
  | Medium => utf8 "Medium"
  | High => utf8 "High"
  end.

Definition cell_of_text (o : option (list N)) : cell :=
  match o with
  | Some s => CStr s
  | None => CNaN
  end.
Definition cell_of_number (o : option Q) : cell :=
  match o with
  | Some q => CNum (Q2Qc q)
  | None => CNaN
  end.

(** The row of a record in [pd.DataFrame(extracted_rows)] (modelled
    columns). *)
Definition row_of_record (r : project_record) : gmap string cell :=
  list_to_map
    [ ("project_id", CNum (Q2Qc (inject_Z (project_id r))));
      ("project_reference", CStr (project_reference r));
      ("project_title", CStr (project_title r));
      ("sector", cell_of_text (sector r));
      ("sub_sector", cell_of_text (sub_sector r));
      ("project_bank_category", cell_of_text (project_bank_category r));
      ("region", CStr (region r));
      ("estimated_investment_mad", cell_of_number (estimated_investment_mad r));
      ("min_investment_mad", cell_of_number (min_investment r));
      ("investment_range", cell_of_text (label_text <$> investment_range r));
      ("payback_period_years", cell_of_number (payback_period_years r));
      ("roi_estimated", cell_of_number (roi_estimated r));
      ("required_land_area_m2", cell_of_number (required_land_area_m2 r));
      ("language", CStr (language r));
      ("currency", CStr (currency r));
      ("source_type", CStr (source_type r)) ]%string.

Definition RECORD_COLUMNS : list string :=
  [ "project_id"; "project_reference"; "project_title"; "sector"; "sub_sector";
    "project_bank_category"; "region"; "estimated_investment_mad";
    "min_investment_mad"; "investment_range"; "payback_period_years";
    "roi_estimated"; "required_land_area_m2"; "language"; "currency";
    "source_type" ]%string.

(** [pd.DataFrame(extracted_rows)]: no column when there is no row. *)
Definition dataframe_of_records (rs : list project_record) : dataframe :=
  {| columns := match rs with [] => [] | _ => RECORD_COLUMNS end;
     rows := row_of_record <$> rs |}.

(** [str(c) == tag] for a tag that is not a numeral (the comparisons
    of the source are with the source tag and the region name). *)
Definition astype_str_eqb (c : cell) (tag : list N) : bool :=
  match c with
  | CStr s => bool_decide (s = tag)
  | CNaN => bool_decide (utf8 "nan" = tag)
  | CBool true => bool_decide (utf8 "True" = tag)
  | CBool false => bool_decide (utf8 "False" = tag)
  | CNum _ => false
  end.

Definition has_column (df : dataframe) (col : string) : bool :=
  bool_decide (col ∈ columns df).

(** [df[df[col].astype(str) != tag].copy()] *)
Definition drop_rows_tagged (df : dataframe) (col : string) (tag : list N) : dataframe :=
  {| columns := columns df;
     rows := List.filter (fun r => negb (astype_str_eqb (cell_at r col) tag)) (rows df) |}.

Definition _remove_rows_for_this_source (df : dataframe) : dataframe :=
  if df_empty df then {| columns := columns df; rows := [] |}
  else if has_column df "source_type" then drop_rows_tagged df "source_type" SOURCE_TYPE
  else if has_column df "region" then drop_rows_tagged df "region" REGION
  else df.

(** Add every missing column as [None], then select [cols] in order. *)
Definition _ensure_columns (df : dataframe) (cols : list string) : dataframe :=
  {| columns := cols;
     rows :=
       (fun r : gmap string cell =>
          list_to_map
            ((fun col => (col, if has_column df col then cell_at r col else CNaN)) <$> cols))
         <$> rows df |}.

(** [pd.concat([a, b], ignore_index=True)] *)
Definition concat (a b : dataframe) : dataframe :=
  {| columns := columns a ++ List.filter (fun c => negb (has_column a c)) (columns b);
     rows := rows a ++ rows b |}.

(** What [_write_output_csv] serialises. *)
Definition _write_output_csv (df : dataframe) : dataframe :=
  _ensure_columns df OUTPUT_COLUMNS.

(** [extracted_rows.sort(key=lambda r: r.get("project_id", 0))]: a
    stable sort, here by insertion. *)
Fixpoint insert_by_id (r : project_record) (l : list project_record) : list project_record :=
  match l with
  | [] => [r]
  | x :: l' =>
    if (project_id r <? project_id x)%Z then r :: l else x :: insert_by_id r l'
  end.

Definition sort_by_id (l : list project_record) : list project_record :=
  fold_left (fun sorted r => insert_by_id r sorted) l [].

(** ** Main logic *)

Section Merge.

(** The numeric reading [pd.to_numeric] gives to a text cell ([None]:
    not a number, coerced to NaN). *)
Variable parse_numeric : list N -> option Qc.

(** [pd.to_numeric(., errors="coerce")] on one value. *)
Definition to_numeric_coerce (c : cell) : option Qc :=
  match c with
  | CNaN => None
  | CNum q => Some q
  | CStr s => parse_numeric s
  | CBool b => Some (if b then Q2Qc 1 else Q2Qc 0)
  end.

Definition Qc_max (a b : Qc) : Qc := if Qclt_le_dec a b then b else a.

(** [Series.max()]: NaN is skipped; NaN when nothing is left. *)
Fixpoint nanmax (l : list (option Qc)) : option Qc :=
  match l with
  | [] => None
  | None :: l' => nanmax l'
  | Some q :: l' =>
    match nanmax l' with
    | Some m => Some (Qc_max q m)
    | None => Some q
    end
  end.

(** The numeric values of the column [project_id]. *)
Definition project_id_column (df : dataframe) : list (option Qc) :=
  (fun r : gmap string cell => to_numeric_coerce (cell_at r "project_id")) <$> rows df.

Definition _max_project_id (df : dataframe) : Z :=
  if has_column df "project_id" && negb (df_empty df)
  then
    match nanmax (project_id_column df) with
    | Some v => int_of_Q (this v)
    | None => 0%Z
    end
  else 0%Z.

(** A PDF of the target directory: its file name and the text the PDF
    library extracts from it. *)
Definition pdf_input : Type := (list N * layout_data)%type.

(** The futures in submission order: file [idx] of the sorted list is
    handed the identifier [next_id + idx]. *)
Definition submit_all (next_id : Z) (pdf_files : list pdf_input)
    : list (option project_record) :=
  imap (fun idx p => process_one_pdf (fst p) (snd p) (next_id + Z.of_nat idx)%Z) pdf_files.

(** The rows appended as the futures complete, [completion] being the
    order in which the pool finishes them. *)
Definition collect (results : list (option project_record)) (completion : list nat)
    : list project_record :=
  omap (fun i : nat => match results !! i with Some (Some r) => Some r | _ => None end)
       completion.

(** The identifier the run starts from. *)
Definition next_project_id (csv : csv_file) : Z :=
  (_max_project_id (_safe_read_existing_output csv) + 1)%Z.

(** [process_pdfs]: the frame written to the CSV, or [None] when the
    directory holds no PDF (nothing is written). *)
Definition process_pdfs (csv : csv_file) (pdf_files : list pdf_input)
    (completion : list nat) : option dataframe :=
  let df_existing_full := _safe_read_existing_output csv in
  let next_id := (_max_project_id df_existing_full + 1)%Z in
  let df_kept := _remove_rows_for_this_source df_existing_full in
  match pdf_files with
  | [] => None
  | _ =>
    let extracted_rows := sort_by_id (collect (submit_all next_id pdf_files) completion) in
    let df_new := _ensure_columns (dataframe_of_records extracted_rows) OUTPUT_COLUMNS in
    let df_kept := _ensure_columns df_kept OUTPUT_COLUMNS in
    Some (_write_output_csv (concat df_kept df_new))
  end.

End Merge.

End Cri.

(* ===================================================================== *)
(** * extract_projects.py                                                 *)
(* ===================================================================== *)

Module ExtractProjects.

(** Investment range thresholds (MAD). *)
Definition INV_LOW_MAX : Q := 5000000.
Definition INV_MEDIUM_MAX : Q := 20000000.

(** Standard ROI assumption when the payback is not in the PDF. *)
Definition ROI_ASSUMPTION_YEARS : Q := 6.

Definition RE_BLANK : regex := Eval vm_compute in re_compile "[\s\u00a0]".
Definition RE_BLANK' : regex := Eval vm_compute in re_compile "\s".

(** [float(re.sub(blank, "", s).replace(",", "."))]; [None] for
    [ValueError]. *)
Definition float_of_field (blank : regex) (s : list N) : option Q :=
  float_of_text (replace (utf8 ",") (utf8 ".") (re_sub blank [] NOFLAGS s)).

Definition group_float (blank : regex) (m : rematch) : option Q :=
  match group m 1 with
  | Some s => float_of_field blank s
  | None => None
  end.

Definition RE_INV_MDH : regex :=
  Eval vm_compute in
    re_compile "Investissement\s*potentiel\s*\([^)]*\)\s*[:\-]\s*([\d\s,\.]+)\s*MDH".
Definition RE_INV_DH : regex :=
  Eval vm_compute in
    re_compile "Investissement\s*potentiel\s*\([^)]*\)\s*[:\-]\s*([\d\s,\.]+)\s*DH\b".

(** The amount in DH when the MDH pattern gives no value. *)
Definition investment_dh (t : list N) : option Q :=
  match re_search RE_INV_DH IGNORECASE t with
  | Some m => group_float RE_BLANK m
  | None => None
  end.

Definition extract_estimated_investment_mad (t : list N) : option Q :=
  match re_search RE_INV_MDH IGNORECASE t with
  | Some m =>
    match group_float RE_BLANK m with
    | Some val => Some (if flt val 1000 then fmul val 1000000 else val)
    | None => investment_dh t
    end
  | None => investment_dh t
  end.

Definition RE_PAYBACK_RANGE : regex :=
  Eval vm_compute in
    re_compile "Retour\s+sur\s+investissement\s*\([^)]*\)\s*[:\-]\s*(\d+)\s*(?:à|-)\s*(\d+)\s*ans".
Definition RE_PAYBACK_SINGLE : regex :=
  Eval vm_compute in
    re_compile "Retour\s+sur\s+investissement\s*\([^)]*\)\s*[:\-]\s*(\d+)\s*ans".

(** [int(m.group(i))] *)
Definition int_group (m : rematch) (i : nat) : option Z :=
  match group m i with
  | Some (c :: s) => digits_value 0 (c :: s)
  | _ => None
  end.

(** [_first_match_float(text, pattern, 1)] *)
Definition _first_match_float (t : list N) (p : regex) : option Q :=
  match re_search p IGNORECASE_DOTALL t with
  | Some m =>
    match group m 1 with
    | Some s =>
      match strip s with
      | [] => None
      | s' => float_of_field RE_BLANK s'
      end
    | None => None
    end
  | None => None
  end.

Definition payback_single (t : list N) : option Q :=
  match re_search RE_PAYBACK_SINGLE IGNORECASE t with
  | Some _ => _first_match_float t RE_PAYBACK_SINGLE
  | None => None
  end.

Definition extract_payback_period_years (t : list N) : option Q :=
  match re_search RE_PAYBACK_RANGE IGNORECASE t with
  | Some m =>
    match int_group m 1, int_group m 2 with
    | Some a, Some b => Some (fdiv (inject_Z (a + b)) 2)
    | _, _ => payback_single t
    end
  | None => payback_single t
  end.

Definition RE_AREA_LABELED_M2 : regex :=
  Eval vm_compute in
    re_compile "Superficie\s+souhait[ée]e\s+du\s+terrain\s*[:\-]\s*([\d\s,\.]+)\s*m2".
Definition RE_AREA_TERRAIN_M2 : regex :=
  Eval vm_compute in re_compile "terrain\s*[:\-]?\s*([\d\s,\.]+)\s*m2".
Definition RE_AREA_LABELED_HA : regex :=
  Eval vm_compute in
    re_compile "Superficie\s+souhait[ée]e\s+du\s+terrain\s*[:\-]\s*([\d\s,\.]+)\s*Ha\b".
Definition RE_AREA_TERRAIN_HA : regex :=
  Eval vm_compute in re_compile "terrain\s*[:\-]?\s*([\d\s,\.]+)\s*Ha\b".
Definition RE_AREA_RANGE_M2 : regex :=
  Eval vm_compute in
    re_compile "Superficie\s+souhait[ée]e\s*([\d\s,\.]+)(?:\s*[à\-]\s*[\d\s,\.]+)?\s*m2".

(** One step of the chain of [extract_required_land_area_m2]: the
    value of the first group of [p], scaled; a pattern that does not
    match, or whose number does not convert, leaves the turn to the
    next. *)
Definition area_step (p blank : regex) (scale : Q) (t : list N) : option Q :=
  match re_search p IGNORECASE t with
  | Some m =>
    match group_float blank m with
    | Some v => Some (fmul v scale)
    | None => None
    end
  | None => None
  end.

Definition extract_required_land_area_m2 (t : list N) : option Q :=
  orelse (area_step RE_AREA_LABELED_M2 RE_BLANK 1 t)
  (orelse (area_step RE_AREA_TERRAIN_M2 RE_BLANK' 1 t)
  (orelse (area_step RE_AREA_LABELED_HA RE_BLANK 10000 t)
  (orelse (area_step RE_AREA_TERRAIN_HA RE_BLANK' 10000 t)
          (area_step RE_AREA_RANGE_M2 RE_BLANK 1 t)))).

(** ** Calculated fields *)

Definition investment_range_label (estimated_mad : option Q) : option Cri.range_label :=
  match estimated_mad with
  | None => None
  | Some e =>
    if flt e INV_LOW_MAX then Some Cri.Low
    else if fle e INV_MEDIUM_MAX then Some Cri.Medium
    else Some Cri.High
  end.

(** Compute roi_estimated: 100/payback if present, else 100/6. *)
Definition roi_estimated_only (payback_years : option Q) : Q :=
  match payback_years with
  | Some p => if flt 0 p then fdiv 100 p else fdiv 100 ROI_ASSUMPTION_YEARS
  | None => fdiv 100 ROI_ASSUMPTION_YEARS
  end.

Definition min_investment_mad (estimated_mad : option Q) : option Q :=
  match estimated_mad with
  | None => None
  | Some e => Some (round2 (fmul e (8 # 10)))
  end.

(** The numeric columns of the record built by [build_record] from
    the text block of one project. *)
Record numeric_columns : Type :=
  { estimated_investment_mad : option Q;
    min_investment : option Q;
    investment_range : option Cri.range_label;
    payback_period_years : option Q;
    roi_estimated : option Q;
    required_land_area_m2 : option Q }.

Definition build_record (t : list N) : numeric_columns :=
  let est_mad := extract_estimated_investment_mad t in
  let payback := extract_payback_period_years t in
  let roi_est := roi_estimated_only payback in
  {| estimated_investment_mad := round2 <$> est_mad;
     min_investment := min_investment_mad est_mad;
     investment_range := investment_range_label est_mad;
     payback_period_years := round2 <$> payback;
     roi_estimated := Some (round2 roi_est);
     required_land_area_m2 := extract_required_land_area_m2 t |}.

(** ** Building area *)

Definition RE_BUILDING : regex :=
  Eval vm_compute in re_compile "constructions?\s+de\s+([\d\s]+)\s*m2".

Definition extract_required_building_area_m2 (t : list N) : option Q :=
  match re_search RE_BUILDING IGNORECASE t with
  | Some m =>
    match group m 1 with
    | Some s => float_of_text (re_sub RE_BLANK' [] NOFLAGS s)
    | None => None
    end
  | None => None
  end.

(** ** Pages of a document *)

(** [pages_text]: 1-based page numbers, each with the text of its page. *)
Definition pages : Type := list (nat * list N).

(** [extract_text_per_page], from the texts the PDF library returns
    page by page (an absent text being the empty one). *)
Definition extract_text_per_page (texts : list (list N)) : pages :=
  imap (fun i text => (S i, text)) texts.

Definition RE_PROJECT_NUMBER : regex :=
  Eval vm_compute in re_compile "PROJET\s+N[°\s]*[A-Za-z]*[\-\s]*\d+".
Definition RE_PROJECT_COLON : regex := Eval vm_compute in re_compile "PROJET\s*[:\-]".

(** [re.search(pattern, text, re.IGNORECASE)] taken as a condition. *)
Definition found (r : regex) (text : list N) : bool :=
  match re_search r IGNORECASE text with
  | Some _ => true
  | None => false
  end.

(** [sorted] on page numbers. *)
Fixpoint insert_page (p : nat) (l : list nat) : list nat :=
  match l with
  | [] => [p]
  | q :: l' => if (p <=? q)%nat then p :: l else q :: insert_page p l'
  end.
Definition sorted (l : list nat) : list nat := fold_right insert_page [] l.

(** A page that starts a project by its number: PROJET N°36, N°A-001. *)
Definition numbered_start (pt : nat * list N) : bool :=
  negb (fst pt =? 1)%nat && found RE_PROJECT_NUMBER (snd pt).

(** Fallback: a page with PROJET and FILIÈRE or DESCRIPTION. *)
Definition titled_start (pt : nat * list N) : bool :=
  negb (fst pt =? 1)%nat
  && (found RE_PROJECT_COLON (snd pt)
      && (contains (utf8 "FILIÈRE") (snd pt) || contains (utf8 "FILIERE") (snd pt)
          || contains (utf8 "DESCRIPTION") (snd pt))).

(** Pages where a new project starts. *)
Definition find_project_start_pages (pages_text : pages) : list nat :=
  match List.map fst (List.filter numbered_start pages_text) with
  | [] => sorted (remove_dups (List.map fst (List.filter titled_start pages_text)))
  | starts => sorted starts
  end.

(** Text of a project: the start page and the next page, if any. *)
Definition get_project_text_block (pages_text : pages) (start_page : nat) : list N :=
  join [10]
    (List.map snd
       (List.filter (fun pt => (fst pt =? start_page)%nat || (fst pt =? start_page + 1)%nat)
          pages_text)).

(** ** Main *)

(** A row of the output: its identifier, its page, and the numeric
    columns read in the text block of the project. *)
Record project_row : Type :=
  { project_id : Z; pdf_page_number : nat; numbers : numeric_columns }.

(** The loop of [main] over the start pages of one document. *)
Fixpoint rows_of_pages (pages_text : pages) (project_pages : list nat) (global_index : Z)
    : list project_row :=
  match project_pages with
  | [] => []
  | start_page :: rest =>
    {| project_id := global_index;
       pdf_page_number := start_page;
       numbers := build_record (get_project_text_block pages_text start_page) |}
      :: rows_of_pages pages_text rest (global_index + 1)
  end.

(** The loop of [main] over the documents, each given by the texts of
    its pages; [None] is a file that is not found, and skipped. *)
Fixpoint main_loop (docs : list (option (list (list N)))) (global_index : Z)
    : list project_row :=
  match docs with
  | [] => []
  | None :: docs' => main_loop docs' global_index
  | Some texts :: docs' =>
    let pages_text := extract_text_per_page texts in
    let project_pages :=
      List.filter (fun p => (1 <? p)%nat) (find_project_start_pages pages_text) in
    let new_rows := rows_of_pages pages_text project_pages global_index in
    new_rows ++ main_loop docs' (global_index + Z.of_nat (List.length new_rows))
  end.

Definition main (docs : list (option (list (list N)))) : list project_row :=
  main_loop docs 1.

End ExtractProjects.

(* ===================================================================== *)
(** * Definitions used to state the properties                           *)
(* ===================================================================== *)

(** ** What a successful match establishes *)

(** [n] successive steps of a relation on matcher states. *)
Fixpoint Riter (n : nat) (step : cursor -> caps -> cursor -> caps -> Prop)
    (c : cursor) (cs : caps) (c' : cursor) (cs' : caps) : Prop :=
  match n with
  | O => c' = c /\ cs' = cs
  | S n' => exists c1 cs1, step c cs c1 cs1 /\ Riter n' step c1 cs1 c' cs'
  end.

Definition below (hi : option nat) (n : nat) : Prop :=
  match hi with
  | Some h => (n <= h)%nat
  | None => True
  end.

(** [Rm fl r c cs c' cs']: [r] can match from [c] to [c'], turning the
    captures [cs] into [cs'].  Every way the matcher succeeds is one of
    these (lemma [rmatch_sound]). *)
Fixpoint Rm (fl : flags) (r : regex) (c : cursor) (cs : caps) (c' : cursor) (cs' : caps)
    {struct r} : Prop :=
  match r with
  | REps => c' = c /\ cs' = cs
  | RFail => False
  | RChar x =>
    exists y rest, crest c = y :: rest /\ char_matches fl x y = true
                   /\ c' = advance c y rest /\ cs' = cs
  | RAny => exists y rest, crest c = y :: rest /\ c' = advance c y rest /\ cs' = cs
  | RSet neg items =>
    exists y rest, crest c = y :: rest /\ set_matches fl neg items y = true
                   /\ c' = advance c y rest /\ cs' = cs
  | RBol => c' = c /\ cs' = cs
  | REol => c' = c /\ cs' = cs
  | RWordB => c' = c /\ cs' = cs
  | RSeq r1 r2 => exists c1 cs1, Rm fl r1 c cs c1 cs1 /\ Rm fl r2 c1 cs1 c' cs'
  | RAlt r1 r2 => Rm fl r1 c cs c' cs' \/ Rm fl r2 c cs c' cs'
  | RGroup i r1 => exists cs0, Rm fl r1 c cs c' cs0 /\ cs' = (i, (cpos c, cpos c')) :: cs0
  | RLook r1 => c' = c /\ exists c2, Rm fl r1 c cs c2 cs'
  | RRep _ lo hi r1 =>
    exists n, (lo <= n)%nat /\ below hi n /\ Riter n (Rm fl r1) c cs c' cs'
  end.

(** The cursor [c] reads the text [t]. *)
Definition in_text (t : list N) (c : cursor) : Prop :=
  crest c = skipn (cpos c) t /\ (cpos c <= List.length t)%nat.

(** Every capturing group of [r] only ever spans a string with [P]. *)
Fixpoint groups_ok (fl : flags) (P : list N -> Prop) (r : regex) : Prop :=
  match r with
  | RGroup i r1 =>
    (forall t c cs c' cs',
        in_text t c -> Rm fl r1 c cs c' cs' -> P (substr (cpos c) (cpos c') t))
    /\ groups_ok fl P r1
  | RSeq r1 r2 => groups_ok fl P r1 /\ groups_ok fl P r2
  | RAlt r1 r2 => groups_ok fl P r1 /\ groups_ok fl P r2
  | RRep _ _ _ r1 => groups_ok fl P r1
  | RLook r1 => groups_ok fl P r1
  | _ => True
  end.

Definition caps_ok (P : list N -> Prop) (t : list N) (cs : caps) : Prop :=
  forall i a b, In (i, (a, b)) cs -> P (substr a b t).

Definition all_digits (s : list N) : Prop := Forall (fun c => is_digit c = true) s.

(** A numeral as the amount patterns capture it: digits, then possibly
    one separator accepted by [sep] and more digits. *)
Definition numeral (sep : N -> bool) (s : list N) : Prop :=
  exists d1 rest,
    s = d1 ++ rest /\ d1 <> [] /\ all_digits d1
    /\ (rest = [] \/ exists c d2, rest = c :: d2 /\ sep c = true /\ d2 <> [] /\ all_digits d2).

Definition point_or_comma (c : N) : bool := (c =? 46) || (c =? 44).
Definition blank_point_or_comma (c : N) : bool := (c =? 32) || (c =? 46) || (c =? 44).

(** The only white space of the text is the plain space. *)
Definition plain_spaces (t : list N) : Prop :=
  Forall (fun c => is_space c = true -> c = 32) t.

(** ** The claims' wording, for comparison with the code *)

(** A strategy of the amount resolution: [None] when its pattern does
    not match, else the value it gives ([None] inside when the matched
    number does not convert). *)
Definition strategy : Type := list N -> option (option Q).

Definition strat_kdhs_range : strategy :=
  fun t => (fun m => Cri.range_value m 1000) <$> re_search Cri.RE_KDHS_RANGE IGNORECASE t.
Definition strat_kdhs_single : strategy :=
  fun t => (fun m => Cri.single_value m 1000) <$> re_search Cri.RE_KDHS_SINGLE IGNORECASE t.
Definition strat_mdh_range : strategy :=
  fun t => (fun m => Cri.range_value m 1000000) <$> re_search Cri.RE_MDH_RANGE IGNORECASE t.
Definition strat_mdh_single : strategy :=
  fun t => (fun m => Cri.single_value m 1000000)
             <$> Cri.search_first [Cri.RE_MDH_LABELED; Cri.RE_MDH_SINGLE] IGNORECASE t.
Definition strat_dh_labeled : strategy :=
  fun t => (fun m => Cri.float_group_dh m 1) <$> re_search Cri.RE_DH_LABELED IGNORECASE t.
Definition strat_dh_near_ca : strategy :=
  fun t => (fun m => Cri.float_group_dh m 1) <$> re_search Cri.RE_DH_CA IGNORECASE t.
Definition strat_dh_standalone : strategy :=
  fun t => (fun m => Cri.float_group_dh m 1) <$> re_search Cri.RE_DH_STANDALONE IGNORECASE t.

(** First success wins. *)
Fixpoint first_success (l : list strategy) (t : list N) : option Q :=
  match l with
  | [] => None
  | s :: l' =>
    match s t with
    | Some v => v
    | None => first_success l' t
    end
  end.

(** The priority order as the claim words it. *)
Definition claimed_order : list strategy :=
  [ strat_kdhs_range; strat_kdhs_single; strat_mdh_range; strat_mdh_single;
    strat_dh_labeled; strat_dh_near_ca; strat_dh_standalone ].

(** The priority order of the code: the amount next to the CA marker
    comes before the labelled one. *)
Definition code_order : list strategy :=
  [ strat_kdhs_range; strat_kdhs_single; strat_mdh_range; strat_mdh_single;
    strat_dh_near_ca; strat_dh_labeled; strat_dh_standalone ].

(** A thousand-dirham pattern and the million-dirham range pattern both
    match. *)
Definition kdhs_and_mdh_range (t : list N) : Prop :=
  (strat_kdhs_range t <> None \/ strat_kdhs_single t <> None) /\ strat_mdh_range t <> None.

(** The bucket rule of the claim, between an amount and a label. *)
Definition label_rule (amount : option Q) (label : option Cri.range_label) : Prop :=
  (label = Some Cri.Low <-> exists e, amount = Some e /\ (e < 5000000)%Q)
  /\ (label = Some Cri.Medium <-> exists e, amount = Some e /\ (5000000 <= e)%Q /\ (e <= 20000000)%Q)
  /\ (label = Some Cri.High <-> exists e, amount = Some e /\ (20000000 < e)%Q)
  /\ (label = None <-> amount = None).

(** The characters the claim allows in a reference: [A-Z0-9-]. *)
Definition claimed_reference_char (c : N) : bool :=
  in_range 65 90 c || in_range 48 57 c || (c =? 45).

(** The characters a normalised text is made of: the hyphen and the
    upper-case forms of the word characters, the underscore among
    them; no ASCII lower-case letter, no combining mark, no white
    space. *)
Definition reference_char (c : N) : Prop :=
  (c = 45 \/ exists w, is_word w = true /\ In c (upper w))
  /\ in_range 97 122 c = false /\ is_Mn c = false /\ is_space c = false.


(** The characters on which the tables of this file are those of
    Python (see the conventions): Basic Latin and Latin-1 Supplement,
    the combining diacritical marks, General Punctuation and the
    symbols the source names. *)
Definition in_tables (c : N) : bool :=
  (c <? 256) || in_range 768 879 c || in_range 8192 8303 c
  || (c =? 8722) || (c =? 61692) || (c =? 65533).

(** A text written with these characters only. *)
Definition covered (s : list N) : Prop := forallb in_tables s = true.


(** No run of decimal digits of the text is longer than [n] ([run] is
    the length of the run that ends where the text starts). *)
Fixpoint digit_runs_within (n run : nat) (t : list N) : bool :=
  match t with
  | [] => true
  | c :: t' =>
    if is_digit c
    then (S run <=? n)%nat && digit_runs_within n (S run) t'
    else digit_runs_within n O t'
  end.

(** A text whose numbers have at most fifteen digits: they convert to
    binary64 without rounding. *)
Definition short_numbers (t : list N) : Prop := digit_runs_within 15 0 t = true.

(** The sub-patterns of the amount patterns that capture a number. *)
Definition RE_NUMBER : regex := Eval vm_compute in re_compile "\d+(?:[.,]\d+)?".
Definition RE_NUMBER_BLANK : regex := Eval vm_compute in re_compile "\d+(?:[\s.,]\d+)?".
Definition space_point_or_comma (c : N) : bool := is_space c || point_or_comma c.

(** Every match of [r] sets the group [i]. *)
Fixpoint sets_group (i : nat) (r : regex) : bool :=
  match r with
  | RGroup j r1 => (i =? j)%nat || sets_group i r1
  | RSeq r1 r2 => sets_group i r1 || sets_group i r2
  | RAlt r1 r2 => sets_group i r1 && sets_group i r2
  | RRep _ lo _ r1 => (1 <=? lo)%nat && sets_group i r1
  | RLook r1 => sets_group i r1
  | _ => false
  end.

Definition has_cap (i : nat) (cs : caps) : Prop := assoc_nat i cs <> None.

(** The characters [normalize_for_reference] deletes. *)
Definition outside_reference (y : N) : bool :=
  negb (is_word y || is_space y || (y =? 45)).

(** ** Sample inputs *)

(** A project sheet in the layout of the Béni Mellal PDFs. *)
Definition example_sheet : Cri.layout_data :=
  {| Cri.full_text :=
       join [10]
         [ utf8 "Projet N° : PR100";
           utf8 "CENTRE D’APPEL CENTRE D’APPEL";
           utf8 "Secteur économique : Services Filières de production : Offshoring";
           utf8 "INVESTISSEMENT : 20 - 30 MDH - CA : 60 MDH.";
           utf8 "Sup : 500 - 700 m²";
           utf8 "TRI : 12 - 15 %" ];
     Cri.left_text := utf8 "Secteur économique : Services";
     Cri.right_text := utf8 "Filières de production : Offshoring" |}.

(** A sheet without a project-number marker, named after its file. *)
Definition unnamed_sheet : Cri.layout_data :=
  {| Cri.full_text := utf8 "Atelier de couture - 150 000 DHS - CA: 200 000-250 000 DHS";
     Cri.left_text := [];
     Cri.right_text := [] |}.

(** A sheet whose amount in MDH is followed by a word. *)
Definition worded_sheet : Cri.layout_data :=
  {| Cri.full_text :=
       join [10]
         [ utf8 "Projet N° : PR101";
           utf8 "UNITÉ DE CONDITIONNEMENT";
           utf8 "Secteur économique : Agro-industrie";
           utf8 "INVESTISSEMENT : 20 - 30 MDH pour le projet";
           utf8 "Sup : 500 - 700 m²" ];
     Cri.left_text := utf8 "Secteur économique : Agro-industrie";
     Cri.right_text := [] |}.

(** ** Frames and identifiers *)

(** A row that belongs to another source: its tag in [col], as text,
    differs from [tag]. *)
Definition other_source (col : string) (tag : list N) (r : gmap string Cri.cell) : bool :=
  negb (Cri.astype_str_eqb (Cri.cell_at r col) tag).

(** A frame in the schema of the output file: its columns are among
    the output columns, and a row has no cell outside the columns. *)
Definition output_schema (df : Cri.dataframe) : Prop :=
  (forall col, col ∈ Cri.columns df -> col ∈ Cri.OUTPUT_COLUMNS)
  /\ (forall r col, r ∈ Cri.rows df -> col ∉ Cri.columns df -> r !! col = None).

(** Identifiers in strictly increasing order. *)
Definition strictly_increasing (ids : list Z) : Prop := StronglySorted Z.lt ids.

(** A numeric reading of text cells, for the sample runs. *)
Definition sample_parse_numeric (s : list N) : option Qc := Q2Qc <$> float_of_text s.

(** A persisted file with a row of another source and a row of an
    earlier run of this one. *)
Definition persisted_sample : Cri.dataframe :=
  {| Cri.columns := Cri.OUTPUT_COLUMNS;
     Cri.rows :=
       [ list_to_map
           [ ("project_id", Cri.CNum (Q2Qc 3));
             ("project_title", Cri.CStr (utf8 "Huilerie"));
             ("region", Cri.CStr (utf8 "Fès-Meknès"));
             ("source_type", Cri.CStr (utf8 "CRI Fès-Meknès")) ]%string;
         list_to_map
           [ ("project_id", Cri.CNum (Q2Qc 4));
             ("project_title", Cri.CStr (utf8 "Atelier"));
             ("region", Cri.CStr Cri.REGION);
             ("source_type", Cri.CStr Cri.SOURCE_TYPE) ]%string ] |}.

(** The PDFs of a sample run, in the sorted order of their names. *)
Definition sample_files : list Cri.pdf_input :=
  [ (utf8 "centre-appel.pdf", example_sheet); (utf8 "fiche_atelier.pdf", unnamed_sheet) ].

(** ** Further properties *)

(** A group that is a non-empty run of digits. *)
Definition digits_group (s : list N) : Prop := all_digits s /\ s <> [].

(** Every maximal run of white space replaced by [repl]; [in_run]
    tells that the character before was white space. *)
Fixpoint squeeze (repl : list N) (in_run : bool) (s : list N) : list N :=
  match s with
  | [] => []
  | c :: s' =>
    if is_space c
    then (if in_run then [] else repl) ++ squeeze repl true s'
    else c :: squeeze repl false s'
  end.

(** The last character of a non-empty text is not white space. *)
Definition ends_in_word (s : list N) : Prop :=
  forall c, last_char s = Some c -> is_space c = false.

(** The first character of a non-empty text is not white space. *)
Definition starts_in_word (s : list N) : Prop :=
  forall c s', s = c :: s' -> is_space c = false.

(** What a run of white space becomes once squeezed: one space, or
    nothing for an empty run. *)
Definition pad (sp : list N) : list N :=
  match sp with
  | [] => []
  | _ => [32]
  end.

(** A value fit for a cell: not empty, with no white space but plain
    spaces, and none at its ends. *)
Definition clean_value (z : list N) : Prop :=
  z <> [] /\ plain_spaces z /\ starts_in_word z /\ ends_in_word z.

(* ===================================================================== *)
(** * Properties of the matcher                                           *)
(* ===================================================================== *)

Lemma orelse_Some {A} (a b : option A) (x : A) :
  orelse a b = Some x -> a = Some x \/ (a = None /\ b = Some x).
Proof. destruct a; simpl; intros H; [left | right]; auto. Qed.

Section Soundness.

Variable fl : flags.

Lemma rep_loop_sound (body : cursor -> caps -> kont -> mres)
    (step : cursor -> caps -> cursor -> caps -> Prop) greedy lo hi (k : kont) :
  (forall c cs k' res, body c cs k' = Some res ->
                       exists c' cs', step c cs c' cs' /\ k' c' cs' = Some res) ->
  forall fuel n c cs res,
    below hi n ->
    rep_loop body greedy lo hi k fuel n c cs = Some res ->
    exists m c' cs',
      Riter m step c cs c' cs' /\ (lo <= n + m)%nat /\ below hi (n + m)
      /\ k c' cs' = Some res.
Proof.
  intros Hbody fuel.
  induction fuel as [|f IH]; intros n c cs res Hn H; simpl in H.
  - assert (Hstop : (if (lo <=? n)%nat then k c cs else None) = Some res).
    { destruct greedy; simpl in H; auto.
      destruct (if (lo <=? n)%nat then k c cs else None); simpl in H; congruence. }
    destruct (Nat.leb_spec lo n); [|discriminate].
    exists O, c, cs. rewrite Nat.add_0_r. simpl. auto.
  - set (stop := if (lo <=? n)%nat then k c cs else None) in H.
    set (more := if within hi n then _ else None) in H.
    assert (Hcase : stop = Some res \/ more = Some res).
    { destruct greedy; apply orelse_Some in H; tauto. }
    destruct Hcase as [Hstop | Hmore].
    + subst stop. destruct (Nat.leb_spec lo n); [|discriminate].
      exists O, c, cs. rewrite Nat.add_0_r. simpl. auto.
    + subst more. destruct (within hi n) eqn:Hw; [|discriminate].
      apply Hbody in Hmore. destruct Hmore as (c1 & cs1 & Hstep & Hk).
      destruct (cpos c <? cpos c1)%nat; [|discriminate].
      apply IH in Hk.
      * destruct Hk as (m & c' & cs' & Hit & Hlo & Hhi & Hk).
        exists (S m), c', cs'. rewrite Nat.add_succ_r. simpl.
        split; [exists c1, cs1; auto | auto].
      * destruct hi as [h|]; simpl in *; [|exact I].
        apply Nat.ltb_lt in Hw. lia.
Qed.

Lemma rmatch_sound (r : regex) :
  forall c cs (k : kont) res,
    rmatch fl r c cs k = Some res ->
    exists c' cs', Rm fl r c cs c' cs' /\ k c' cs' = Some res.
Proof.
  induction r as [ | | x | | neg items | | | | r1 IH1 r2 IH2 | r1 IH1 r2 IH2
                 | greedy lo hi r1 IH1 | i r1 IH1 | r1 IH1 ];
    intros c cs k res H; cbn [rmatch] in H.
  - exists c, cs. simpl. auto.
  - discriminate.
  - destruct (crest c) as [|y rest] eqn:E; [discriminate|].
    destruct (char_matches fl x y) eqn:Hm; [|discriminate].
    exists (advance c y rest), cs. split; [|exact H].
    simpl. exists y, rest. auto.
  - destruct (crest c) as [|y rest] eqn:E; [discriminate|].
    destruct (dotall fl || negb (y =? 10)); [|discriminate].
    exists (advance c y rest), cs. split; [|exact H].
    simpl. exists y, rest. auto.
  - destruct (crest c) as [|y rest] eqn:E; [discriminate|].
    destruct (set_matches fl neg items y) eqn:Hm; [|discriminate].
    exists (advance c y rest), cs. split; [|exact H].
    simpl. exists y, rest. auto.
  - destruct (cpos c =? 0)%nat; [|discriminate]. exists c, cs. simpl. auto.
  - destruct (at_end c); [|discriminate]. exists c, cs. simpl. auto.
  - destruct (at_word_boundary c); [|discriminate]. exists c, cs. simpl. auto.
  - apply IH1 in H. destruct H as (c1 & cs1 & H1 & H).
    apply IH2 in H. destruct H as (c' & cs' & H2 & H).
    exists c', cs'. split; [|exact H]. simpl. exists c1, cs1. auto.
  - apply orelse_Some in H. destruct H as [H | [_ H]].
    + apply IH1 in H. destruct H as (c' & cs' & H1 & H).
      exists c', cs'. simpl. auto.
    + apply IH2 in H. destruct H as (c' & cs' & H1 & H).
      exists c', cs'. simpl. auto.
  - apply (rep_loop_sound _ (Rm fl r1)) in H; [|exact IH1|].
    + destruct H as (m & c' & cs' & Hit & Hlo & Hhi & H).
      exists c', cs'. split; [|exact H]. simpl. exists m. auto.
    + destruct hi; simpl; [lia | exact I].
  - apply IH1 in H. destruct H as (c' & cs0 & H1 & H).
    exists c', ((i, (cpos c, cpos c')) :: cs0). split; [|exact H].
    simpl. exists cs0. auto.
  - destruct (rmatch fl r1 c cs (fun c' cs' => Some (c', cs'))) as [[c2 cs2]|] eqn:E;
      [|discriminate].
    apply IH1 in E. destruct E as (c2' & cs2' & H1 & E). inversion E; subst.
    exists c, cs2. split; [|exact H]. simpl. split; [reflexivity|]. exists c2. exact H1.
Qed.


Lemma skipn_cons_inv (p : nat) (t : list N) y rest :
  skipn p t = y :: rest -> skipn (S p) t = rest /\ (p < List.length t)%nat.
Proof.
  revert t. induction p as [|p IH]; intros [|x t] H; simpl in *; try discriminate.
  - inversion H; subst. split; [destruct rest; reflexivity | lia].
  - apply IH in H. destruct H as [H1 H2]. split; [exact H1 | lia].
Qed.

Lemma advance_in_text t c y rest :
  in_text t c -> crest c = y :: rest -> in_text t (advance c y rest).
Proof.
  intros [H1 H2] E. rewrite E in H1. symmetry in H1.
  apply skipn_cons_inv in H1. destruct H1 as [H1 H3].
  split; simpl; [symmetry; exact H1 | lia].
Qed.

Lemma Riter_in_text t (step : cursor -> caps -> cursor -> caps -> Prop) :
  (forall c cs c' cs', step c cs c' cs' -> in_text t c ->
                       in_text t c' /\ (cpos c <= cpos c')%nat) ->
  forall n c cs c' cs', Riter n step c cs c' cs' -> in_text t c ->
                        in_text t c' /\ (cpos c <= cpos c')%nat.
Proof.
  intros Hstep n. induction n as [|n IH]; intros c cs c' cs' H Hc; simpl in H.
  - destruct H; subst. auto.
  - destruct H as (c1 & cs1 & H1 & H2).
    apply Hstep in H1; [|exact Hc]. destruct H1 as [Hc1 Hle].
    apply IH in H2; [|exact Hc1]. destruct H2. split; [assumption | lia].
Qed.

Lemma Rm_in_text t (r : regex) :
  forall c cs c' cs', Rm fl r c cs c' cs' -> in_text t c ->
                      in_text t c' /\ (cpos c <= cpos c')%nat.
Proof.
  induction r as [ | | x | | neg items | | | | r1 IH1 r2 IH2 | r1 IH1 r2 IH2
                 | greedy lo hi r1 IH1 | i r1 IH1 | r1 IH1 ];
    intros c cs c' cs' H Hc; cbn [Rm] in H.
  - destruct H; subst; auto.
  - contradiction.
  - destruct H as (y & rest & E & _ & -> & _).
    split; [eapply advance_in_text; eauto | simpl; lia].
  - destruct H as (y & rest & E & -> & _).
    split; [eapply advance_in_text; eauto | simpl; lia].
  - destruct H as (y & rest & E & _ & -> & _).
    split; [eapply advance_in_text; eauto | simpl; lia].
  - destruct H; subst; auto.
  - destruct H; subst; auto.
  - destruct H; subst; auto.
  - destruct H as (c1 & cs1 & H1 & H2).
    apply IH1 in H1; [|exact Hc]. destruct H1 as [Hc1 Hle].
    apply IH2 in H2; [|exact Hc1]. destruct H2. split; [assumption | lia].
  - destruct H as [H | H]; eauto.
  - destruct H as (n & _ & _ & H). eapply Riter_in_text; eauto.
  - destruct H as (cs0 & H & _). eauto.
  - destruct H as [-> _]. auto.
Qed.

Lemma Riter_caps t P (step : cursor -> caps -> cursor -> caps -> Prop) :
  (forall c cs c' cs', step c cs c' cs' -> in_text t c ->
                       in_text t c' /\ (cpos c <= cpos c')%nat) ->
  (forall c cs c' cs', step c cs c' cs' -> in_text t c -> caps_ok P t cs -> caps_ok P t cs') ->
  forall n c cs c' cs', Riter n step c cs c' cs' -> in_text t c ->
                        caps_ok P t cs -> caps_ok P t cs'.
Proof.
  intros Htext Hstep n. induction n as [|n IH]; intros c cs c' cs' H Hc Hcs; simpl in H.
  - destruct H; subst. auto.
  - destruct H as (c1 & cs1 & H1 & H2).
    eapply IH; [exact H2 | eapply Htext; eauto | eapply Hstep; eauto].
Qed.

Lemma Rm_caps t P (r : regex) :
  groups_ok fl P r ->
  forall c cs c' cs', Rm fl r c cs c' cs' -> in_text t c ->
                      caps_ok P t cs -> caps_ok P t cs'.
Proof.
  induction r as [ | | x | | neg items | | | | r1 IH1 r2 IH2 | r1 IH1 r2 IH2
                 | greedy lo hi r1 IH1 | i r1 IH1 | r1 IH1 ];
    intros Hg c cs c' cs' H Hc Hcs; cbn [Rm] in H; cbn [groups_ok] in Hg.
  - destruct H; subst; auto.
  - contradiction.
  - destruct H as (y & rest & _ & _ & _ & ->). auto.
  - destruct H as (y & rest & _ & _ & ->). auto.
  - destruct H as (y & rest & _ & _ & _ & ->). auto.
  - destruct H; subst; auto.
  - destruct H; subst; auto.
  - destruct H; subst; auto.
  - destruct Hg as [Hg1 Hg2]. destruct H as (c1 & cs1 & H1 & H2).
    eapply IH2; [exact Hg2 | exact H2 | eapply Rm_in_text; eauto | eapply IH1; eauto].
  - destruct Hg as [Hg1 Hg2]. destruct H as [H | H]; eauto.
  - destruct H as (n & _ & _ & H).
    eapply Riter_caps; [apply Rm_in_text | apply IH1; exact Hg | exact H | exact Hc | exact Hcs].
  - destruct Hg as [Hg1 Hg2]. destruct H as (cs0 & H & ->).
    intros j a b [Hin | Hin].
    + inversion Hin; subst. eapply Hg1; eauto.
    + eapply IH1; eauto.
  - destruct H as [-> (c2 & H)]. eauto.
Qed.

Lemma search_from_sound (r : regex) (t : list N) :
  forall rest pos prev m,
    search_from fl r t pos prev rest = Some m ->
    in_text t {| cpos := pos; cprev := prev; crest := rest |} ->
    exists c0 c',
      in_text t c0 /\ (pos <= cpos c0)%nat /\ Rm fl r c0 [] c' (m_caps m)
      /\ m_text m = t /\ m_start m = cpos c0 /\ m_end m = cpos c'.
Proof.
  induction rest as [|y rest IH]; intros pos prev m H Hc; simpl in H.
  - destruct (rmatch fl r _ [] _) as [[c' cs]|] eqn:E; [|discriminate].
    apply rmatch_sound in E. destruct E as (c2 & cs2 & HR & E).
    inversion E; subst. inversion H; subst. simpl.
    exists {| cpos := pos; cprev := prev; crest := [] |}, c'.
    split; [exact Hc|]. split; [simpl; lia|]. split; [exact HR|]. auto.
  - destruct (rmatch fl r _ [] _) as [[c' cs]|] eqn:E.
    + apply rmatch_sound in E. destruct E as (c2 & cs2 & HR & E).
      inversion E; subst. inversion H; subst. simpl.
      exists {| cpos := pos; cprev := prev; crest := y :: rest |}, c'.
      split; [exact Hc|]. split; [simpl; lia|]. split; [exact HR|]. auto.
    + apply IH in H.
      * destruct H as (c0 & c' & H0 & Hle & H). exists c0, c'.
        split; [exact H0|]. split; [lia | exact H].
      * change {| cpos := S pos; cprev := Some y; crest := rest |}
          with (advance {| cpos := pos; cprev := prev; crest := y :: rest |} y rest).
        eapply advance_in_text; [exact Hc | reflexivity].
Qed.

Lemma in_text_start (t : list N) : in_text t {| cpos := O; cprev := None; crest := t |}.
Proof. split; simpl; [reflexivity | lia]. Qed.

(** What a match of [re.search] is: a start in the text, an end
    reached by the pattern, the captures gathered on the way. *)
Lemma re_search_sound (r : regex) (t : list N) m :
  re_search r fl t = Some m ->
  exists c0 c',
    in_text t c0 /\ in_text t c' /\ (cpos c0 <= cpos c')%nat
    /\ Rm fl r c0 [] c' (m_caps m)
    /\ m_text m = t /\ m_start m = cpos c0 /\ m_end m = cpos c'.
Proof.
  intros H. apply search_from_sound in H; [|apply in_text_start].
  destruct H as (c0 & c' & H0 & _ & HR & H).
  destruct (Rm_in_text t r _ _ _ _ HR H0) as [H1 H2].
  exists c0, c'. auto.
Qed.

Lemma assoc_nat_In {A} (k : nat) (l : list (nat * A)) v :
  assoc_nat k l = Some v -> In (k, v) l.
Proof.
  induction l as [|[k' v'] l IH]; simpl; [discriminate|].
  destruct (Nat.eqb_spec k k'); intros H.
  - inversion H; subst. left; reflexivity.
  - right; auto.
Qed.

(** The groups of a match have the property their sub-patterns
    guarantee. *)
Lemma re_search_groups (P : list N -> Prop) (r : regex) (t : list N) m i s :
  groups_ok fl P r ->
  re_search r fl t = Some m ->
  group m i = Some s -> P s.
Proof.
  intros Hg H Hgrp. apply re_search_sound in H.
  destruct H as (c0 & c' & H0 & _ & _ & HR & Ht & _).
  unfold group in Hgrp.
  destruct (assoc_nat i (m_caps m)) as [[a b]|] eqn:E; [|discriminate].
  rewrite <- Ht in H0. inversion Hgrp as [Hs]. clear Hgrp Hs s Ht t.
  apply assoc_nat_In in E.
  eapply (Rm_caps (m_text m) P r Hg); [exact HR | exact H0 | | exact E].
  intros j a' b' [].
Qed.

End Soundness.

(* --------------------------------------------------------------------- *)
(** ** Character facts                                                    *)
(* --------------------------------------------------------------------- *)

(** Case analysis on the comparisons of code points in the goal, one
    at a time, dropping the impossible cases as they appear. *)
Ltac split_test :=
  match goal with
  | |- context [N.leb ?a ?b] => destruct (N.leb_spec a b)
  | |- context [N.eqb ?a ?b] => destruct (N.eqb_spec a b)
  | |- context [N.ltb ?a ?b] => destruct (N.ltb_spec a b)
  end;
  cbn [andb orb negb xorb]; try (exfalso; lia).

Ltac char_facts :=
  unfold fold_case, lower, upper, is_word, is_alnum, is_space, is_digit, is_Mn, in_range;
  repeat split_test;
  intros; subst; try discriminate; try reflexivity; try lia.

(** Lowering the case only ever produces letters: a character whose
    lower case is below the lower-case a is unchanged. *)
Lemma lower_small (y : N) : lower y < 97 -> lower y = y.
Proof. char_facts. Qed.

Lemma fold_case_small (y : N) : fold_case y < 97 -> fold_case y = y.
Proof.
  unfold fold_case.
  destruct (N.eqb_spec (lower y) 383); [lia|].
  destruct (N.eqb_spec (lower y) 305); [lia|].
  apply lower_small.
Qed.

Lemma fold_case_below_A (x : N) : x < 65 -> fold_case x = x.
Proof.
  intros Hx. assert (Hl : lower x = x) by (revert Hx; char_facts).
  unfold fold_case. rewrite Hl.
  destruct (N.eqb_spec x 383); [lia|]. destruct (N.eqb_spec x 305); [lia|]. reflexivity.
Qed.

Lemma char_matches_small fl (x y : N) :
  x < 65 -> char_matches fl x y = true -> y = x.
Proof.
  intros Hx H. unfold char_matches in H. destruct (ignorecase fl).
  - apply N.eqb_eq in H.
    assert (Hfx : fold_case x = x) by (apply fold_case_below_A; exact Hx).
    rewrite Hfx in H.
    assert (Hfy : fold_case y = y) by (apply fold_case_small; rewrite <- H; lia).
    congruence.
  - apply N.eqb_eq in H. auto.
Qed.

Lemma set_digit fl (y : N) : set_matches fl false [CDigit] y = true -> is_digit y = true.
Proof. unfold set_matches; simpl. rewrite orb_false_r. auto. Qed.

Lemma set_point_or_comma fl (y : N) :
  set_matches fl false [CChar 46; CChar 44] y = true -> point_or_comma y = true.
Proof.
  unfold set_matches, point_or_comma; simpl. rewrite orb_false_r.
  intros H. apply orb_true_iff in H. destruct H as [H | H];
    apply char_matches_small in H; try lia; subst; reflexivity.
Qed.

Lemma set_space_point_or_comma fl (y : N) :
  set_matches fl false [CSpace; CChar 46; CChar 44] y = true ->
  space_point_or_comma y = true.
Proof.
  unfold set_matches, space_point_or_comma, point_or_comma; simpl. rewrite orb_false_r.
  intros H. apply orb_true_iff in H. destruct H as [H | H]; [rewrite H; reflexivity|].
  apply orb_true_iff in H. destruct H as [H | H];
    apply char_matches_small in H; try lia; subst; apply orb_true_r.
Qed.

(* --------------------------------------------------------------------- *)
(** ** The string a pattern consumed                                      *)
(* --------------------------------------------------------------------- *)

Lemma substr_same (a : nat) (t : list N) : substr a a t = [].
Proof. unfold substr. rewrite Nat.sub_diag. reflexivity. Qed.

Lemma substr_split (a b c : nat) (t : list N) :
  (a <= b)%nat -> (b <= c)%nat ->
  substr a c t = substr a b t ++ substr b c t.
Proof.
  intros Hab Hbc. unfold substr.
  replace (c - a)%nat with ((b - a) + (c - b))%nat by lia.
  rewrite <- take_take_drop. f_equal. rewrite drop_drop.
  replace (a + (b - a))%nat with b by lia. reflexivity.
Qed.

Lemma substr_one (t : list N) c y rest :
  in_text t c -> crest c = y :: rest -> substr (cpos c) (S (cpos c)) t = [y].
Proof.
  intros [H _] E. unfold substr. rewrite <- H, E.
  replace (S (cpos c) - cpos c)%nat with 1%nat by lia. reflexivity.
Qed.

Section Consumed.

Variable fl : flags.

(** A run of characters of one class. *)
Lemma Riter_class (t : list N) neg items :
  forall n c cs c' cs',
    Riter n (Rm fl (RSet neg items)) c cs c' cs' -> in_text t c ->
    Forall (fun y => set_matches fl neg items y = true) (substr (cpos c) (cpos c') t)
    /\ cpos c' = (cpos c + n)%nat /\ cs' = cs /\ in_text t c'.
Proof.
  induction n as [|n IH]; intros c cs c' cs' H Hc; simpl in H.
  - destruct H; subst. rewrite substr_same, Nat.add_0_r. auto.
  - destruct H as (c1 & cs1 & (y & rest & E & Hm & -> & ->) & H).
    pose proof (advance_in_text t c y rest Hc E) as Hc1.
    apply IH in H; [|exact Hc1]. destruct H as (Hall & Hpos & -> & Hc').
    simpl in Hpos, Hall.
    split; [|split; [lia | auto]].
    rewrite (substr_split (cpos c) (S (cpos c)) (cpos c')) by lia.
    rewrite (substr_one t c y rest Hc E). constructor; assumption.
Qed.

Lemma digits_run (t : list N) lo hi g c cs c' cs' :
  Rm fl (RRep g lo hi (RSet false [CDigit])) c cs c' cs' -> in_text t c ->
  all_digits (substr (cpos c) (cpos c') t)
  /\ (lo <= List.length (substr (cpos c) (cpos c') t))%nat
  /\ (cpos c <= cpos c')%nat /\ cs' = cs /\ in_text t c'.
Proof.
  intros (n & Hlo & _ & H) Hc.
  apply (Riter_class t) in H; [|exact Hc]. destruct H as (Hall & Hpos & -> & Hc').
  split; [|split; [|split; [lia | auto]]].
  - eapply Forall_impl; [exact Hall|]. intros y Hy. eapply set_digit; exact Hy.
  - unfold substr. rewrite length_take, length_drop.
    destruct Hc' as [_ Hlen]. lia.
Qed.

Lemma Rm_seq_inv r1 r2 c cs c' cs' :
  Rm fl (RSeq r1 r2) c cs c' cs' ->
  exists c1 cs1, Rm fl r1 c cs c1 cs1 /\ Rm fl r2 c1 cs1 c' cs'.
Proof. intros H. exact H. Qed.

Lemma Rm_set_inv neg items c cs c' cs' :
  Rm fl (RSet neg items) c cs c' cs' ->
  exists y rest, crest c = y :: rest /\ set_matches fl neg items y = true
                 /\ c' = advance c y rest /\ cs' = cs.
Proof. intros H. exact H. Qed.

Lemma Rm_rep_inv g lo hi r1 c cs c' cs' :
  Rm fl (RRep g lo hi r1) c cs c' cs' ->
  exists n, (lo <= n)%nat /\ below hi n /\ Riter n (Rm fl r1) c cs c' cs'.
Proof. intros H. exact H. Qed.

(** A number pattern consumes a numeral. *)
Lemma number_consumed (sepitems : list cset_item) (sep : N -> bool) (t : list N) c cs c' cs' :
  (forall y, set_matches fl false sepitems y = true -> sep y = true) ->
  Rm fl (RSeq (RRep true 1 None (RSet false [CDigit]))
              (RRep true 0 (Some 1%nat)
                    (RSeq (RSet false sepitems) (RRep true 1 None (RSet false [CDigit])))))
     c cs c' cs' ->
  in_text t c ->
  numeral sep (substr (cpos c) (cpos c') t).
Proof.
  intros Hsep H Hc.
  apply Rm_seq_inv in H. destruct H as (c1 & cs1 & H1 & H2).
  apply Rm_rep_inv in H2. destruct H2 as (m & _ & Hm & H2).
  apply (digits_run t) in H1; [|exact Hc].
  destruct H1 as (Hd1 & Hl1 & Hle1 & -> & Hc1).
  exists (substr (cpos c) (cpos c1) t).
  destruct m as [|[|m]]; cbn [below] in Hm; [| |lia]; cbn [Riter] in H2.
  - destruct H2; subst. exists []. rewrite app_nil_r.
    split; [reflexivity|]. split; [|split; [exact Hd1 | left; reflexivity]].
    intros E. rewrite E in Hl1. simpl in Hl1. lia.
  - destruct H2 as (c2 & cs2 & H2 & -> & ->).
    apply Rm_seq_inv in H2. destruct H2 as (c3 & cs3 & H2 & H3).
    apply Rm_set_inv in H2. destruct H2 as (y & rest & E & Hy & -> & ->).
    pose proof (advance_in_text t c1 y rest Hc1 E) as Hc3.
    apply (digits_run t) in H3; [|exact Hc3].
    destruct H3 as (Hd2 & Hl2 & Hle2 & _ & Hc2). simpl in Hd2, Hl2, Hle2.
    exists (y :: substr (S (cpos c1)) (cpos c2) t).
    split.
    + rewrite (substr_split (cpos c) (cpos c1) (cpos c2)) by lia. f_equal.
      rewrite (substr_split (cpos c1) (S (cpos c1)) (cpos c2)) by lia.
      rewrite (substr_one t c1 y rest Hc1 E). reflexivity.
    + split; [|split; [exact Hd1|]].
      * intros E'. rewrite E' in Hl1. simpl in Hl1. lia.
      * right. exists y, (substr (S (cpos c1)) (cpos c2) t).
        split; [reflexivity|]. split; [apply Hsep; exact Hy|]. split; [|exact Hd2].
        intros E'. rewrite E' in Hl2. simpl in Hl2. lia.
Qed.

Lemma RE_NUMBER_numeral (t : list N) c cs c' cs' :
  in_text t c -> Rm fl RE_NUMBER c cs c' cs' ->
  numeral point_or_comma (substr (cpos c) (cpos c') t).
Proof.
  intros Hc H. eapply number_consumed; [|exact H|exact Hc].
  apply set_point_or_comma.
Qed.

Lemma RE_NUMBER_BLANK_numeral (t : list N) c cs c' cs' :
  in_text t c -> Rm fl RE_NUMBER_BLANK c cs c' cs' ->
  numeral space_point_or_comma (substr (cpos c) (cpos c') t).
Proof.
  intros Hc H. eapply number_consumed; [|exact H|exact Hc].
  apply set_space_point_or_comma.
Qed.

End Consumed.

(* --------------------------------------------------------------------- *)
(** ** Groups that every match sets                                       *)
(* --------------------------------------------------------------------- *)

Section Groups.

Variable fl : flags.

Lemma Riter_has_cap_mono i (step : cursor -> caps -> cursor -> caps -> Prop) :
  (forall c cs c' cs', step c cs c' cs' -> has_cap i cs -> has_cap i cs') ->
  forall n c cs c' cs', Riter n step c cs c' cs' -> has_cap i cs -> has_cap i cs'.
Proof.
  intros Hstep n. induction n as [|n IH]; intros c cs c' cs' H Hcs; simpl in H.
  - destruct H; subst. exact Hcs.
  - destruct H as (c1 & cs1 & H1 & H2). eauto.
Qed.

Lemma Rm_has_cap_mono i (r : regex) :
  forall c cs c' cs', Rm fl r c cs c' cs' -> has_cap i cs -> has_cap i cs'.
Proof.
  induction r as [ | | x | | neg items | | | | r1 IH1 r2 IH2 | r1 IH1 r2 IH2
                 | greedy lo hi r1 IH1 | j r1 IH1 | r1 IH1 ];
    intros c cs c' cs' H Hcs; cbn [Rm] in H.
  - destruct H; subst; auto.
  - contradiction.
  - destruct H as (y & rest & _ & _ & _ & ->). auto.
  - destruct H as (y & rest & _ & _ & ->). auto.
  - destruct H as (y & rest & _ & _ & _ & ->). auto.
  - destruct H; subst; auto.
  - destruct H; subst; auto.
  - destruct H; subst; auto.
  - destruct H as (c1 & cs1 & H1 & H2). eauto.
  - destruct H as [H | H]; eauto.
  - destruct H as (n & _ & _ & H). eapply Riter_has_cap_mono; eauto.
  - destruct H as (cs0 & H & ->). unfold has_cap. simpl.
    destruct (i =? j)%nat; [discriminate|]. eapply IH1; eauto.
  - destruct H as [-> (c2 & H)]. eauto.
Qed.

Lemma Rm_sets_group i (r : regex) :
  sets_group i r = true ->
  forall c cs c' cs', Rm fl r c cs c' cs' -> has_cap i cs'.
Proof.
  induction r as [ | | x | | neg items | | | | r1 IH1 r2 IH2 | r1 IH1 r2 IH2
                 | greedy lo hi r1 IH1 | j r1 IH1 | r1 IH1 ];
    intros Hs c cs c' cs' H; cbn [Rm] in H; cbn [sets_group] in Hs; try discriminate.
  - destruct H as (c1 & cs1 & H1 & H2).
    apply orb_true_iff in Hs. destruct Hs as [Hs | Hs].
    + eapply Rm_has_cap_mono; [exact H2|]. eapply IH1; eauto.
    + eapply IH2; eauto.
  - apply andb_true_iff in Hs. destruct Hs as [Hs1 Hs2]. destruct H as [H | H]; eauto.
  - apply andb_true_iff in Hs. destruct Hs as [Hlo Hs].
    apply Nat.leb_le in Hlo. destruct H as (n & Hn & _ & H).
    destruct n as [|n]; [lia|]. cbn [Riter] in H.
    destruct H as (c1 & cs1 & H1 & H2).
    eapply Riter_has_cap_mono; [intros; eapply Rm_has_cap_mono; eauto | exact H2 |].
    eapply IH1; eauto.
  - destruct H as (cs0 & H & ->). unfold has_cap. simpl.
    destruct (i =? j)%nat eqn:E; [discriminate|]. simpl in Hs. eapply IH1; eauto.
  - destruct H as [-> (c2 & H)]. eauto.
Qed.

(** A group that every match sets is there, with the property its
    sub-pattern guarantees. *)
Lemma re_search_group (P : list N -> Prop) (r : regex) (t : list N) m i :
  sets_group i r = true -> groups_ok fl P r ->
  re_search r fl t = Some m ->
  exists s, group m i = Some s /\ P s.
Proof.
  intros Hs Hg H. pose proof H as H'. apply re_search_sound in H'.
  destruct H' as (c0 & c' & _ & _ & _ & HR & _).
  apply (Rm_sets_group i r Hs) in HR. unfold has_cap in HR.
  destruct (group m i) as [s|] eqn:E.
  - exists s. split; [reflexivity|]. eapply re_search_groups; eauto.
  - unfold group in E. destruct (assoc_nat i (m_caps m)) as [[a b]|]; congruence.
Qed.

End Groups.

(** The groups of the amount, rate and period patterns are numerals. *)
Ltac number_groups :=
  cbn [groups_ok]; repeat split; intros;
  first [ eapply RE_NUMBER_numeral; eassumption
        | eapply RE_NUMBER_BLANK_numeral; eassumption ].

Lemma RE_KDHS_RANGE_groups fl : groups_ok fl (numeral point_or_comma) Cri.RE_KDHS_RANGE.
Proof. number_groups. Qed.
Lemma RE_KDHS_SINGLE_groups fl : groups_ok fl (numeral point_or_comma) Cri.RE_KDHS_SINGLE.
Proof. number_groups. Qed.
Lemma RE_MDH_RANGE_groups fl : groups_ok fl (numeral point_or_comma) Cri.RE_MDH_RANGE.
Proof. number_groups. Qed.
Lemma RE_MDH_LABELED_groups fl : groups_ok fl (numeral point_or_comma) Cri.RE_MDH_LABELED.
Proof. number_groups. Qed.
Lemma RE_MDH_SINGLE_groups fl : groups_ok fl (numeral point_or_comma) Cri.RE_MDH_SINGLE.
Proof. number_groups. Qed.
Lemma RE_SURF_HA_groups fl : groups_ok fl (numeral point_or_comma) Cri.RE_SURF_HA.
Proof. number_groups. Qed.
Lemma RE_TRI_RANGE_groups fl : groups_ok fl (numeral point_or_comma) Cri.RE_TRI_RANGE.
Proof. number_groups. Qed.
Lemma RE_TRI_SINGLE_groups fl : groups_ok fl (numeral point_or_comma) Cri.RE_TRI_SINGLE.
Proof. number_groups. Qed.
Lemma RE_PBP_groups fl : groups_ok fl (numeral point_or_comma) Cri.RE_PBP.
Proof. number_groups. Qed.
Lemma RE_ROI_YEARS_groups fl : groups_ok fl (numeral point_or_comma) Cri.RE_ROI_YEARS.
Proof. number_groups. Qed.
Lemma RE_SURF_RANGE_groups fl : groups_ok fl (numeral space_point_or_comma) Cri.RE_SURF_RANGE.
Proof. number_groups. Qed.
Lemma RE_SURF_SINGLE_groups fl : groups_ok fl (numeral space_point_or_comma) Cri.RE_SURF_SINGLE.
Proof. number_groups. Qed.

(* ===================================================================== *)
(** * Properties of the text and number helpers                           *)
(* ===================================================================== *)

Lemma replace_fuel_char (a : N) (new : list N) :
  forall s fuel, (List.length s < fuel)%nat ->
    replace_fuel fuel [a] new s = flat_map (fun c => if c =? a then new else [c]) s.
Proof.
  induction s as [|c s IH]; intros [|f] Hf; simpl in *; try lia; try reflexivity.
  rewrite andb_true_r, N.eqb_sym.
  destruct (c =? a); rewrite IH by lia; reflexivity.
Qed.

(** Replacing a one-character string acts character by character. *)
Lemma replace_char (a : N) (new s : list N) :
  replace [a] new s = flat_map (fun c => if c =? a then new else [c]) s.
Proof. unfold replace. apply replace_fuel_char. lia. Qed.

Lemma all_digits_not (a : N) (d : list N) :
  is_digit a = false -> all_digits d -> Forall (fun c => (c =? a) = false) d.
Proof.
  intros Ha Hd. eapply Forall_impl; [exact Hd|]. intros c Hc. simpl in Hc.
  destruct (N.eqb_spec c a); [congruence | reflexivity].
Qed.

Lemma replace_char_absent (a : N) (new d : list N) :
  Forall (fun c => (c =? a) = false) d -> replace [a] new d = d.
Proof.
  intros H. rewrite replace_char. induction H as [|c d Hc _ IH]; simpl; [reflexivity|].
  rewrite Hc, IH. reflexivity.
Qed.

Lemma replace_char_app (a : N) (new s1 s2 : list N) :
  replace [a] new (s1 ++ s2) = replace [a] new s1 ++ replace [a] new s2.
Proof. rewrite !replace_char. apply flat_map_app. Qed.

Lemma digits_value_total (d : list N) :
  all_digits d -> forall acc, exists n, digits_value acc d = Some n.
Proof.
  induction 1 as [|c d Hc _ IH]; intros acc; simpl; [eauto|].
  rewrite Hc. apply IH.
Qed.

Lemma split_on_aux_digits (d : list N) :
  all_digits d -> forall cur, split_on_aux 46 cur d = [rev cur ++ d].
Proof.
  induction 1 as [|c d Hc _ IH]; intros cur; simpl.
  - rewrite app_nil_r. reflexivity.
  - destruct (N.eqb_spec c 46) as [->|_]; [discriminate Hc|].
    rewrite IH. simpl. rewrite <- app_assoc. reflexivity.
Qed.

Lemma split_on_aux_point (d1 d2 : list N) :
  all_digits d1 -> all_digits d2 ->
  forall cur, split_on_aux 46 cur (d1 ++ 46 :: d2) = [rev cur ++ d1; d2].
Proof.
  induction 1 as [|c d Hc _ IH]; intros Hd2 cur; simpl.
  - rewrite app_nil_r. rewrite split_on_aux_digits by exact Hd2. reflexivity.
  - destruct (N.eqb_spec c 46) as [->|_]; [discriminate Hc|].
    rewrite IH by exact Hd2. simpl. rewrite <- app_assoc. reflexivity.
Qed.

(** [float] accepts a run of digits ... *)
Lemma float_of_digits (d : list N) :
  d <> [] -> all_digits d -> exists q, float_of_text d = Some q.
Proof.
  intros Hne Hd. unfold float_of_text, split_on.
  rewrite split_on_aux_digits by exact Hd. simpl.
  destruct d as [|c d]; [congruence|].
  destruct (digits_value_total _ Hd 0%Z) as [n ->]. eauto.
Qed.

(** ... and digits, a point, digits. *)
Lemma float_of_decimal (d1 d2 : list N) :
  d1 <> [] -> all_digits d1 -> all_digits d2 ->
  exists q, float_of_text (d1 ++ 46 :: d2) = Some q.
Proof.
  intros Hne Hd1 Hd2. unfold float_of_text, split_on.
  rewrite split_on_aux_point by assumption. simpl.
  destruct d1 as [|c d1]; [congruence|].
  destruct (digits_value_total _ Hd1 0%Z) as [n ->].
  destruct (digits_value_total _ Hd2 0%Z) as [f ->]. eauto.
Qed.

(** The numbers of the amount patterns always convert. *)
Lemma float_of_numeral (s : list N) :
  numeral point_or_comma s ->
  exists q, float_of_text (replace (utf8 ",") (utf8 ".") s) = Some q.
Proof.
  intros (d1 & rest & -> & Hne & Hd1 & Hrest).
  change (utf8 ",") with [44]. change (utf8 ".") with [46].
  rewrite replace_char_app.
  rewrite (replace_char_absent 44 _ d1) by (apply all_digits_not; [reflexivity | exact Hd1]).
  destruct Hrest as [-> | (c & d2 & -> & Hc & Hne2 & Hd2)].
  - simpl. rewrite app_nil_r. apply float_of_digits; assumption.
  - change (c :: d2) with ([c] ++ d2). rewrite replace_char_app.
    rewrite (replace_char_absent 44 _ d2) by (apply all_digits_not; [reflexivity | exact Hd2]).
    assert (Hsep : replace [44] [46] [c] = [46]).
    { unfold point_or_comma in Hc. rewrite replace_char. simpl.
      destruct (N.eqb_spec c 44); [reflexivity|].
      destruct (N.eqb_spec c 46); [subst; reflexivity | discriminate Hc]. }
    rewrite Hsep. apply float_of_decimal; assumption.
Qed.

(** The numbers of the area patterns convert when the only white space
    of the text is the plain space. *)
Lemma float_of_numeral_blank (s : list N) :
  numeral space_point_or_comma s -> plain_spaces s ->
  exists q,
    float_of_text (replace (utf8 ",") (utf8 ".") (replace (utf8 " ") [] s)) = Some q.
Proof.
  intros (d1 & rest & -> & Hne & Hd1 & Hrest) Hplain.
  change (utf8 ",") with [44]. change (utf8 ".") with [46]. change (utf8 " ") with [32].
  rewrite !replace_char_app.
  rewrite (replace_char_absent 32 _ d1) by (apply all_digits_not; [reflexivity | exact Hd1]).
  rewrite (replace_char_absent 44 _ d1) by (apply all_digits_not; [reflexivity | exact Hd1]).
  destruct Hrest as [-> | (c & d2 & -> & Hc & Hne2 & Hd2)].
  - simpl. rewrite app_nil_r. apply float_of_digits; assumption.
  - change (c :: d2) with ([c] ++ d2). rewrite !replace_char_app.
    rewrite (replace_char_absent 32 _ d2) by (apply all_digits_not; [reflexivity | exact Hd2]).
    rewrite (replace_char_absent 44 _ d2) by (apply all_digits_not; [reflexivity | exact Hd2]).
    assert (Hc' : c = 32 \/ c = 46 \/ c = 44).
    { unfold space_point_or_comma, point_or_comma in Hc.
      apply Forall_app in Hplain. destruct Hplain as [_ Hplain].
      inversion Hplain as [|? ? Hsp _]; subst.
      destruct (is_space c); [left; auto|]. simpl in Hc.
      destruct (N.eqb_spec c 46); [auto|]. destruct (N.eqb_spec c 44); [auto | discriminate]. }
    destruct Hc' as [-> | [-> | ->]]; rewrite !replace_char; simpl.
    + apply float_of_digits.
      * destruct d1; [congruence | discriminate].
      * apply Forall_app; split; assumption.
    + apply float_of_decimal; assumption.
    + apply float_of_decimal; assumption.
Qed.

(* --------------------------------------------------------------------- *)
(** ** Substitution of the characters of a class                          *)
(* --------------------------------------------------------------------- *)

Lemma rep_loop_greedy_total (body : cursor -> caps -> kont -> mres) lo hi (k : kont)
    fuel n c cs :
  (lo <= n)%nat -> k c cs <> None ->
  rep_loop body true lo hi k fuel n c cs <> None.
Proof.
  intros Hlo Hk.
  assert (Hstop : (if (lo <=? n)%nat then k c cs else None) <> None).
  { destruct (Nat.leb_spec lo n); [exact Hk | lia]. }
  destruct fuel; simpl.
  - exact Hstop.
  - destruct (if within hi n then _ else None); simpl; [discriminate | exact Hstop].
Qed.

Lemma Riter_class_pos fl neg items :
  forall n c cs c' cs',
    Riter n (Rm fl (RSet neg items)) c cs c' cs' -> cpos c' = (cpos c + n)%nat.
Proof.
  induction n as [|n IH]; intros c cs c' cs' H; simpl in H.
  - destruct H; subst. lia.
  - destruct H as (c1 & cs1 & (y & rest & _ & _ & -> & _) & H).
    apply IH in H. simpl in H. lia.
Qed.

Section Substitution.

Variable fl : flags.
Variable r : regex.
Variable p : N -> bool.

Hypothesis r_matches_on_class :
  forall c y rest, crest c = y :: rest -> p y = true ->
                   rmatch fl r c [] (fun c' cs' => Some (c', cs')) <> None.
Hypothesis r_consumes :
  forall c cs c' cs', Rm fl r c cs c' cs' -> (cpos c < cpos c')%nat.

Lemma search_from_None (t : list N) :
  forall rest pos prev,
    search_from fl r t pos prev rest = None -> Forall (fun y => p y = false) rest.
Proof using r_matches_on_class.
  induction rest as [|y rest IH]; intros pos prev H; [constructor|].
  simpl in H.
  destruct (rmatch fl r _ [] _) as [[c' cs]|] eqn:E; [discriminate|].
  constructor; [|eapply IH; exact H].
  destruct (p y) eqn:Hp; [|reflexivity].
  exfalso. eapply r_matches_on_class; [| exact Hp | exact E]. reflexivity.
Qed.

Lemma search_from_Some (t : list N) :
  forall rest pos prev m,
    search_from fl r t pos prev rest = Some m ->
    in_text t {| cpos := pos; cprev := prev; crest := rest |} ->
    (pos <= m_start m)%nat /\ (m_start m < m_end m)%nat /\ (m_end m <= List.length t)%nat
    /\ Forall (fun y => p y = false) (firstn (m_start m - pos) rest).
Proof using r_matches_on_class r_consumes.
  induction rest as [|y rest IH]; intros pos prev m H Hc.
  - pose proof (search_from_sound fl r t _ _ _ _ H Hc) as (c0 & c' & H0 & Hle & HR & _ & Hs & He).
    pose proof (r_consumes _ _ _ _ HR) as Hlt.
    destruct (Rm_in_text fl t r _ _ _ _ HR H0) as [[_ Hlen] _].
    rewrite Hs, He. split; [lia|]. split; [lia|]. split; [lia|].
    rewrite firstn_nil. constructor.
  - pose proof (search_from_sound fl r t _ _ _ _ H Hc) as (c0 & c' & H0 & Hle & HR & _ & Hs & He).
    pose proof (r_consumes _ _ _ _ HR) as Hlt.
    destruct (Rm_in_text fl t r _ _ _ _ HR H0) as [[_ Hlen] _].
    split; [lia|]. split; [lia|]. split; [lia|].
    simpl in H.
    destruct (rmatch fl r _ [] _) as [[c2 cs2]|] eqn:E.
    + inversion H; subst. simpl. rewrite Nat.sub_diag. constructor.
    + assert (Hy : p y = false).
      { destruct (p y) eqn:Hp; [|reflexivity].
        exfalso. eapply r_matches_on_class; [| exact Hp | exact E]. reflexivity. }
      assert (Hc1 : in_text t {| cpos := S pos; cprev := Some y; crest := rest |}).
      { change {| cpos := S pos; cprev := Some y; crest := rest |}
          with (advance {| cpos := pos; cprev := prev; crest := y :: rest |} y rest).
        eapply advance_in_text; [exact Hc | reflexivity]. }
      destruct (IH _ _ _ H Hc1) as (Hs1 & _ & _ & Hall).
      replace (m_start m - pos)%nat with (S (m_start m - S pos)) by lia.
      simpl. constructor; assumption.
Qed.

Variable Q : N -> Prop.
Variable repl : rematch -> list N.
Hypothesis repl_ok : forall m, Forall Q (repl m).

(** The result of a substitution is made of the characters outside
    the class and of the replacements. *)
Lemma sub_from_chars (t : list N) :
  (forall ch, In ch t -> p ch = false -> Q ch) ->
  forall fuel pos prev rest,
    in_text t {| cpos := pos; cprev := prev; crest := rest |} ->
    (List.length rest < fuel)%nat ->
    Forall Q (sub_from fuel fl r repl t pos prev rest).
Proof using r_matches_on_class r_consumes repl_ok.
  intros HQ. induction fuel as [|f IH]; intros pos prev rest Hc Hf; [lia|].
  assert (Hrest : forall ch, In ch rest -> In ch t).
  { intros ch Hin. destruct Hc as [Hc _]. simpl in Hc. rewrite Hc in Hin.
    apply list_elem_of_In. eapply (subseteq_drop pos t). apply list_elem_of_In. exact Hin. }
  simpl.
  destruct (search_from fl r t pos prev rest) as [m|] eqn:E.
  - destruct (search_from_Some t _ _ _ _ E Hc) as (Hs & Hlt & He & Hbefore).
    destruct (m_end m - m_start m)%nat as [|k] eqn:Ek; [lia|].
    apply Forall_app. split.
    { apply Forall_forall. intros ch Hin.
      rewrite Forall_forall in Hbefore.
      apply HQ; [|apply Hbefore; exact Hin].
      apply Hrest. apply list_elem_of_In.
      eapply (subseteq_take (m_start m - pos) rest). exact Hin. }
    apply Forall_app. split; [apply repl_ok|].
    apply IH.
    + destruct Hc as [Hc Hlen]. simpl in Hc, Hlen. split; simpl; [|exact He].
      rewrite Hc, drop_drop. f_equal. lia.
    + rewrite length_drop. destruct Hc as [Hc Hlen]. simpl in Hc, Hlen.
      assert (List.length rest = (List.length t - pos)%nat).
      { rewrite Hc. apply length_drop. }
      lia.
  - apply Forall_forall. intros ch Hin.
    pose proof (search_from_None t _ _ _ E) as Hall.
    rewrite Forall_forall in Hall. apply list_elem_of_In in Hin.
    apply HQ; [apply Hrest; exact Hin|].
    apply Hall. apply list_elem_of_In. exact Hin.
Qed.

Lemma re_sub_fun_chars (t : list N) :
  (forall ch, In ch t -> p ch = false -> Q ch) ->
  Forall Q (re_sub_fun r repl fl t).
Proof using r_matches_on_class r_consumes repl_ok.
  intros HQ. unfold re_sub_fun. apply sub_from_chars; [exact HQ | apply in_text_start | lia].
Qed.

End Substitution.

(** The two substitutions of the helpers: runs of white space, and the
    characters that are neither word characters, white space nor
    hyphens. *)
Lemma RE_SPACES_matches_space c y rest :
  crest c = y :: rest -> is_space y = true ->
  rmatch NOFLAGS Cri.RE_SPACES c [] (fun c' cs' => Some (c', cs')) <> None.
Proof.
  intros E Hy. unfold Cri.RE_SPACES. cbn [rmatch rep_loop]. rewrite E.
  cbn [within orelse Nat.leb]. unfold set_matches. cbn [existsb item_matches xorb].
  rewrite Hy. cbn [orb advance cpos].
  assert (Hlt : (cpos c <? S (cpos c))%nat = true) by (apply Nat.ltb_lt; lia).
  rewrite Hlt. intros H.
  eapply (rep_loop_greedy_total _ 1 None (fun c' cs' => Some (c', cs'))
            (List.length (y :: rest)) 1); [lia | discriminate |].
  destruct (rep_loop _ true 1%nat None _ _ 1%nat _ []) eqn:E'; [discriminate H | exact E'].
Qed.

Lemma RE_SPACES_consumes c cs c' cs' :
  Rm NOFLAGS Cri.RE_SPACES c cs c' cs' -> (cpos c < cpos c')%nat.
Proof.
  intros (n & Hn & _ & H). apply Riter_class_pos in H. lia.
Qed.

Lemma re_sub_spaces_chars (Q : N -> Prop) (repl t : list N) :
  Forall Q repl ->
  (forall ch, In ch t -> is_space ch = false -> Q ch) ->
  Forall Q (re_sub Cri.RE_SPACES repl NOFLAGS t).
Proof.
  intros Hrepl HQ. unfold re_sub.
  apply (re_sub_fun_chars NOFLAGS Cri.RE_SPACES is_space);
    [apply RE_SPACES_matches_space | apply RE_SPACES_consumes | auto | exact HQ].
Qed.

Lemma RE_NON_WORD_matches c y rest :
  crest c = y :: rest -> outside_reference y = true ->
  rmatch NOFLAGS Cri.RE_NON_WORD c [] (fun c' cs' => Some (c', cs')) <> None.
Proof.
  intros E Hy. unfold Cri.RE_NON_WORD. cbn [rmatch]. rewrite E.
  unfold outside_reference in Hy.
  unfold set_matches. cbn [existsb item_matches char_matches ignorecase NOFLAGS].
  rewrite (N.eqb_sym 45 y), orb_false_r, orb_assoc.
  destruct (is_word y || is_space y || (y =? 45)); [discriminate Hy|].
  simpl. discriminate.
Qed.

Lemma RE_NON_WORD_consumes c cs c' cs' :
  Rm NOFLAGS Cri.RE_NON_WORD c cs c' cs' -> (cpos c < cpos c')%nat.
Proof.
  intros (y & rest & _ & _ & -> & _). simpl. lia.
Qed.

Lemma re_sub_non_word_chars (Q : N -> Prop) (t : list N) :
  (forall ch, In ch t -> outside_reference ch = false -> Q ch) ->
  Forall Q (re_sub Cri.RE_NON_WORD [] NOFLAGS t).
Proof.
  intros HQ. unfold re_sub.
  apply (re_sub_fun_chars NOFLAGS Cri.RE_NON_WORD outside_reference);
    [apply RE_NON_WORD_matches | apply RE_NON_WORD_consumes | constructor | exact HQ].
Qed.

(** After [_norm] and after [clean_text] the only white space left is
    the plain space. *)
Lemma _norm_plain_spaces (text : list N) : plain_spaces (Cri._norm text).
Proof.
  unfold Cri._norm. apply re_sub_spaces_chars.
  - repeat constructor.
  - intros ch _ Hch Hsp. congruence.
Qed.

Lemma plain_spaces_substr (a b : nat) (t : list N) :
  plain_spaces t -> plain_spaces (substr a b t).
Proof.
  unfold plain_spaces, substr. intros H.
  apply Forall_forall. intros ch Hin. rewrite Forall_forall in H. apply H.
  eapply (subseteq_drop a t). eapply (subseteq_take (b - a)). exact Hin.
Qed.

(* --------------------------------------------------------------------- *)
(** ** Arithmetic                                                         *)
(* --------------------------------------------------------------------- *)

Local Open Scope Q_scope.

(** Division by a constant as a product, for linear arithmetic. *)
Ltac inv_consts :=
  unfold Qdiv in *;
  repeat match goal with
         | |- context [Qinv (Qmake ?n ?d)] =>
           let v := eval cbv in (Qinv (Qmake n d)) in
           change (Qinv (Qmake n d)) with v in *
         | H : context [Qinv (Qmake ?n ?d)] |- _ =>
           let v := eval cbv in (Qinv (Qmake n d)) in
           change (Qinv (Qmake n d)) with v in *
         end.

Lemma fadd_eq (a b : Q) : fadd a b == a + b.
Proof. apply Qred_correct. Qed.
Lemma fmul_eq (a b : Q) : fmul a b == a * b.
Proof. apply Qred_correct. Qed.
Lemma fdiv_eq (a b : Q) : fdiv a b == a / b.
Proof. apply Qred_correct. Qed.

Lemma flt_spec (a b : Q) : flt a b = true <-> a < b.
Proof.
  unfold flt. rewrite Qlt_alt. destruct (a ?= b); split; congruence.
Qed.

Lemma fle_spec (a b : Q) : fle a b = true <-> a <= b.
Proof.
  unfold fle. rewrite Qle_alt. destruct (a ?= b); split; congruence.
Qed.

Lemma flt_false (a b : Q) : flt a b = false <-> b <= a.
Proof.
  rewrite <- not_true_iff_false, flt_spec. split; intros H; lra.
Qed.

Lemma fle_false (a b : Q) : fle a b = false <-> b < a.
Proof.
  rewrite <- not_true_iff_false, fle_spec. split; intros H; lra.
Qed.

(** Rounding to the nearest integer moves a number by at most a half
    and is monotone on integers. *)
Lemma round_half_even_near (x : Q) :
  inject_Z (round_half_even x) - x <= 1 # 2 /\ x - inject_Z (round_half_even x) <= 1 # 2.
Proof.
  unfold round_half_even.
  pose proof (Qfloor_le x) as Hlo. pose proof (Qlt_floor x) as Hhi.
  rewrite inject_Z_plus in Hhi. change (inject_Z 1) with 1 in Hhi.
  destruct (x - inject_Z (Qfloor x) ?= 1 # 2) eqn:E.
  - apply Qeq_alt in E. destruct (Z.even (Qfloor x)).
    + lra.
    + rewrite inject_Z_plus. change (inject_Z 1) with 1. lra.
  - apply Qlt_alt in E. lra.
  - apply Qgt_alt in E. rewrite inject_Z_plus. change (inject_Z 1) with 1. lra.
Qed.

Lemma round_half_even_ge (x : Q) (z : Z) :
  inject_Z z <= x -> (z <= round_half_even x)%Z.
Proof.
  intros H. assert (Hf : (z <= Qfloor x)%Z).
  { rewrite <- (Qfloor_Z z). apply Qfloor_resp_le. exact H. }
  unfold round_half_even.
  destruct (x - inject_Z (Qfloor x) ?= 1 # 2); [destruct (Z.even (Qfloor x))| |]; lia.
Qed.

Lemma round2_eq (x : Q) : round2 x == inject_Z (round_half_even (x * 100)) / 100.
Proof. unfold round2. rewrite Qred_correct. apply Qmake_Qdiv. Qed.

(** [round(x, 2)] is within half a hundredth of [x]. *)
Lemma round2_near (x : Q) : round2 x - x <= 1 # 200 /\ x - round2 x <= 1 # 200.
Proof.
  rewrite round2_eq. destruct (round_half_even_near (x * 100)) as [H1 H2].
  set (z := inject_Z (round_half_even (x * 100))) in *. clearbody z.
  inv_consts. split; lra.
Qed.

Lemma round2_ge_1 (x : Q) : 1 <= x -> 1 <= round2 x.
Proof.
  intros H. rewrite round2_eq.
  assert (Hz : (100 <= round_half_even (x * 100))%Z).
  { apply round_half_even_ge. change (inject_Z 100) with 100. lra. }
  assert (Hq : 100 <= inject_Z (round_half_even (x * 100))).
  { change 100 with (inject_Z 100). rewrite <- Zle_Qle. exact Hz. }
  set (z := inject_Z (round_half_even (x * 100))) in *. clearbody z.
  inv_consts. lra.
Qed.

(** Deriving the payback from a rate in (0, 100] and the rate back from
    that payback returns the rate within (r + 1) / 200. *)
Lemma reciprocal_round_trip (r : Q) :
  0 < r -> r <= 100 ->
  Qabs (round2 (fdiv 100 (round2 (fdiv 100 r))) - r) <= (r + 1) / 200.
Proof.
  intros Hr0 Hr100.
  set (p := round2 (fdiv 100 r)).
  assert (Hd : fdiv 100 r * r == 100) by (rewrite fdiv_eq; field; lra).
  assert (Hd1 : 1 <= fdiv 100 r).
  { rewrite fdiv_eq. apply Qle_shift_div_l; lra. }
  destruct (round2_near (fdiv 100 r)) as [Hp1 Hp2]. fold p in Hp1, Hp2.
  pose proof (round2_ge_1 _ Hd1) as Hp. fold p in Hp.
  assert (He : fdiv 100 p * p == 100) by (rewrite fdiv_eq; field; lra).
  destruct (round2_near (fdiv 100 p)) as [Hq1 Hq2].
  set (d := fdiv 100 r) in *. set (e := fdiv 100 p) in *.
  set (q := round2 e) in *.
  assert (Hprod : (e - r) * p == r * (d - p)).
  { transitivity (e * p - r * p); [ring|]. rewrite He, <- Hd. ring. }
  clearbody d e q p. inv_consts.
  assert (F1 : 0 <= r * ((1 # 200) - (d - p))) by (apply Qmult_le_0_compat; lra).
  assert (F2 : 0 <= r * ((1 # 200) - (p - d))) by (apply Qmult_le_0_compat; lra).
  assert (Hup : e - r <= r * (1 # 200)).
  { destruct (Qlt_le_dec (r * (1 # 200)) (e - r)) as [Hc|]; [|assumption].
    exfalso.
    assert (F3 : 0 <= (e - r) * (p - 1)) by (apply Qmult_le_0_compat; lra).
    lra. }
  assert (Hdown : r - e <= r * (1 # 200)).
  { destruct (Qlt_le_dec (r * (1 # 200)) (r - e)) as [Hc|]; [|assumption].
    exfalso.
    assert (F3 : 0 <= (r - e) * (p - 1)) by (apply Qmult_le_0_compat; lra).
    lra. }
  apply Qabs_Qle_condition. split; lra.
Qed.

(* ===================================================================== *)
(** * Amounts                                                             *)
(* ===================================================================== *)

(** The numbers captured by the amount, rate and period patterns
    convert. *)
Lemma number_group_converts (r : regex) (t : list N) m i :
  sets_group i r = true ->
  groups_ok IGNORECASE (numeral point_or_comma) r ->
  re_search r IGNORECASE t = Some m ->
  exists q, Cri.float_group m i = Some q.
Proof.
  intros Hs Hg H.
  destruct (re_search_group IGNORECASE _ r t m i Hs Hg H) as (s & Hgrp & Hnum).
  unfold Cri.float_group. rewrite Hgrp. apply float_of_numeral. exact Hnum.
Qed.

Lemma range_value_converts (r : regex) (t : list N) m unit :
  sets_group 1 r = true -> sets_group 2 r = true ->
  groups_ok IGNORECASE (numeral point_or_comma) r ->
  re_search r IGNORECASE t = Some m ->
  exists a b, Cri.float_group m 1 = Some a /\ Cri.float_group m 2 = Some b
              /\ Cri.range_value m unit = Some (fmul (fdiv (fadd a b) 2) unit).
Proof.
  intros H1 H2 Hg H.
  destruct (number_group_converts r t m 1 H1 Hg H) as [a Ha].
  destruct (number_group_converts r t m 2 H2 Hg H) as [b Hb].
  exists a, b. unfold Cri.range_value. rewrite Ha, Hb. auto.
Qed.

Lemma single_value_converts (r : regex) (t : list N) m unit :
  sets_group 1 r = true ->
  groups_ok IGNORECASE (numeral point_or_comma) r ->
  re_search r IGNORECASE t = Some m ->
  exists a, Cri.float_group m 1 = Some a /\ Cri.single_value m unit = Some (fmul a unit).
Proof.
  intros H1 Hg H.
  destruct (number_group_converts r t m 1 H1 Hg H) as [a Ha].
  exists a. unfold Cri.single_value. rewrite Ha. auto.
Qed.

Lemma mean_eq (a b unit : Q) : fmul (fdiv (fadd a b) 2) unit == (a + b) / 2 * unit.
Proof. rewrite fmul_eq, fdiv_eq, fadd_eq. reflexivity. Qed.

(** When the normalised text matches the million-dirham range
    pattern, the two endpoints convert and the estimated investment is
    their arithmetic mean times 1 000 000, whatever else the text
    holds. *)
Lemma mdh_range_mean (text : list N) (m : rematch) :
  re_search Cri.RE_MDH_RANGE IGNORECASE (Cri._norm text) = Some m ->
  exists a b v,
    Cri.float_group m 1 = Some a /\ Cri.float_group m 2 = Some b
    /\ Cri.nf_estimated_investment_mad (Cri.extract_numeric_fields text) = Some v
    /\ v == (a + b) / 2 * 1000000.
Proof.
  intros H.
  destruct (range_value_converts Cri.RE_MDH_RANGE _ m 1000000 eq_refl eq_refl
              (RE_MDH_RANGE_groups IGNORECASE) H) as (a & b & Ha & Hb & Hv).
  exists a, b, (fmul (fdiv (fadd a b) 2) 1000000).
  split; [exact Ha|]. split; [exact Hb|]. split; [|apply mean_eq].
  unfold Cri.extract_numeric_fields. cbn [Cri.nf_estimated_investment_mad].
  unfold Cri.estimated_investment, Cri.est_after_mdh. rewrite H, Hv. reflexivity.
Qed.

(** C1. The claim holds of the sample sheet, whose amount line reads
    20 - 30 MDH - CA : the record has an estimated investment of
    25 000 000, a minimum investment of 20 000 000 and the range High.
    It fails when a word follows the unit.  The normaliser, which is
    meant to close up the spaced letters of M D H, also deletes the
    white space after MDH when a word character comes next: 20 - 30 MDH
    pour le projet becomes 20 - 30 MDHpour le projet, the range
    pattern, which ends with a word boundary, no longer matches, and
    the record has no amount, no minimum and no range.  When the next
    line starts with the turnover (CA : 5 MDH), the turnover is taken
    as the investment. *)
Theorem C1_mdh_range_lost_before_word :
  (exists r,
      Cri.process_one_pdf (utf8 "centre-appel.pdf") example_sheet 7 = Some r
      /\ Cri.estimated_investment_mad r = Some 25000000
      /\ Cri.min_investment r = Some 20000000
      /\ Cri.investment_range r = Some Cri.High)
  /\ Cri._norm (utf8 "INVESTISSEMENT : 20 - 30 MDH pour le projet")
     = utf8 "INVESTISSEMENT : 20 - 30 MDHpour le projet"
  /\ Cri.nf_estimated_investment_mad
       (Cri.extract_numeric_fields (utf8 "INVESTISSEMENT : 20 - 30 MDH pour le projet"))
     = None
  /\ Cri.nf_estimated_investment_mad
       (Cri.extract_numeric_fields (utf8 "INVESTISSEMENT : 20 - 30 MDH"))
     = Some 25000000
  /\ (exists r,
         Cri.process_one_pdf (utf8 "unite.pdf") worded_sheet 8 = Some r
         /\ Cri.estimated_investment_mad r = None
         /\ Cri.min_investment r = None
         /\ Cri.investment_range r = None)
  /\ Cri.nf_estimated_investment_mad
       (Cri.extract_numeric_fields
          (utf8 "INVESTISSEMENT : 20 - 30 MDH" ++ [10%N] ++ utf8 "CA : 5 MDH"))
     = Some 5000000.
Proof.
  split; [eexists; split; [reflexivity|]; vm_compute; auto|].
  split; [vm_compute; reflexivity|].
  split; [vm_compute; reflexivity|].
  split; [vm_compute; reflexivity|].
  split; [eexists; split; [reflexivity|]; vm_compute; auto|].
  vm_compute. reflexivity.
Qed.

(** The label computed from an amount obeys the bucket rule. *)
Lemma label_rule_holds (amount : option Q) :
  label_rule amount (Cri.investment_range_label amount).
Proof.
  unfold label_rule, Cri.investment_range_label, Cri.INV_LOW_MAX, Cri.INV_MEDIUM_MAX.
  destruct amount as [e|].
  - destruct (flt e 5000000) eqn:E1; [apply flt_spec in E1 | apply flt_false in E1].
    + repeat split; intros H; try discriminate H; eauto;
        destruct H as (e' & He & H); inversion He; subst; lra.
    + destruct (fle e 20000000) eqn:E2; [apply fle_spec in E2 | apply fle_false in E2].
      * repeat split; intros H; try discriminate H; eauto;
          destruct H as (e' & He & H); inversion He; subst; lra.
      * repeat split; intros H; try discriminate H; eauto;
          destruct H as (e' & He & H); inversion He; subst; lra.
  - repeat split; intros H; try discriminate H; try reflexivity;
      destruct H as (e' & He & H); discriminate He.
Qed.

(** C2, as amended. The range label is derived from the amount the
    extractor resolved: Low iff it is below 5 000 000, Medium iff it
    lies between 5 000 000 and 20 000 000 inclusive, High iff it is
    above 20 000 000, absent iff the amount is absent.  In the records
    of the Béni Mellal pipeline that amount is the stored
    estimated_investment_mad; in [extract_projects.py] the record
    stores the amount rounded to two decimals, and the label is that of
    the amount before rounding. *)
Theorem C2_investment_range_label :
  (forall filename l id r,
      Cri.process_one_pdf filename l id = Some r ->
      label_rule (Cri.estimated_investment_mad r) (Cri.investment_range r))
  /\ (forall amount,
         label_rule amount (Cri.investment_range_label amount)
         /\ label_rule amount (ExtractProjects.investment_range_label amount))
  /\ (forall t,
         ExtractProjects.investment_range (ExtractProjects.build_record t)
         = ExtractProjects.investment_range_label
             (ExtractProjects.extract_estimated_investment_mad t)
         /\ ExtractProjects.estimated_investment_mad (ExtractProjects.build_record t)
            = round2 <$> ExtractProjects.extract_estimated_investment_mad t).
Proof.
  split; [|split].
  - intros filename l id r H. unfold Cri.process_one_pdf in H.
    destruct (Cri.full_text l); [discriminate H|].
    apply (inj Some) in H. subst r. cbn [Cri.estimated_investment_mad Cri.investment_range].
    apply label_rule_holds.
  - intros amount. split; apply label_rule_holds.
  - intros t. split; reflexivity.
Qed.

Lemma C2_investment_range_label_witness :
  exists r,
    Cri.process_one_pdf (utf8 "centre-appel.pdf") example_sheet 7 = Some r
    /\ label_rule (Cri.estimated_investment_mad r) (Cri.investment_range r).
Proof.
  eexists. split; [reflexivity|].
  apply (proj1 C2_investment_range_label (utf8 "centre-appel.pdf") example_sheet 7%Z).
  reflexivity.
Defined.

(** C2 as worded fails on a record of [extract_projects.py]: the amount
    4 999 999.999 DH is labelled Low, and the record stores
    5 000 000.00. *)
Lemma C2_rounded_amount_counterexample :
  ~ label_rule
      (ExtractProjects.estimated_investment_mad
         (ExtractProjects.build_record
            (utf8 "Investissement potentiel (hors foncier) : 4999999.999 DH")))
      (ExtractProjects.investment_range
         (ExtractProjects.build_record
            (utf8 "Investissement potentiel (hors foncier) : 4999999.999 DH"))).
Proof.
  intros [[H _] _].
  destruct (H ltac:(vm_compute; reflexivity)) as (e & He & Hlt).
  vm_compute in He. inversion He; subst. vm_compute in Hlt. discriminate Hlt.
Qed.

(* ===================================================================== *)
(** * Rate of return and payback                                          *)
(* ===================================================================== *)

(** Two derivations that are each within a hundredth of the exact
    reciprocal return a rate of (0, 100] within 1/100 + r * r / 9900:
    a few hundredths for a rate of ten, about one for a rate of a
    hundred. *)
Lemma reciprocal_round_trip_near (r w v : Q) :
  1 # 100 <= r -> r <= 100 ->
  Qabs (w - 100 / r) <= 1 # 100 -> Qabs (v - 100 / w) <= 1 # 100 ->
  Qabs (v - r) <= (1 # 100) + r * r / 9900.
Proof.
  intros Hr0 Hr100 Hw Hv.
  assert (Hd : 100 / r * r == 100) by (field; lra).
  assert (Hd1 : 1 <= 100 / r) by (apply Qle_shift_div_l; lra).
  apply Qabs_Qle_condition in Hw. destruct Hw as [Hw1 Hw2].
  assert (Hw0 : 0 < w) by lra.
  assert (He : 100 / w * w == 100) by (field; lra).
  apply Qabs_Qle_condition in Hv. destruct Hv as [Hv1 Hv2].
  set (d := 100 / r) in *. set (e := 100 / w) in *. clearbody d e.
  assert (F1 : 0 <= r * r * (w - d + (1 # 100))).
  { apply Qmult_le_0_compat; [apply Qmult_le_0_compat|]; lra. }
  assert (F2 : 0 <= r * (1 - r * (1 # 100))) by (apply Qmult_le_0_compat; lra).
  assert (F3 : 0 <= r * ((1 # 100) - (d - w))) by (apply Qmult_le_0_compat; lra).
  assert (F3' : 0 <= r * ((1 # 100) - (w - d))) by (apply Qmult_le_0_compat; lra).
  assert (F4 : r * r * d == r * 100) by (rewrite <- Hd; ring).
  inv_consts.
  assert (Hup : e - r <= r * r * (1 # 9900)).
  { destruct (Qlt_le_dec (r * r * (1 # 9900)) (e - r)) as [Hc|]; [|assumption].
    exfalso.
    assert (F0 : 0 < (e - r - r * r * (1 # 9900)) * w) by (apply Qmult_lt_0_compat; lra).
    lra. }
  assert (Hdown : r - e <= r * r * (1 # 9900)).
  { destruct (Qlt_le_dec (r * r * (1 # 9900)) (r - e)) as [Hc|]; [|assumption].
    exfalso.
    assert (F0 : 0 < (r - e - r * r * (1 # 9900)) * w) by (apply Qmult_lt_0_compat; lra).
    lra. }
  apply Qabs_Qle_condition. split; lra.
Qed.

(** [round(x, 2)] of a quotient is within a hundredth of the
    quotient. *)
Lemma round2_fdiv_near (a b : Q) : Qabs (round2 (fdiv a b) - a / b) <= 1 # 100.
Proof.
  destruct (round2_near (fdiv a b)) as [H1 H2].
  rewrite (fdiv_eq a b) in H1 at 2. rewrite (fdiv_eq a b) in H2 at 1.
  apply Qabs_Qle_condition. split; lra.
Qed.

(** Equal values are within a millionth of each other: the form in
    which means, products and quotients are stated, since the code
    computes them in binary64. *)
Lemma near_of_eq (x y : Q) : x == y -> Qabs (x - y) <= 1 # 1000000.
Proof. intros H. apply Qabs_Qle_condition. split; lra. Qed.

Lemma fdiv_near (a b : Q) : Qabs (fdiv a b - a / b) <= 1 # 1000000.
Proof. apply near_of_eq, fdiv_eq. Qed.

(** C3, as amended. For a text written with the characters of the
    tables: in the Béni Mellal extractor, when only the payback is
    read in the text, it is kept, and a rate is derived from a payback
    of at least 0.01: it is 100 / payback within a hundredth (the code
    rounds the binary64 quotient to two decimals), and it is not
    bounded by 100; a payback of zero derives no rate.  When only the
    rate is read, it is kept, and a payback is derived from a rate
    between 0.01 and 100: it is 100 / rate within a hundredth; a rate
    of zero, or of 100.01 and more, derives no payback.  When neither
    is read both stay absent, and values read in the text are kept.
    Deriving the payback from a rate r of (0, 100] and the rate from
    that payback, each within a hundredth, returns r within
    1/100 + r * r / 9900.  In [extract_projects.py] only the rate is
    derived, without rounding: 100 / payback for a payback of at least
    0.01, 100 / 6 for a payback of zero and when nothing was read
    (within a millionth, the quotients being binary64 numbers). *)
Theorem C3_reciprocal_fill :
  (forall text,
      covered text ->
      (forall p,
          Cri.roi_from_text (Cri._norm text) = None ->
          Cri.payback_from_text (Cri._norm text) = Some p ->
          Cri.nf_payback_period_years (Cri.extract_numeric_fields text) = Some p
          /\ (1 # 100 <= p ->
              exists v, Cri.nf_roi_estimated (Cri.extract_numeric_fields text) = Some v
                        /\ Qabs (v - 100 / p) <= 1 # 100)
          /\ (p <= 0 -> Cri.nf_roi_estimated (Cri.extract_numeric_fields text) = None))
      /\ (forall r,
             Cri.roi_from_text (Cri._norm text) = Some r ->
             Cri.payback_from_text (Cri._norm text) = None ->
             Cri.nf_roi_estimated (Cri.extract_numeric_fields text) = Some r
             /\ (1 # 100 <= r -> r <= 100 ->
                 exists w,
                   Cri.nf_payback_period_years (Cri.extract_numeric_fields text) = Some w
                   /\ Qabs (w - 100 / r) <= 1 # 100)
             /\ (r <= 0 \/ 100 + (1 # 100) <= r ->
                 Cri.nf_payback_period_years (Cri.extract_numeric_fields text) = None))
      /\ (Cri.roi_from_text (Cri._norm text) = None ->
          Cri.payback_from_text (Cri._norm text) = None ->
          Cri.nf_roi_estimated (Cri.extract_numeric_fields text) = None
          /\ Cri.nf_payback_period_years (Cri.extract_numeric_fields text) = None)
      /\ (forall r p,
             Cri.roi_from_text (Cri._norm text) = Some r ->
             Cri.payback_from_text (Cri._norm text) = Some p ->
             Cri.nf_roi_estimated (Cri.extract_numeric_fields text) = Some r
             /\ Cri.nf_payback_period_years (Cri.extract_numeric_fields text) = Some p))
  /\ (forall r w v,
         1 # 100 <= r -> r <= 100 ->
         Qabs (w - 100 / r) <= 1 # 100 -> Qabs (v - 100 / w) <= 1 # 100 ->
         Qabs (v - r) <= (1 # 100) + r * r / 9900)
  /\ (forall p, 1 # 100 <= p ->
                Qabs (ExtractProjects.roi_estimated_only (Some p) - 100 / p) <= 1 # 1000000)
  /\ (forall p, p <= 0 ->
                Qabs (ExtractProjects.roi_estimated_only (Some p) - 100 / 6) <= 1 # 1000000)
  /\ Qabs (ExtractProjects.roi_estimated_only None - 100 / 6) <= 1 # 1000000.
Proof.
  split; [|split; [|split; [|split]]].
  - intros text _. unfold Cri.extract_numeric_fields.
    cbn [Cri.nf_roi_estimated Cri.nf_payback_period_years].
    split; [|split; [|split]].
    + intros p -> ->. cbn [Cri.fill_roi].
      split; [|split].
      * destruct (flt 0 p); reflexivity.
      * intros Hp. assert (Hp' : flt 0 p = true) by (apply flt_spec; lra).
        rewrite Hp'. eexists. split; [reflexivity | apply round2_fdiv_near].
      * intros Hp. apply flt_false in Hp. rewrite Hp. reflexivity.
    + intros r -> ->. cbn [Cri.fill_roi Cri.fill_payback].
      split; [reflexivity|]. split.
      * intros H0 H100. assert (H0' : flt 0 r = true) by (apply flt_spec; lra).
        apply fle_spec in H100. rewrite H0', H100.
        eexists. split; [reflexivity | apply round2_fdiv_near].
      * intros [H | H].
        -- apply flt_false in H. rewrite H. reflexivity.
        -- assert (H' : fle r 100 = false) by (apply fle_false; lra).
           rewrite H', andb_false_r. reflexivity.
    + intros -> ->. split; reflexivity.
    + intros r p -> ->. split; reflexivity.
  - apply reciprocal_round_trip_near.
  - intros p Hp. unfold ExtractProjects.roi_estimated_only.
    assert (Hp' : flt 0 p = true) by (apply flt_spec; lra).
    rewrite Hp'. apply fdiv_near.
  - intros p Hp. unfold ExtractProjects.roi_estimated_only.
    apply flt_false in Hp. rewrite Hp. apply fdiv_near.
  - apply fdiv_near.
Qed.

Lemma C3_reciprocal_fill_witness :
  covered (utf8 "PBP : 4 - 5 ans")
  /\ Cri.nf_payback_period_years (Cri.extract_numeric_fields (utf8 "PBP : 4 - 5 ans"))
     = Some (9 # 2)
  /\ exists v,
       Cri.nf_roi_estimated (Cri.extract_numeric_fields (utf8 "PBP : 4 - 5 ans")) = Some v
       /\ Qabs (v - 100 / (9 # 2)) <= 1 # 100.
Proof.
  assert (Hc : covered (utf8 "PBP : 4 - 5 ans")) by (vm_compute; reflexivity).
  split; [exact Hc|].
  destruct (proj1 (proj1 C3_reciprocal_fill (utf8 "PBP : 4 - 5 ans") Hc) (9 # 2))
    as (H1 & H2 & _).
  - vm_compute. reflexivity.
  - vm_compute. reflexivity.
  - split; [exact H1 | apply H2; discriminate].
Defined.

(** C3 as worded fails: a payback of half a year read in the text gives
    the rate 200, above 100. *)
Lemma C3_rate_above_100_counterexample :
  Cri.roi_from_text (Cri._norm (utf8 "PBP : 0.5 ans")) = None
  /\ Cri.payback_from_text (Cri._norm (utf8 "PBP : 0.5 ans")) = Some (1 # 2)
  /\ Cri.nf_roi_estimated (Cri.extract_numeric_fields (utf8 "PBP : 0.5 ans")) = Some 200
  /\ ~ 200 <= 100.
Proof.
  split; [|split; [|split]]; try (vm_compute; reflexivity).
  intros H. vm_compute in H. apply H. reflexivity.
Qed.

(** The thousand- and million-dirham strategies succeed as soon as
    their pattern matches: the captured numbers always convert. *)
Lemma amount_strategies_convert (t : list N) :
  strat_kdhs_range t <> Some None /\ strat_kdhs_single t <> Some None
  /\ strat_mdh_range t <> Some None /\ strat_mdh_single t <> Some None.
Proof.
  unfold strat_kdhs_range, strat_kdhs_single, strat_mdh_range, strat_mdh_single.
  split; [|split; [|split]].
  - destruct (re_search Cri.RE_KDHS_RANGE IGNORECASE t) as [m|] eqn:E; [|discriminate].
    destruct (range_value_converts Cri.RE_KDHS_RANGE t m 1000 eq_refl eq_refl
                (RE_KDHS_RANGE_groups IGNORECASE) E) as (a & b & _ & _ & Hv).
    cbn. rewrite Hv. discriminate.
  - destruct (re_search Cri.RE_KDHS_SINGLE IGNORECASE t) as [m|] eqn:E; [|discriminate].
    destruct (single_value_converts Cri.RE_KDHS_SINGLE t m 1000 eq_refl
                (RE_KDHS_SINGLE_groups IGNORECASE) E) as (a & _ & Hv).
    cbn. rewrite Hv. discriminate.
  - destruct (re_search Cri.RE_MDH_RANGE IGNORECASE t) as [m|] eqn:E; [|discriminate].
    destruct (range_value_converts Cri.RE_MDH_RANGE t m 1000000 eq_refl eq_refl
                (RE_MDH_RANGE_groups IGNORECASE) E) as (a & b & _ & _ & Hv).
    cbn. rewrite Hv. discriminate.
  - unfold Cri.search_first. cbn [fold_right].
    destruct (re_search Cri.RE_MDH_LABELED IGNORECASE t) as [m|] eqn:E.
    + destruct (single_value_converts Cri.RE_MDH_LABELED t m 1000000 eq_refl
                  (RE_MDH_LABELED_groups IGNORECASE) E) as (a & _ & Hv).
      cbn. rewrite Hv. discriminate.
    + cbn [orelse].
      destruct (re_search Cri.RE_MDH_SINGLE IGNORECASE t) as [m|] eqn:E'; [|discriminate].
      destruct (single_value_converts Cri.RE_MDH_SINGLE t m 1000000 eq_refl
                  (RE_MDH_SINGLE_groups IGNORECASE) E') as (a & _ & Hv).
      cbn. rewrite Hv. discriminate.
Qed.

(** The extractor in terms of the strategies. *)
Lemma est_after_kdhs_strategies (t : list N) :
  Cri.est_after_kdhs t = first_success [strat_kdhs_range; strat_kdhs_single] t.
Proof.
  unfold Cri.est_after_kdhs, first_success, strat_kdhs_range, strat_kdhs_single.
  destruct (re_search Cri.RE_KDHS_RANGE IGNORECASE t) as [m|]; cbn.
  - destruct (Cri.range_value m 1000); reflexivity.
  - destruct (re_search Cri.RE_KDHS_SINGLE IGNORECASE t) as [m|]; cbn; [|reflexivity].
    destruct (Cri.single_value m 1000); reflexivity.
Qed.

Lemma estimated_investment_strategies (t : list N) :
  ~ kdhs_and_mdh_range t ->
  Cri.estimated_investment t = first_success code_order t.
Proof.
  intros Hno.
  destruct (amount_strategies_convert t) as (C1 & C2 & C3 & C4).
  unfold Cri.estimated_investment, Cri.est_after_mdh.
  rewrite est_after_kdhs_strategies.
  unfold kdhs_and_mdh_range in Hno.
  unfold code_order. cbn [first_success].
  assert (Hdh : match Cri.search_first [Cri.RE_DH_CA; Cri.RE_DH_LABELED; Cri.RE_DH_STANDALONE]
                        IGNORECASE t with
                | Some m => Cri.float_group_dh m 1
                | None => None
                end
                = first_success [strat_dh_near_ca; strat_dh_labeled; strat_dh_standalone] t).
  { unfold Cri.search_first, first_success, strat_dh_near_ca, strat_dh_labeled,
      strat_dh_standalone. cbn [fold_right].
    destruct (re_search Cri.RE_DH_CA IGNORECASE t); cbn; [reflexivity|].
    destruct (re_search Cri.RE_DH_LABELED IGNORECASE t); cbn; [reflexivity|].
    destruct (re_search Cri.RE_DH_STANDALONE IGNORECASE t); cbn; reflexivity. }
  cbn [first_success] in Hdh. rewrite Hdh. clear Hdh.
  unfold strat_mdh_range, strat_mdh_single in *.
  set (single := Cri.search_first [Cri.RE_MDH_LABELED; Cri.RE_MDH_SINGLE] IGNORECASE t) in *.
  set (range := re_search Cri.RE_MDH_RANGE IGNORECASE t) in *.
  clearbody single range.
  destruct (strat_kdhs_range t) as [[v|]|] eqn:K1; [ | congruence | ].
  - (* thousand-dirham range *)
    destruct range as [m|].
    + exfalso. apply Hno. split; [left; discriminate | cbn; discriminate].
    + cbn. destruct single; reflexivity.
  - destruct (strat_kdhs_single t) as [[v|]|] eqn:K2; [ | congruence | ].
    + (* thousand-dirham single value *)
      destruct range as [m|].
      * exfalso. apply Hno. split; [right; discriminate | cbn; discriminate].
      * cbn. destruct single; reflexivity.
    + (* no thousand-dirham amount *)
      cbn.
      destruct range as [m|]; cbn in *.
      * destruct (Cri.range_value m 1000000); [reflexivity | congruence].
      * destruct single as [m|]; cbn in *; [|reflexivity].
        destruct (Cri.single_value m 1000000); [reflexivity | congruence].
Qed.

(** C4, as amended. The amount is resolved by the first strategy whose
    pattern matches, in this order: thousand-dirham range,
    thousand-dirham single value, million-dirham range, million-dirham
    single value (labelled INVESTISSEMENT, else unlabelled; an
    optional Mn qualifier), a DH amount followed by the CA marker, a
    DH amount after the INVESTISSEMENT label, the first standalone DH
    amount.  The thousand- and million-dirham numbers always convert;
    a DH amount that does not convert leaves the amount absent.  This
    is stated for the texts where a thousand-dirham pattern and the
    million-dirham range pattern do not both match. *)
Theorem C4_amount_priority :
  (forall text,
      ~ kdhs_and_mdh_range (Cri._norm text) ->
      Cri.nf_estimated_investment_mad (Cri.extract_numeric_fields text)
      = first_success code_order (Cri._norm text))
  /\ (forall t,
         strat_kdhs_range t <> Some None /\ strat_kdhs_single t <> Some None
         /\ strat_mdh_range t <> Some None /\ strat_mdh_single t <> Some None).
Proof.
  split.
  - intros text H. unfold Cri.extract_numeric_fields.
    cbn [Cri.nf_estimated_investment_mad]. apply estimated_investment_strategies. exact H.
  - apply amount_strategies_convert.
Qed.

Lemma C4_amount_priority_witness :
  Cri.nf_estimated_investment_mad
    (Cri.extract_numeric_fields (Cri.full_text unnamed_sheet))
  = first_success code_order (Cri._norm (Cri.full_text unnamed_sheet)).
Proof.
  apply (proj1 C4_amount_priority).
  intros [_ H]. apply H. vm_compute. reflexivity.
Defined.

(** C4 as worded fails: with an amount after the INVESTISSEMENT label
    and another one followed by the CA marker, the code takes the one
    next to CA (150 000), the order of the claim the labelled one
    (100 000). *)
Lemma C4_labelled_after_ca_counterexample :
  Cri.nf_estimated_investment_mad
    (Cri.extract_numeric_fields
       (utf8 "INVESTISSEMENT : 100 000 DHS - 150 000 DHS - CA: 200 000 DHS"))
  = Some 150000
  /\ first_success claimed_order
       (Cri._norm (utf8 "INVESTISSEMENT : 100 000 DHS - 150 000 DHS - CA: 200 000 DHS"))
     = Some 100000
  /\ Cri.nf_estimated_investment_mad
       (Cri.extract_numeric_fields
          (utf8 "INVESTISSEMENT : 100 000 DHS - 150 000 DHS - CA: 200 000 DHS"))
     <> first_success claimed_order
          (Cri._norm (utf8 "INVESTISSEMENT : 100 000 DHS - 150 000 DHS - CA: 200 000 DHS")).
Proof.
  split; [vm_compute; reflexivity|]. split; [vm_compute; reflexivity|].
  vm_compute. discriminate.
Qed.

(** Where a thousand-dirham range and a million-dirham range both
    match, the million-dirham value replaces the thousand-dirham one
    (the single-value branch next to it keeps the earlier value). *)
Example mdh_range_replaces_kdhs :
  Cri.nf_estimated_investment_mad
    (Cri.extract_numeric_fields (utf8 "100 - 200 KDHS et 3 - 4 MDH")) = Some 3500000
  /\ first_success claimed_order (Cri._norm (utf8 "100 - 200 KDHS et 3 - 4 MDH"))
     = Some 150000
  /\ Cri.nf_estimated_investment_mad
       (Cri.extract_numeric_fields (utf8 "100 KDHS et 3 MDH")) = Some 100000.
Proof. repeat split; vm_compute; reflexivity. Qed.

(* ===================================================================== *)
(** * Areas                                                               *)
(* ===================================================================== *)

Lemma group_is_substr (r : regex) fl (t : list N) m i s :
  re_search r fl t = Some m -> group m i = Some s ->
  exists a b, s = substr a b t.
Proof.
  intros H Hg. apply re_search_sound in H.
  destruct H as (_ & _ & _ & _ & _ & _ & Ht & _).
  unfold group in Hg. destruct (assoc_nat i (m_caps m)) as [[a b]|]; [|discriminate].
  exists a, b. rewrite <- Ht. congruence.
Qed.

(** The numbers captured by the area patterns convert on a normalised
    text. *)
Lemma area_group_converts (r : regex) (text : list N) m i :
  sets_group i r = true ->
  groups_ok IGNORECASE (numeral space_point_or_comma) r ->
  re_search r IGNORECASE (Cri._norm text) = Some m ->
  exists q, Cri.float_group_nospace m i = Some q.
Proof.
  intros Hs Hg H.
  destruct (re_search_group IGNORECASE _ r _ m i Hs Hg H) as (s & Hgrp & Hnum).
  destruct (group_is_substr _ _ _ _ _ _ H Hgrp) as (a & b & ->).
  unfold Cri.float_group_nospace. rewrite Hgrp.
  apply float_of_numeral_blank; [exact Hnum|].
  apply plain_spaces_substr. apply _norm_plain_spaces.
Qed.

Lemma numeral_nonempty sep (s : list N) : numeral sep s -> s <> [].
Proof.
  intros (d1 & rest & -> & Hne & _) E. apply app_eq_nil in E. tauto.
Qed.

(** C5, as amended. For a text written with the characters of the
    tables: in the Béni Mellal extractor, when the hectare pattern
    matches nowhere in the text, a range after Sup, with the unit m²
    or with none, resolves to the mean of its two endpoints (on the
    sample sheet, which reads Sup : 500 - 700 m², to 600); without a
    range, a single value in m² is taken as it is read; without
    either, a hectare value matched by the hectare pattern is
    multiplied by 10 000, a single one as it is and a range after
    averaging; otherwise the area is absent.  Means and products are
    stated within a millionth, for endpoints up to 10^9 m² or 10^5 ha,
    the code computing them in binary64.  In [extract_projects.py]
    single values in m² and in hectares come first, and a range in m²
    that only the last pattern matches resolves to its first
    endpoint. *)
Theorem C5_area_resolution :
  (forall text,
      covered text ->
      (forall m,
          re_search Cri.RE_SURF_RANGE IGNORECASE (Cri._norm text) = Some m ->
          re_search Cri.RE_SURF_HA IGNORECASE (Cri._norm text) = None ->
          exists s1 s2 v,
            Cri.float_group_nospace m 1 = Some s1 /\ Cri.float_group_nospace m 2 = Some s2
            /\ Cri.nf_required_land_area_m2 (Cri.extract_numeric_fields text) = Some v
            /\ (s1 <= 1000000000 -> s2 <= 1000000000 ->
                Qabs (v - (s1 + s2) / 2) <= 1 # 1000000))
      /\ (re_search Cri.RE_SURF_RANGE IGNORECASE (Cri._norm text) = None ->
          forall m,
            re_search Cri.RE_SURF_SINGLE IGNORECASE (Cri._norm text) = Some m ->
            exists v,
              Cri.float_group_nospace m 1 = Some v
              /\ Cri.nf_required_land_area_m2 (Cri.extract_numeric_fields text) = Some v)
      /\ (re_search Cri.RE_SURF_RANGE IGNORECASE (Cri._norm text) = None ->
          re_search Cri.RE_SURF_SINGLE IGNORECASE (Cri._norm text) = None ->
          (forall m,
              re_search Cri.RE_SURF_HA IGNORECASE (Cri._norm text) = Some m ->
              exists h1 v,
                Cri.float_group m 1 = Some h1
                /\ Cri.nf_required_land_area_m2 (Cri.extract_numeric_fields text) = Some v
                /\ (group m 2 = None -> h1 <= 100000 ->
                    Qabs (v - h1 * 10000) <= 1 # 1000000)
                /\ (group m 2 <> None ->
                    exists h2, Cri.float_group m 2 = Some h2
                               /\ (h1 <= 100000 -> h2 <= 100000 ->
                                   Qabs (v - (h1 + h2) / 2 * 10000) <= 1 # 1000000)))
          /\ (re_search Cri.RE_SURF_HA IGNORECASE (Cri._norm text) = None ->
              Cri.nf_required_land_area_m2 (Cri.extract_numeric_fields text) = None)))
  /\ (forall id, exists r,
         Cri.process_one_pdf (utf8 "centre-appel.pdf") example_sheet id = Some r
         /\ Cri.required_land_area_m2 r = Some 600)
  /\ (forall t m v,
         covered t ->
         ExtractProjects.area_step ExtractProjects.RE_AREA_LABELED_M2
           ExtractProjects.RE_BLANK 1 t = None ->
         ExtractProjects.area_step ExtractProjects.RE_AREA_TERRAIN_M2
           ExtractProjects.RE_BLANK' 1 t = None ->
         ExtractProjects.area_step ExtractProjects.RE_AREA_LABELED_HA
           ExtractProjects.RE_BLANK 10000 t = None ->
         ExtractProjects.area_step ExtractProjects.RE_AREA_TERRAIN_HA
           ExtractProjects.RE_BLANK' 10000 t = None ->
         re_search ExtractProjects.RE_AREA_RANGE_M2 IGNORECASE t = Some m ->
         ExtractProjects.group_float ExtractProjects.RE_BLANK m = Some v ->
         exists w, ExtractProjects.extract_required_land_area_m2 t = Some w /\ w == v)
  /\ ExtractProjects.extract_required_land_area_m2
       (utf8 "Superficie souhaitée 200 à 300 m2") = Some 200.
Proof.
  split; [|split; [|split]].
  - intros text _. unfold Cri.extract_numeric_fields.
    cbn [Cri.nf_required_land_area_m2]. unfold Cri.required_land_area, Cri.area_m2_block.
    split; [|split].
    + intros m H _.
      destruct (area_group_converts Cri.RE_SURF_RANGE text m 1 eq_refl
                  (RE_SURF_RANGE_groups IGNORECASE) H) as [s1 H1].
      destruct (area_group_converts Cri.RE_SURF_RANGE text m 2 eq_refl
                  (RE_SURF_RANGE_groups IGNORECASE) H) as [s2 H2].
      exists s1, s2, (fdiv (fadd s1 s2) 2). rewrite H, H1, H2.
      repeat split; try reflexivity. intros _ _. apply near_of_eq.
      rewrite fdiv_eq, fadd_eq. reflexivity.
    + intros Hr m H.
      destruct (area_group_converts Cri.RE_SURF_SINGLE text m 1 eq_refl
                  (RE_SURF_SINGLE_groups IGNORECASE) H) as [v H1].
      exists v. rewrite Hr, H, H1. auto.
    + intros Hr Hs. rewrite Hr, Hs. unfold Cri.area_ha_block. split.
      * intros m H. rewrite H.
        destruct (number_group_converts Cri.RE_SURF_HA _ m 1 eq_refl
                    (RE_SURF_HA_groups IGNORECASE) H) as [h1 H1].
        rewrite H1. destruct (group m 2) as [s|] eqn:G.
        -- pose proof (re_search_groups IGNORECASE _ _ _ _ _ _
                         (RE_SURF_HA_groups IGNORECASE) H G) as Hnum.
           pose proof (numeral_nonempty _ _ Hnum) as Hne.
           destruct (float_of_numeral s Hnum) as [h2 H2].
           assert (G2 : Cri.float_group m 2 = Some h2).
           { unfold Cri.float_group. rewrite G. exact H2. }
           destruct s as [|c s]; [congruence|]. rewrite G2.
           exists h1, (fmul (fdiv (fadd h1 h2) 2) 10000).
           split; [reflexivity|]. split; [reflexivity|]. split; [intros E; discriminate E|].
           intros _. exists h2. split; [reflexivity|].
           intros _ _. apply near_of_eq, mean_eq.
        -- exists h1, (fmul h1 10000).
           split; [reflexivity|]. split; [reflexivity|].
           split; [intros _ _; apply near_of_eq, fmul_eq|].
           intros E. congruence.
      * intros H. rewrite H. reflexivity.
  - intros id. eexists. split; [reflexivity|]. vm_compute. reflexivity.
  - intros t m v _ H1 H2 H3 H4 H Hv.
    unfold ExtractProjects.extract_required_land_area_m2.
    rewrite H1, H2, H3, H4. cbn [orelse].
    unfold ExtractProjects.area_step. rewrite H, Hv.
    exists (fmul v 1). split; [reflexivity|]. rewrite fmul_eq. ring.
  - vm_compute. reflexivity.
Qed.

Lemma C5_area_resolution_witness :
  covered (utf8 "Sup : 500 - 700 m²")
  /\ match re_search Cri.RE_SURF_RANGE IGNORECASE (Cri._norm (utf8 "Sup : 500 - 700 m²")) with
     | Some m =>
       exists s1 s2 v,
         Cri.float_group_nospace m 1 = Some s1 /\ Cri.float_group_nospace m 2 = Some s2
         /\ Cri.nf_required_land_area_m2
              (Cri.extract_numeric_fields (utf8 "Sup : 500 - 700 m²")) = Some v
         /\ (s1 <= 1000000000 -> s2 <= 1000000000 ->
             Qabs (v - (s1 + s2) / 2) <= 1 # 1000000)
     | None => False
     end.
Proof.
  assert (Hc : covered (utf8 "Sup : 500 - 700 m²")) by (vm_compute; reflexivity).
  split; [exact Hc|].
  pose proof (proj1 (proj1 C5_area_resolution (utf8 "Sup : 500 - 700 m²") Hc)) as H.
  destruct (re_search Cri.RE_SURF_RANGE IGNORECASE (Cri._norm (utf8 "Sup : 500 - 700 m²")))
    as [m|] eqn:E.
  - apply H; [reflexivity | vm_compute; reflexivity].
  - vm_compute in E. discriminate E.
Defined.

(** C5 as worded fails in [extract_projects.py]: the range 200 à 300 m2
    resolves to 200, its first endpoint, not to the mean 250. *)
Lemma C5_first_endpoint_counterexample :
  ExtractProjects.extract_required_land_area_m2
    (utf8 "Superficie souhaitée 200 à 300 m2") = Some 200
  /\ ~ 200 == (200 + 300) / 2.
Proof.
  split; [vm_compute; reflexivity|]. intros H. vm_compute in H. discriminate H.
Qed.

(** A hectare range written with a blank before the unit is matched by
    the Sup range pattern, whose m² unit is optional, and is read as
    square metres; the hectare pattern, which averages the range and
    multiplies by 10 000, is reached when the unit follows the number
    directly. *)
Example hectare_range_read_as_m2 :
  Cri.nf_required_land_area_m2 (Cri.extract_numeric_fields (utf8 "Sup : 2 - 3 Ha"))
  = Some (5 # 2)
  /\ Cri.nf_required_land_area_m2 (Cri.extract_numeric_fields (utf8 "Sup : 2 - 3Ha"))
     = Some 25000
  /\ Cri.nf_required_land_area_m2 (Cri.extract_numeric_fields (utf8 "Sup : 5 Ha"))
     = Some 50000.
Proof. repeat split; vm_compute; reflexivity. Qed.

(* ===================================================================== *)
(** * References                                                          *)
(* ===================================================================== *)

Local Close Scope Q_scope.

Lemma lstrip_by_In p (s : list N) c : In c (lstrip_by p s) -> In c s.
Proof.
  induction s as [|a s IH]; simpl; [tauto|].
  destruct (p a); [right; auto | auto].
Qed.

Lemma strip_by_In p (s : list N) c : In c (strip_by p s) -> In c s.
Proof.
  unfold strip_by, rstrip_by. intros H.
  apply in_rev in H. apply lstrip_by_In in H. apply in_rev in H.
  apply lstrip_by_In in H. exact H.
Qed.


(** Case analysis on the tests of [upper w] in a hypothesis. *)
Ltac upper_cases H :=
  unfold upper, in_range in H;
  repeat (match type of H with
          | context [N.leb ?a ?b] => destruct (N.leb_spec a b)
          | context [N.eqb ?a ?b] => destruct (N.eqb_spec a b)
          end;
          cbn [andb orb negb] in H; try (exfalso; lia));
  simpl in H;
  repeat (destruct H as [H | H]); try contradiction; subst.

Ltac class_tests :=
  unfold claimed_reference_char, is_word, is_alnum, is_space, is_Mn, in_range;
  repeat split_test; intros; try discriminate; try reflexivity; try lia.

(** Upper-casing produces no ASCII lower-case letter, and neither
    combining marks nor white space out of other characters. *)
Lemma upper_not_lower (w c : N) : In c (upper w) -> in_range 97 122 c = false.
Proof. intros H. upper_cases H; class_tests. Qed.

Lemma upper_not_Mn (w c : N) : In c (upper w) -> is_Mn w = false -> is_Mn c = false.
Proof. intros H Hw. upper_cases H; try assumption; class_tests. Qed.

Lemma upper_not_space (w c : N) :
  In c (upper w) -> is_space w = false -> is_space c = false.
Proof. intros H Hw. upper_cases H; try assumption; class_tests. Qed.


Lemma claimed_is_reference (c : N) : claimed_reference_char c = true -> reference_char c.
Proof.
  intros H. unfold reference_char.
  assert (Hc : c = 45 \/ (is_word c = true /\ upper c = [c])).
  { revert H. unfold upper. class_tests; auto. }
  split.
  - destruct Hc as [Hc | [Hw Hu]]; [left; exact Hc | right].
    exists c. rewrite Hu. split; [exact Hw | left; reflexivity].
  - revert H. class_tests; auto.
Qed.

(** Where the characters of a normalised text come from: a hyphen, or
    the upper case of a word character of the decomposed text that is
    neither a combining mark nor white space. *)
Lemma normalize_for_reference_chars (s : list N) (c : N) :
  In c (Cri.normalize_for_reference s) ->
  c = 45
  \/ exists w y, In y s /\ In w (nfd_char y) /\ is_Mn w = false
                 /\ is_space w = false /\ is_word w = true /\ In c (upper w).
Proof.
  unfold Cri.normalize_for_reference.
  remember (strip s) as s1 eqn:E1. destruct s1 as [|a s1]; [intros []|].
  set (S1 := a :: s1) in *.
  assert (HS1 : forall y, In y S1 -> In y s).
  { intros y Hy. rewrite E1 in Hy. apply strip_by_In in Hy. exact Hy. }
  clearbody S1. clear E1.
  set (Q3 := fun w : N => (exists y, In y s /\ In w (nfd_char y)) /\ is_Mn w = false
                          /\ outside_reference w = false).
  set (Q4 := fun w : N => w = 45 \/ ((exists y, In y s /\ In w (nfd_char y))
                                     /\ is_Mn w = false /\ is_space w = false
                                     /\ is_word w = true)).
  assert (H3 : Forall Q3 (re_sub Cri.RE_NON_WORD [] NOFLAGS (Cri._remove_accents S1))).
  { apply re_sub_non_word_chars. intros ch Hin Hout.
    unfold Cri._remove_accents in Hin. apply filter_In in Hin. destruct Hin as [Hin Hmn].
    apply in_concat in Hin. destruct Hin as (ly & Hly & Hch).
    apply in_map_iff in Hly. destruct Hly as (y & <- & Hy).
    split; [exists y; auto|]. split; [|exact Hout].
    destruct (is_Mn ch); [discriminate Hmn | reflexivity]. }
  assert (H4 : Forall Q4 (re_sub Cri.RE_SPACES (utf8 "-") NOFLAGS
                            (re_sub Cri.RE_NON_WORD [] NOFLAGS (Cri._remove_accents S1)))).
  { apply re_sub_spaces_chars.
    - change (utf8 "-") with [45]. constructor; [left; reflexivity | constructor].
    - intros ch Hin Hsp. rewrite Forall_forall in H3.
      destruct (H3 ch ltac:(apply list_elem_of_In; exact Hin)) as (Hy & Hmn & Hout).
      unfold outside_reference in Hout. rewrite Hsp, orb_false_r in Hout.
      destruct (N.eqb_spec ch 45) as [->|Hne]; [left; reflexivity|].
      right. rewrite orb_false_r in Hout.
      destruct (is_word ch); [auto | discriminate Hout]. }
  intros H. unfold str_upper in H. apply in_concat in H. destruct H as (lw & Hlw & Hc).
  apply in_map_iff in Hlw. destruct Hlw as (w & <- & Hw).
  apply strip_by_In in Hw. rewrite Forall_forall in H4.
  destruct (H4 w ltac:(apply list_elem_of_In; exact Hw)) as [-> | ((y & Hy & Hwy) & Hmn & Hsp & Hword)].
  - left. simpl in Hc. destruct Hc as [Hc | []]. auto.
  - right. exists w, y. auto 10.
Qed.

Lemma normalize_for_reference_reference_chars (s : list N) :
  Forall reference_char (Cri.normalize_for_reference s).
Proof.
  apply Forall_forall. intros c Hc. apply list_elem_of_In in Hc.
  apply normalize_for_reference_chars in Hc.
  destruct Hc as [-> | (w & y & _ & _ & Hmn & Hsp & Hword & Hc)].
  - apply claimed_is_reference. reflexivity.
  - split; [right; exists w; auto|].
    split; [eapply upper_not_lower; eauto|].
    split; [eapply upper_not_Mn; eauto | eapply upper_not_space; eauto].
Qed.





(** A reference is the region token, the title or its first
    [TITLE_CAP] characters, and the identifier, joined by hyphens. *)
Lemma make_reference_parts (ref_region ref_title : list N) (id : Z) :
  Cri.make_reference ref_region ref_title id
  = ref_region ++ utf8 "-"
    ++ (if (Cri.REFERENCE_CAP
            <? List.length (ref_region ++ utf8 "-" ++ ref_title ++ utf8 "-" ++ str_of_Z id))%nat
        then firstn Cri.TITLE_CAP ref_title else ref_title)
    ++ utf8 "-" ++ str_of_Z id.
Proof.
  unfold Cri.make_reference, slice_to.
  destruct (Cri.REFERENCE_CAP <? _)%nat; reflexivity.
Qed.







(** Letters without a decomposition are word characters and stay in
    the reference, upper-cased. *)
Example reference_keeps_other_letters :
  Cri.normalize_for_reference (utf8 "Pâte à søl (bio)") = utf8 "PATE-A-SØL-BIO".
Proof. vm_compute. reflexivity. Qed.

(* ===================================================================== *)
(** * Titles                                                              *)
(* ===================================================================== *)

(** A sheet whose title of three words is printed twice. *)
Lemma dedupe_long_sample :
  Cri.extract_project_title
    (join [10] [ utf8 "Projet N° : PR12";
                 utf8 "UNITÉ DE TRITURATION UNITÉ DE TRITURATION";
                 utf8 "Secteur économique : Agro-industrie" ])
    (utf8 "unite.pdf")
  = utf8 "UNITÉ DE TRITURATION".
Proof. vm_compute. reflexivity. Qed.

(** C7. What the function does with a captured title whose words are
    the same block twice: it collapses the title to one block when
    the title has at least six words, that is when the block has at
    least three; a title of fewer than six words is returned as it was
    captured, white space cleaned.  The rule of its docstring (a title
    X X keeps only one X) is therefore not applied to a block of one
    or two words. *)
Theorem C7_dedupe_repeated_title (title : list N) :
  (forall half,
      split_ws (Cri.clean_text title) = half ++ half ->
      (3 <= List.length half)%nat ->
      Cri._dedupe_repeated_title title = join (utf8 " ") half)
  /\ ((List.length (split_ws (Cri.clean_text title)) < 6)%nat ->
      Cri._dedupe_repeated_title title = Cri.clean_text title).
Proof.
  unfold Cri._dedupe_repeated_title. cbv zeta. split.
  - intros half Hw Hlen.
    destruct (Cri.clean_text title) as [|c t] eqn:E.
    + destruct half; [simpl in Hlen; lia | discriminate Hw].
    + rewrite Hw.
      assert (Hn : List.length (half ++ half) = (List.length half * 2)%nat).
      { rewrite length_app. lia. }
      rewrite Hn, Nat.Div0.mod_mul, Nat.div_mul by lia.
      assert (H6 : (6 <=? List.length half * 2)%nat = true) by (apply Nat.leb_le; lia).
      rewrite H6. cbn [andb Nat.eqb].
      rewrite take_app_length, drop_app_length.
      rewrite bool_decide_true by reflexivity. reflexivity.
  - intros Hlen.
    destruct (Cri.clean_text title) as [|c t] eqn:E; [reflexivity|].
    assert (H6 : (6 <=? List.length (split_ws (c :: t)))%nat = false)
      by (apply Nat.leb_gt; exact Hlen).
    rewrite H6. reflexivity.
Qed.

Lemma C7_dedupe_repeated_title_witness :
  Cri._dedupe_repeated_title (utf8 "UNITÉ DE TRITURATION UNITÉ DE TRITURATION")
  = utf8 "UNITÉ DE TRITURATION".
Proof.
  apply (proj1 (C7_dedupe_repeated_title (utf8 "UNITÉ DE TRITURATION UNITÉ DE TRITURATION"))
           [utf8 "UNITÉ"; utf8 "DE"; utf8 "TRITURATION"]).
  - vm_compute. reflexivity.
  - simpl. lia.
Defined.

(** C7: the claim, and the docstring, fail on the four-word block the
    claim names: its words are CENTRE D’APPEL twice, and the title is
    kept whole, by the function and by the extractor on a sheet. *)
Lemma C7_four_word_title_counterexample :
  split_ws (Cri.clean_text (utf8 "CENTRE D’APPEL CENTRE D’APPEL"))
  = [utf8 "CENTRE"; utf8 "D’APPEL"] ++ [utf8 "CENTRE"; utf8 "D’APPEL"]
  /\ Cri._dedupe_repeated_title (utf8 "CENTRE D’APPEL CENTRE D’APPEL")
     = utf8 "CENTRE D’APPEL CENTRE D’APPEL"
  /\ Cri.extract_project_title (Cri.full_text example_sheet) (utf8 "centre-appel.pdf")
     = utf8 "CENTRE D’APPEL CENTRE D’APPEL"
  /\ utf8 "CENTRE D’APPEL CENTRE D’APPEL" <> utf8 "CENTRE D’APPEL".
Proof.
  split; [vm_compute; reflexivity|]. split; [vm_compute; reflexivity|].
  split; [vm_compute; reflexivity|]. vm_compute. discriminate.
Qed.

(* ===================================================================== *)
(** * Sector                                                              *)
(* ===================================================================== *)

(** C10. Every record of the Béni Mellal pipeline has a sector; it is
    the constant CRI when the label Secteur économique matches neither
    in the left column nor in the full text; and the project bank
    category is that same value, in the record and in its row. *)
Theorem C10_sector_default (filename : list N) (l : Cri.layout_data) (id : Z)
    (r : Cri.project_record) :
  Cri.process_one_pdf filename l id = Some r ->
  exists s,
    Cri.sector r = Some s
    /\ Cri.project_bank_category r = Some s
    /\ s = Cri.extract_sector_from_layout (Cri.left_text l) (Cri.full_text l)
    /\ (re_search Cri.RE_SECTOR_LEFT IGNORECASE_DOTALL (Cri.left_text l) = None ->
        re_search Cri.RE_SECTOR_FULL IGNORECASE_DOTALL (Cri.full_text l) = None ->
        s = utf8 "CRI")
    /\ Cri.cell_at (Cri.row_of_record r) "sector" = Cri.CStr s
    /\ Cri.cell_at (Cri.row_of_record r) "project_bank_category" = Cri.CStr s.
Proof.
  intros H. unfold Cri.process_one_pdf in H.
  destruct (Cri.full_text l) eqn:E; [discriminate H|].
  apply (inj Some) in H. subst r.
  exists (Cri.extract_sector_from_layout (Cri.left_text l) (Cri.full_text l)).
  cbn [Cri.sector Cri.project_bank_category Cri.extract_fields Cri.f_sector].
  rewrite E. repeat split.
  intros H1 H2. unfold Cri.extract_sector_from_layout. rewrite H1.
  rewrite H2. reflexivity.
Qed.

Lemma C10_sector_default_witness :
  exists r,
    Cri.process_one_pdf (utf8 "fiche_atelier.pdf") unnamed_sheet 1 = Some r
    /\ Cri.sector r = Some (utf8 "CRI")
    /\ Cri.project_bank_category r = Some (utf8 "CRI").
Proof.
  eexists. split; [reflexivity|].
  destruct (C10_sector_default (utf8 "fiche_atelier.pdf") unnamed_sheet 1%Z _ eq_refl)
    as (s & H1 & H2 & _ & H4 & _).
  rewrite H1, H2.
  rewrite (H4 ltac:(vm_compute; reflexivity) ltac:(vm_compute; reflexivity)).
  split; reflexivity.
Defined.

(** A label that matches gives the text after it. *)
Example sector_of_example_sheet :
  Cri.extract_sector_from_layout (Cri.left_text example_sheet) (Cri.full_text example_sheet)
  = utf8 "Services".
Proof. vm_compute. reflexivity. Qed.

(** The text after a matching label can be empty once the label
    prefix is stripped: the sector is then the empty string, not
    CRI. *)
Example sector_may_be_empty_text :
  Cri.extract_sector_from_layout (utf8 "Secteur économique : Secteur économique :") []
  = [].
Proof. vm_compute. reflexivity. Qed.

(* ===================================================================== *)
(** * Identifiers                                                         *)
(* ===================================================================== *)

Local Open Scope Z_scope.

Lemma process_one_pdf_id (filename : list N) (l : Cri.layout_data) (id : Z)
    (r : Cri.project_record) :
  Cri.process_one_pdf filename l id = Some r -> Cri.project_id r = id.
Proof.
  unfold Cri.process_one_pdf. destruct (Cri.full_text l); [discriminate|].
  intros H. apply (inj Some) in H. subst r. reflexivity.
Qed.

(** ** The sort by identifier *)

Lemma insert_by_id_perm (r : Cri.project_record) (l : list Cri.project_record) :
  Permutation (r :: l) (Cri.insert_by_id r l).
Proof.
  induction l as [|x l IH]; simpl; [reflexivity|].
  destruct (Cri.project_id r <? Cri.project_id x); [reflexivity|].
  rewrite <- IH. apply perm_swap.
Qed.

Lemma insert_by_id_sorted (r : Cri.project_record) (l : list Cri.project_record) :
  StronglySorted Z.le (Cri.project_id <$> l) ->
  StronglySorted Z.le (Cri.project_id <$> Cri.insert_by_id r l).
Proof.
  induction l as [|x l IH]; simpl; intros Hs.
  - repeat constructor.
  - apply StronglySorted_inv in Hs. destruct Hs as [Hs Hx].
    destruct (Z.ltb_spec (Cri.project_id r) (Cri.project_id x)) as [Hlt | Hge].
    + change (StronglySorted Z.le
                (Cri.project_id r :: Cri.project_id x :: (Cri.project_id <$> l))).
      constructor; [constructor; assumption|].
      constructor; [lia|]. eapply Forall_impl; [exact Hx|]. simpl. intros. lia.
    + change (StronglySorted Z.le
                (Cri.project_id x :: (Cri.project_id <$> Cri.insert_by_id r l))).
      constructor; [apply IH; exact Hs|].
      rewrite <- (insert_by_id_perm r l). simpl. constructor; assumption.
Qed.

Lemma sort_by_id_acc (l acc : list Cri.project_record) :
  StronglySorted Z.le (Cri.project_id <$> acc) ->
  Permutation (acc ++ l) (fold_left (fun sorted r => Cri.insert_by_id r sorted) l acc)
  /\ StronglySorted Z.le
       (Cri.project_id <$> fold_left (fun sorted r => Cri.insert_by_id r sorted) l acc).
Proof.
  revert acc. induction l as [|r l IH]; intros acc Hacc; simpl.
  - rewrite app_nil_r. auto.
  - destruct (IH (Cri.insert_by_id r acc) (insert_by_id_sorted r acc Hacc)) as [Hp Hs].
    split; [|exact Hs]. rewrite <- Hp, <- insert_by_id_perm.
    rewrite <- Permutation_middle. reflexivity.
Qed.

Lemma sort_by_id_perm (l : list Cri.project_record) : Permutation l (Cri.sort_by_id l).
Proof. apply (sort_by_id_acc l []). constructor. Qed.

Lemma sort_by_id_sorted (l : list Cri.project_record) :
  StronglySorted Z.le (Cri.project_id <$> Cri.sort_by_id l).
Proof. apply (sort_by_id_acc l []). constructor. Qed.

Lemma sorted_nodup_strict (l : list Z) :
  StronglySorted Z.le l -> NoDup l -> strictly_increasing l.
Proof.
  unfold strictly_increasing.
  induction l as [|a l IH]; intros Hs Hn; [constructor|].
  apply StronglySorted_inv in Hs. destruct Hs as [Hs Ha].
  apply NoDup_cons in Hn. destruct Hn as [Hnot Hn].
  constructor; [auto|].
  rewrite Forall_forall in *. intros x Hx.
  specialize (Ha x Hx). assert (a <> x) by (intros ->; contradiction). lia.
Qed.

(** ** Submission and collection *)

Lemma submit_all_lookup (next_id : Z) (pdf_files : list Cri.pdf_input) (i : nat)
    (r : Cri.project_record) :
  Cri.submit_all next_id pdf_files !! i = Some (Some r) ->
  (i < List.length pdf_files)%nat /\ Cri.project_id r = next_id + Z.of_nat i.
Proof.
  unfold Cri.submit_all. rewrite list_lookup_imap. intros H.
  apply fmap_Some in H. destruct H as (p & E & H). split.
  - apply lookup_lt_Some in E. exact E.
  - eapply process_one_pdf_id. symmetry. exact H.
Qed.

Lemma collect_ids (next_id : Z) (pdf_files : list Cri.pdf_input) (completion : list nat)
    (r : Cri.project_record) :
  r ∈ Cri.collect (Cri.submit_all next_id pdf_files) completion ->
  exists i, i ∈ completion /\ (i < List.length pdf_files)%nat
            /\ Cri.project_id r = next_id + Z.of_nat i.
Proof.
  unfold Cri.collect. intros H. apply list_elem_of_omap in H.
  destruct H as (i & Hi & Hr).
  destruct (Cri.submit_all next_id pdf_files !! i) as [[r'|]|] eqn:E; try discriminate.
  apply (inj Some) in Hr. subst r'.
  destruct (submit_all_lookup _ _ _ _ E). eauto.
Qed.

Lemma collect_ids_NoDup (next_id : Z) (pdf_files : list Cri.pdf_input)
    (completion : list nat) :
  NoDup completion ->
  NoDup (Cri.project_id <$> Cri.collect (Cri.submit_all next_id pdf_files) completion).
Proof.
  induction completion as [|i c IH]; intros Hn; [constructor|].
  apply NoDup_cons in Hn. destruct Hn as [Hi Hn].
  unfold Cri.collect. cbn [omap list_omap].
  fold (Cri.collect (Cri.submit_all next_id pdf_files) c).
  destruct (Cri.submit_all next_id pdf_files !! i) as [[r|]|] eqn:E; auto.
  rewrite fmap_cons. apply NoDup_cons. split; [|auto].
  intros Hin. apply list_elem_of_fmap in Hin. destruct Hin as (r' & Hid & Hr').
  apply collect_ids in Hr'. destruct Hr' as (j & Hj & _ & Hidj).
  apply submit_all_lookup in E. destruct E as [_ Hidi].
  assert (i = j) by lia. subst j. contradiction.
Qed.

(** The rows of a run, sorted: their identifiers increase strictly and
    start from [next_id], whatever the order of completion. *)
Lemma new_rows_increasing (next_id : Z) (pdf_files : list Cri.pdf_input)
    (completion : list nat) :
  NoDup completion ->
  let new_rows := Cri.sort_by_id (Cri.collect (Cri.submit_all next_id pdf_files) completion) in
  strictly_increasing (Cri.project_id <$> new_rows)
  /\ Forall (fun r => next_id <= Cri.project_id r
                      < next_id + Z.of_nat (List.length pdf_files)) new_rows.
Proof.
  intros Hn new_rows. split.
  - apply sorted_nodup_strict; [apply sort_by_id_sorted|].
    unfold new_rows. rewrite <- (sort_by_id_perm _).
    apply collect_ids_NoDup. exact Hn.
  - apply Forall_forall. intros r Hr. unfold new_rows in Hr.
    rewrite <- (sort_by_id_perm _) in Hr. apply collect_ids in Hr.
    destruct Hr as (i & _ & Hlt & ->). lia.
Qed.

(** ** The next identifier *)

Lemma int_of_Q_succ (x : Q) : (x < inject_Z (int_of_Q x + 1))%Q.
Proof.
  unfold int_of_Q. destruct (Qle_bool 0 x).
  - apply Qlt_floor.
  - eapply Qle_lt_trans; [apply Qle_ceiling|]. rewrite <- Zlt_Qlt. lia.
Qed.

Lemma int_of_Q_integer (z : Z) : int_of_Q (this (Q2Qc (inject_Z z))) = z.
Proof.
  assert (E : (this (Q2Qc (inject_Z z)) == inject_Z z)%Q) by apply Qred_correct.
  unfold int_of_Q. destruct (Qle_bool 0 _).
  - rewrite (Qfloor_comp _ _ E). apply Qfloor_Z.
  - rewrite (Qceiling_comp _ _ E). apply Qceiling_Z.
Qed.

Lemma nanmax_spec (l : list (option Qc)) (v : Qc) :
  Cri.nanmax l = Some v ->
  Some v ∈ l /\ forall q, Some q ∈ l -> (q <= v)%Qc.
Proof.
  revert v. induction l as [|[a|] l IH]; intros v H; simpl in H.
  - discriminate H.
  - destruct (Cri.nanmax l) as [m|] eqn:E.
    + destruct (IH m eq_refl) as [Hin Hmax].
      apply (inj Some) in H. subst v. unfold Cri.Qc_max.
      destruct (Qclt_le_dec a m) as [Hlt | Hle].
      * split; [right; exact Hin|]. intros q Hq.
        apply elem_of_cons in Hq. destruct Hq as [Hq | Hq]; [|auto].
        apply (inj Some) in Hq. subst q. apply Qclt_le_weak. exact Hlt.
      * split; [left|]. intros q Hq.
        apply elem_of_cons in Hq. destruct Hq as [Hq | Hq].
        -- apply (inj Some) in Hq. subst q. apply Qcle_refl.
        -- eapply Qcle_trans; [apply Hmax; exact Hq | exact Hle].
    + apply (inj Some) in H. subst v. split; [left|]. intros q Hq.
      apply elem_of_cons in Hq. destruct Hq as [Hq | Hq].
      * apply (inj Some) in Hq. subst q. apply Qcle_refl.
      * exfalso. clear -E Hq. induction l as [|[b|] l IHl]; simpl in E.
        -- inversion Hq.
        -- destruct (Cri.nanmax l); discriminate E.
        -- apply elem_of_cons in Hq. destruct Hq as [Hq | Hq]; [discriminate Hq | auto].
  - destruct (IH v H) as [Hin Hmax]. split; [right; exact Hin|].
    intros q Hq. apply elem_of_cons in Hq. destruct Hq as [Hq | Hq]; [discriminate Hq | auto].
Qed.

Lemma df_not_empty (df : Cri.dataframe) (col : string) :
  Cri.has_column df col = true -> Cri.rows df <> [] -> Cri.df_empty df = false.
Proof.
  unfold Cri.has_column, Cri.df_empty. intros Hc Hr.
  destruct (Cri.rows df); [congruence|].
  destruct (Cri.columns df); [|reflexivity].
  apply bool_decide_eq_true in Hc. inversion Hc.
Qed.

Section Allocation.

Variable parse_numeric : list N -> option Qc.

Lemma _max_project_id_bound (df : Cri.dataframe) (q : Qc) :
  Cri.has_column df "project_id" = true ->
  Some q ∈ Cri.project_id_column parse_numeric df ->
  (q < inject_Z (Cri._max_project_id parse_numeric df + 1))%Q.
Proof.
  intros Hc Hq. unfold Cri._max_project_id. rewrite Hc.
  assert (Hr : Cri.rows df <> []).
  { intros E. unfold Cri.project_id_column in Hq. rewrite E in Hq. inversion Hq. }
  rewrite (df_not_empty df _ Hc Hr). cbn [andb negb].
  destruct (Cri.nanmax (Cri.project_id_column parse_numeric df)) as [v|] eqn:E.
  - destruct (nanmax_spec _ _ E) as [_ Hmax].
    eapply Qle_lt_trans; [apply (Hmax q Hq) | apply int_of_Q_succ].
  - exfalso. clear -E Hq.
    induction (Cri.project_id_column parse_numeric df) as [|[b|] l IHl]; simpl in E.
    + inversion Hq.
    + destruct (Cri.nanmax l); discriminate E.
    + apply elem_of_cons in Hq. destruct Hq as [Hq | Hq]; [discriminate Hq | auto].
Qed.

(** C8. The run starts from the largest project_id of the persisted
    file plus one: from 1 when the file is missing or unreadable, when
    it has no record, no column project_id or no numeric identifier,
    and from int(v) + 1 for the largest numeric identifier v, which is
    z + 1 when v is the integer z.  An unreadable file gives the same
    output as a missing one.  The file of rank i in the sorted list is
    handed the identifier next_id + i, and the new rows, once sorted,
    carry strictly increasing identifiers not below next_id, whatever
    the order in which the workers finish. *)
Theorem C8_identifier_allocation :
  Cri.next_project_id parse_numeric Cri.Missing = 1
  /\ Cri.next_project_id parse_numeric Cri.Unreadable = 1
  /\ (forall df,
         Cri.rows df = [] \/ Cri.has_column df "project_id" = false
         \/ Cri.nanmax (Cri.project_id_column parse_numeric df) = None ->
         Cri.next_project_id parse_numeric (Cri.Readable df) = 1)
  /\ (forall df v,
         Cri.has_column df "project_id" = true -> Cri.rows df <> [] ->
         Cri.nanmax (Cri.project_id_column parse_numeric df) = Some v ->
         Some v ∈ Cri.project_id_column parse_numeric df
         /\ (forall q, Some q ∈ Cri.project_id_column parse_numeric df -> (q <= v)%Qc)
         /\ Cri.next_project_id parse_numeric (Cri.Readable df) = int_of_Q (this v) + 1
         /\ (forall z, v = Q2Qc (inject_Z z) ->
                       Cri.next_project_id parse_numeric (Cri.Readable df) = z + 1))
  /\ (forall pdf_files completion,
         Cri.process_pdfs parse_numeric Cri.Unreadable pdf_files completion
         = Cri.process_pdfs parse_numeric Cri.Missing pdf_files completion
         /\ (pdf_files <> [] ->
             is_Some (Cri.process_pdfs parse_numeric Cri.Unreadable pdf_files completion)))
  /\ (forall next_id pdf_files i p,
         pdf_files !! i = Some p ->
         Cri.submit_all next_id pdf_files !! i
         = Some (Cri.process_one_pdf (fst p) (snd p) (next_id + Z.of_nat i)))
  /\ (forall next_id pdf_files completion,
         NoDup completion ->
         let new_rows :=
           Cri.sort_by_id (Cri.collect (Cri.submit_all next_id pdf_files) completion) in
         strictly_increasing (Cri.project_id <$> new_rows)
         /\ Forall (fun r => next_id <= Cri.project_id r
                             < next_id + Z.of_nat (List.length pdf_files)) new_rows).
Proof.
  split; [reflexivity|]. split; [reflexivity|]. split; [|split; [|split; [|split]]].
  - intros df H. unfold Cri.next_project_id, Cri._max_project_id. simpl.
    destruct H as [H | [H | H]].
    + unfold Cri.df_empty. rewrite H. rewrite andb_false_r. reflexivity.
    + rewrite H. reflexivity.
    + rewrite H. destruct (_ && _); reflexivity.
  - intros df v Hc Hr E.
    destruct (nanmax_spec _ _ E) as [Hin Hmax].
    assert (Hnext : Cri.next_project_id parse_numeric (Cri.Readable df)
                    = int_of_Q (this v) + 1).
    { unfold Cri.next_project_id, Cri._max_project_id. simpl.
      rewrite Hc, (df_not_empty df _ Hc Hr), E. reflexivity. }
    split; [exact Hin|]. split; [exact Hmax|]. split; [exact Hnext|].
    intros z ->. rewrite Hnext, int_of_Q_integer. reflexivity.
  - intros pdf_files completion. split; [reflexivity|].
    intros Hne. unfold Cri.process_pdfs. destruct pdf_files; [congruence | eauto].
  - intros next_id pdf_files i p Hp. unfold Cri.submit_all.
    rewrite list_lookup_imap. unfold Cri.pdf_input in *. rewrite Hp. reflexivity.
  - intros next_id pdf_files completion Hn. apply new_rows_increasing. exact Hn.
Qed.

End Allocation.

Lemma C8_identifier_allocation_witness :
  Cri.next_project_id sample_parse_numeric (Cri.Readable persisted_sample) = 5
  /\ strictly_increasing
       (Cri.project_id
          <$> Cri.sort_by_id (Cri.collect (Cri.submit_all 5 sample_files) [1; 0]%nat)).
Proof.
  pose proof (C8_identifier_allocation sample_parse_numeric)
    as (_ & _ & _ & Hmax & _ & _ & Hnew).
  split.
  - assert (H1 : Cri.has_column persisted_sample "project_id" = true)
      by (vm_compute; reflexivity).
    assert (H2 : Cri.rows persisted_sample <> []) by discriminate.
    assert (H3 : Cri.nanmax (Cri.project_id_column sample_parse_numeric persisted_sample)
                 = Some (Q2Qc 4)) by (vm_compute; reflexivity).
    destruct (Hmax persisted_sample (Q2Qc 4) H1 H2 H3) as (_ & _ & _ & Hz).
    apply (Hz 4 eq_refl).
  - apply (Hnew 5 sample_files [1; 0]%nat).
    apply NoDup_cons. split; [|apply NoDup_singleton].
    intros H. apply list_elem_of_singleton in H. discriminate H.
Defined.

(** On the sample run the rows come out in the order of the files,
    with the identifiers 5 and 6, though the second file finished
    first. *)
Example sample_run_identifiers :
  Cri.project_id
    <$> Cri.sort_by_id (Cri.collect (Cri.submit_all 5 sample_files) [1; 0]%nat)
  = [5; 6].
Proof. vm_compute. reflexivity. Qed.

(* ===================================================================== *)
(** * The refresh of one source                                           *)
(* ===================================================================== *)

(** The cell of a column in a row rebuilt column by column. *)
Lemma cell_at_tabulate (g : string -> Cri.cell) (cols : list string) (col : string) :
  Cri.cell_at (list_to_map ((fun c => (c, g c)) <$> cols)) col
  = if bool_decide (col ∈ cols) then g col else Cri.CNaN.
Proof.
  unfold Cri.cell_at. induction cols as [|c cols IH].
  - simpl. rewrite lookup_empty. reflexivity.
  - rewrite fmap_cons, list_to_map_cons, lookup_insert.
    destruct (decide (c = col)) as [-> | Hne].
    + rewrite bool_decide_true by left. reflexivity.
    + rewrite IH. apply (f_equal (fun b : bool => if b then g col else Cri.CNaN)).
      apply bool_decide_ext. rewrite elem_of_cons. split; [auto|].
      intros [E | H]; [congruence | exact H].
Qed.

Lemma _ensure_columns_cell (df : Cri.dataframe) (cols : list string) (i : nat)
    (r' : gmap string Cri.cell) :
  Cri.rows (Cri._ensure_columns df cols) !! i = Some r' ->
  exists r, Cri.rows df !! i = Some r
            /\ forall col, Cri.cell_at r' col
                           = if bool_decide (col ∈ cols)
                             then (if Cri.has_column df col then Cri.cell_at r col
                                   else Cri.CNaN)
                             else Cri.CNaN.
Proof.
  unfold Cri._ensure_columns. cbn [Cri.rows]. rewrite list_lookup_fmap.
  intros H. apply fmap_Some in H. destruct H as (r & Hr & ->).
  exists r. split; [exact Hr|]. intros col.
  apply (cell_at_tabulate
           (fun c => if Cri.has_column df c then Cri.cell_at r c else Cri.CNaN)).
Qed.

Lemma _ensure_columns_length (df : Cri.dataframe) (cols : list string) :
  List.length (Cri.rows (Cri._ensure_columns df cols)) = List.length (Cri.rows df).
Proof. unfold Cri._ensure_columns. cbn [Cri.rows]. apply length_fmap. Qed.

(** What [_remove_rows_for_this_source] keeps. *)
Lemma _remove_rows_columns (df : Cri.dataframe) :
  Cri.columns (Cri._remove_rows_for_this_source df) = Cri.columns df.
Proof.
  unfold Cri._remove_rows_for_this_source.
  destruct (Cri.df_empty df); [reflexivity|].
  destruct (Cri.has_column df "source_type"); [reflexivity|].
  destruct (Cri.has_column df "region"); reflexivity.
Qed.

Lemma df_empty_filter (df : Cri.dataframe) (col : string) (p : gmap string Cri.cell -> bool) :
  Cri.df_empty df = true -> Cri.has_column df col = true ->
  List.filter p (Cri.rows df) = [].
Proof.
  unfold Cri.df_empty, Cri.has_column. intros He Hc.
  destruct (Cri.rows df); [reflexivity|].
  destruct (Cri.columns df); [|discriminate He].
  apply bool_decide_eq_true in Hc. inversion Hc.
Qed.

Lemma _remove_rows_by_tag (df : Cri.dataframe) :
  Cri.has_column df "source_type" = true ->
  Cri.rows (Cri._remove_rows_for_this_source df)
  = List.filter (other_source "source_type" Cri.SOURCE_TYPE) (Cri.rows df).
Proof.
  intros Hc. unfold Cri._remove_rows_for_this_source.
  destruct (Cri.df_empty df) eqn:He.
  - symmetry. eapply df_empty_filter; eauto.
  - rewrite Hc. reflexivity.
Qed.

Lemma _remove_rows_by_region (df : Cri.dataframe) :
  Cri.has_column df "source_type" = false -> Cri.has_column df "region" = true ->
  Cri.rows (Cri._remove_rows_for_this_source df)
  = List.filter (other_source "region" Cri.REGION) (Cri.rows df).
Proof.
  intros Hs Hc. unfold Cri._remove_rows_for_this_source.
  destruct (Cri.df_empty df) eqn:He.
  - symmetry. eapply df_empty_filter; eauto.
  - rewrite Hs, Hc. reflexivity.
Qed.

Lemma _remove_rows_subset (df : Cri.dataframe) (r : gmap string Cri.cell) :
  r ∈ Cri.rows (Cri._remove_rows_for_this_source df) -> r ∈ Cri.rows df.
Proof.
  unfold Cri._remove_rows_for_this_source.
  destruct (Cri.df_empty df); [intros H; inversion H|].
  destruct (Cri.has_column df "source_type").
  { intros H. apply list_elem_of_In in H. apply filter_In in H.
    apply list_elem_of_In. tauto. }
  destruct (Cri.has_column df "region"); [|auto].
  intros H. apply list_elem_of_In in H. apply filter_In in H.
  apply list_elem_of_In. tauto.
Qed.

(** The identifier and the source tag in the row of a record. *)
Lemma row_of_record_id (r : Cri.project_record) :
  Cri.cell_at (Cri.row_of_record r) "project_id"
  = Cri.CNum (Q2Qc (inject_Z (Cri.project_id r))).
Proof. reflexivity. Qed.

Lemma row_of_record_source (r : Cri.project_record) :
  Cri.cell_at (Cri.row_of_record r) "source_type" = Cri.CStr (Cri.source_type r).
Proof. reflexivity. Qed.

Lemma output_columns_concat (a b : Cri.dataframe) (col : string) :
  Cri.columns a = Cri.OUTPUT_COLUMNS ->
  col ∈ Cri.OUTPUT_COLUMNS -> Cri.has_column (Cri.concat a b) col = true.
Proof.
  intros Ha Hc. unfold Cri.has_column, Cri.concat. cbn [Cri.columns].
  apply bool_decide_eq_true. rewrite Ha. apply elem_of_app. left. exact Hc.
Qed.

Ltac in_columns :=
  apply list_elem_of_In; simpl; repeat (try (left; reflexivity); right).

Lemma _ensure_columns_row (df : Cri.dataframe) (cols : list string) (i : nat)
    (r : gmap string Cri.cell) :
  Cri.rows df !! i = Some r ->
  exists r', Cri.rows (Cri._ensure_columns df cols) !! i = Some r'
             /\ forall col, Cri.cell_at r' col
                            = if bool_decide (col ∈ cols)
                              then (if Cri.has_column df col then Cri.cell_at r col
                                    else Cri.CNaN)
                              else Cri.CNaN.
Proof.
  intros Hr. unfold Cri._ensure_columns. cbn [Cri.rows].
  rewrite list_lookup_fmap, Hr. simpl. eexists. split; [reflexivity|].
  intros col.
  apply (cell_at_tabulate
           (fun c => if Cri.has_column df c then Cri.cell_at r c else Cri.CNaN)).
Qed.

Lemma process_one_pdf_source (filename : list N) (l : Cri.layout_data) (id : Z)
    (r : Cri.project_record) :
  Cri.process_one_pdf filename l id = Some r -> Cri.source_type r = Cri.SOURCE_TYPE.
Proof.
  unfold Cri.process_one_pdf. destruct (Cri.full_text l); [discriminate|].
  intros H. apply (inj Some) in H. subst r. reflexivity.
Qed.

Lemma collect_source (next_id : Z) (pdf_files : list Cri.pdf_input) (completion : list nat)
    (r : Cri.project_record) :
  r ∈ Cri.collect (Cri.submit_all next_id pdf_files) completion ->
  Cri.source_type r = Cri.SOURCE_TYPE.
Proof.
  unfold Cri.collect. intros H. apply list_elem_of_omap in H.
  destruct H as (i & Hi & Hr).
  destruct (Cri.submit_all next_id pdf_files !! i) as [[r'|]|] eqn:E; try discriminate.
  apply (inj Some) in Hr. subst r'.
  unfold Cri.submit_all in E. rewrite list_lookup_imap in E.
  apply fmap_Some in E. destruct E as (p & _ & E).
  eapply process_one_pdf_source. symmetry. exact E.
Qed.

Lemma Q2Qc_inject_Z_inj (a b : Z) : Q2Qc (inject_Z a) = Q2Qc (inject_Z b) -> a = b.
Proof.
  intros H. apply (f_equal this) in H. simpl in H.
  apply Qred_eq_iff in H. unfold Qeq in H. simpl in H. lia.
Qed.

Section Refresh.

Variable parse_numeric : list N -> option Qc.

(** The identifiers of a frame are unchanged by the selection of the
    output columns. *)
Lemma project_id_column_ensure (df : Cri.dataframe) :
  Cri.has_column df "project_id" = true ->
  Cri.project_id_column parse_numeric (Cri._ensure_columns df Cri.OUTPUT_COLUMNS)
  = Cri.project_id_column parse_numeric df.
Proof.
  intros Hc. unfold Cri.project_id_column, Cri._ensure_columns. cbn [Cri.rows].
  rewrite <- list_fmap_compose. apply list_fmap_ext. intros i r _. unfold compose.
  rewrite (cell_at_tabulate
             (fun c => if Cri.has_column df c then Cri.cell_at r c else Cri.CNaN)).
  rewrite bool_decide_true by in_columns. rewrite Hc. reflexivity.
Qed.

Lemma project_id_column_new (rs : list Cri.project_record) :
  Cri.project_id_column parse_numeric
    (Cri._ensure_columns (Cri.dataframe_of_records rs) Cri.OUTPUT_COLUMNS)
  = (fun r => Some (Q2Qc (inject_Z (Cri.project_id r)))) <$> rs.
Proof.
  destruct rs as [|r0 rs]; [reflexivity|].
  rewrite project_id_column_ensure by (vm_compute; reflexivity).
  unfold Cri.project_id_column, Cri.dataframe_of_records. cbn [Cri.rows].
  rewrite <- list_fmap_compose. apply list_fmap_ext. intros i r _. unfold compose.
  rewrite row_of_record_id. reflexivity.
Qed.

Lemma project_id_column_kept (df : Cri.dataframe) (q : Qc) :
  Some q ∈ Cri.project_id_column parse_numeric
             (Cri._ensure_columns (Cri._remove_rows_for_this_source df) Cri.OUTPUT_COLUMNS) ->
  Cri.has_column df "project_id" = true
  /\ Some q ∈ Cri.project_id_column parse_numeric df.
Proof.
  intros H. unfold Cri.project_id_column in H.
  apply list_elem_of_fmap in H. destruct H as (r' & Hq & Hr').
  apply list_elem_of_lookup in Hr'. destruct Hr' as (i & Hi).
  apply _ensure_columns_cell in Hi. destruct Hi as (r & Hr & Hcell).
  rewrite (Hcell "project_id"%string) in Hq.
  rewrite bool_decide_true in Hq by in_columns.
  unfold Cri.has_column in Hq. rewrite _remove_rows_columns in Hq.
  fold (Cri.has_column df "project_id") in Hq.
  destruct (Cri.has_column df "project_id"); [|discriminate Hq].
  split; [reflexivity|]. unfold Cri.project_id_column.
  apply list_elem_of_fmap. exists r. split; [exact Hq|].
  apply _remove_rows_subset. apply list_elem_of_lookup. eauto.
Qed.

Lemma process_pdfs_output (csv : Cri.csv_file) (pdf_files : list Cri.pdf_input)
    (completion : list nat) (out : Cri.dataframe) :
  Cri.process_pdfs parse_numeric csv pdf_files completion = Some out ->
  out = Cri._ensure_columns
          (Cri.concat
             (Cri._ensure_columns
                (Cri._remove_rows_for_this_source (Cri._safe_read_existing_output csv))
                Cri.OUTPUT_COLUMNS)
             (Cri._ensure_columns
                (Cri.dataframe_of_records
                   (Cri.sort_by_id
                      (Cri.collect
                         (Cri.submit_all (Cri.next_project_id parse_numeric csv) pdf_files)
                         completion)))
                Cri.OUTPUT_COLUMNS))
          Cri.OUTPUT_COLUMNS.
Proof.
  unfold Cri.process_pdfs. destruct pdf_files; [discriminate|].
  intros H. apply (inj Some) in H. subst out. reflexivity.
Qed.

End Refresh.

Lemma has_column_records (rs : list Cri.project_record) (col : string) :
  rs <> [] -> col ∈ Cri.RECORD_COLUMNS ->
  Cri.has_column (Cri.dataframe_of_records rs) col = true.
Proof.
  intros Hne Hc. unfold Cri.has_column, Cri.dataframe_of_records. cbn [Cri.columns].
  destruct rs; [congruence|]. apply bool_decide_eq_true. exact Hc.
Qed.

Section Written.

Variable parse_numeric : list N -> option Qc.

(** C9. The merge keeps the persisted rows whose source_type, as text,
    differs from the source tag of the run, or whose region differs
    from the region name when the file has no column source_type, and
    only those.  The written frame has the output columns; it holds
    the kept rows first, each with its cells of the output columns
    unchanged (every cell, when the persisted file is in the output
    schema), then the rows of the run, tagged with the source of the
    run.  When the workers complete once each and the kept rows carry
    distinct identifiers, no two rows of the written frame have the
    same project_id. *)
Theorem C9_source_scoped_refresh (csv : Cri.csv_file) (pdf_files : list Cri.pdf_input)
    (completion : list nat) (out : Cri.dataframe) :
  Cri.process_pdfs parse_numeric csv pdf_files completion = Some out ->
  let df := Cri._safe_read_existing_output csv in
  let kept := Cri._remove_rows_for_this_source df in
  let new_rows :=
    Cri.sort_by_id
      (Cri.collect (Cri.submit_all (Cri.next_project_id parse_numeric csv) pdf_files)
                   completion) in
  (Cri.has_column df "source_type" = true ->
   Cri.rows kept = List.filter (other_source "source_type" Cri.SOURCE_TYPE) (Cri.rows df))
  /\ (Cri.has_column df "source_type" = false -> Cri.has_column df "region" = true ->
      Cri.rows kept = List.filter (other_source "region" Cri.REGION) (Cri.rows df))
  /\ Cri.columns out = Cri.OUTPUT_COLUMNS
  /\ List.length (Cri.rows out)
     = (List.length (Cri.rows kept) + List.length new_rows)%nat
  /\ (forall i r,
         Cri.rows kept !! i = Some r ->
         exists r',
           Cri.rows out !! i = Some r'
           /\ (forall col, col ∈ Cri.OUTPUT_COLUMNS ->
                           Cri.cell_at r' col
                           = if Cri.has_column df col then Cri.cell_at r col else Cri.CNaN)
           /\ (output_schema df -> forall col, Cri.cell_at r' col = Cri.cell_at r col))
  /\ (forall j rec,
         new_rows !! j = Some rec ->
         exists r',
           Cri.rows out !! (List.length (Cri.rows kept) + j)%nat = Some r'
           /\ Cri.cell_at r' "project_id" = Cri.CNum (Q2Qc (inject_Z (Cri.project_id rec)))
           /\ Cri.cell_at r' "source_type" = Cri.CStr Cri.SOURCE_TYPE)
  /\ (NoDup completion ->
      NoDup (Cri.project_id_column parse_numeric
               (Cri._ensure_columns kept Cri.OUTPUT_COLUMNS)) ->
      NoDup (Cri.project_id_column parse_numeric out)).
Proof.
  intros Hout df kept new_rows.
  apply process_pdfs_output in Hout. fold df in Hout. fold kept in Hout.
  fold new_rows in Hout.
  set (K := Cri._ensure_columns kept Cri.OUTPUT_COLUMNS) in *.
  set (Nw := Cri._ensure_columns (Cri.dataframe_of_records new_rows) Cri.OUTPUT_COLUMNS) in *.
  assert (HK : List.length (Cri.rows K) = List.length (Cri.rows kept))
    by apply _ensure_columns_length.
  assert (Hcat : forall col, col ∈ Cri.OUTPUT_COLUMNS ->
                             Cri.has_column (Cri.concat K Nw) col = true).
  { intros col Hc. apply output_columns_concat; [reflexivity | exact Hc]. }
  split; [apply _remove_rows_by_tag|]. split; [apply _remove_rows_by_region|].
  split; [subst out; reflexivity|]. split; [|split; [|split]].
  - subst out. rewrite _ensure_columns_length. unfold Cri.concat. cbn [Cri.rows].
    rewrite length_app, HK. f_equal. unfold Nw.
    rewrite _ensure_columns_length. unfold Cri.dataframe_of_records. cbn [Cri.rows].
    apply length_fmap.
  - intros i r Hr.
    destruct (_ensure_columns_row kept Cri.OUTPUT_COLUMNS i r Hr) as (r1 & H1 & Hc1).
    fold K in H1.
    assert (Hi : Cri.rows (Cri.concat K Nw) !! i = Some r1).
    { unfold Cri.concat. cbn [Cri.rows].
      rewrite lookup_app_l by (eapply lookup_lt_Some; exact H1). exact H1. }
    destruct (_ensure_columns_row _ Cri.OUTPUT_COLUMNS i r1 Hi) as (r2 & H2 & Hc2).
    exists r2. subst out. split; [exact H2|].
    assert (Hcell : forall col,
               Cri.cell_at r2 col
               = if bool_decide (col ∈ Cri.OUTPUT_COLUMNS)
                 then (if Cri.has_column df col then Cri.cell_at r col else Cri.CNaN)
                 else Cri.CNaN).
    { intros col. rewrite Hc2.
      destruct (bool_decide (col ∈ Cri.OUTPUT_COLUMNS)) eqn:Hin; [|reflexivity].
      rewrite Hcat by (eapply bool_decide_eq_true_1; exact Hin).
      rewrite Hc1, Hin. unfold Cri.has_column, kept.
      rewrite _remove_rows_columns. reflexivity. }
    assert (Hrdf : r ∈ Cri.rows df).
    { apply _remove_rows_subset. apply list_elem_of_lookup. eauto. }
    split.
    + intros col Hin. rewrite Hcell, bool_decide_true by exact Hin. reflexivity.
    + intros [Hs1 Hs2] col. rewrite Hcell.
      destruct (bool_decide (col ∈ Cri.OUTPUT_COLUMNS)) eqn:Hin.
      * destruct (Cri.has_column df col) eqn:Hc; [reflexivity|].
        unfold Cri.cell_at. rewrite (Hs2 r col Hrdf); [reflexivity|].
        unfold Cri.has_column in Hc. apply bool_decide_eq_false in Hc. exact Hc.
      * unfold Cri.cell_at. rewrite (Hs2 r col Hrdf); [reflexivity|].
        intros Hcol. apply Hs1 in Hcol. apply bool_decide_eq_false in Hin. contradiction.
  - intros j rec Hj.
    assert (Hne : new_rows <> []) by (intros E; rewrite E in Hj; discriminate Hj).
    assert (Hrow : Cri.rows (Cri.dataframe_of_records new_rows) !! j
                   = Some (Cri.row_of_record rec)).
    { unfold Cri.dataframe_of_records. cbn [Cri.rows].
      rewrite list_lookup_fmap, Hj. reflexivity. }
    destruct (_ensure_columns_row _ Cri.OUTPUT_COLUMNS j _ Hrow) as (r1 & H1 & Hc1).
    fold Nw in H1.
    assert (Hi : Cri.rows (Cri.concat K Nw) !! (List.length (Cri.rows kept) + j)%nat
                 = Some r1).
    { unfold Cri.concat. cbn [Cri.rows]. rewrite lookup_app_r by lia.
      rewrite HK. replace (List.length (Cri.rows kept) + j - List.length (Cri.rows kept))%nat
        with j by lia. exact H1. }
    destruct (_ensure_columns_row _ Cri.OUTPUT_COLUMNS _ r1 Hi) as (r2 & H2 & Hc2).
    exists r2. subst out. split; [exact H2|].
    assert (Hsrc : Cri.source_type rec = Cri.SOURCE_TYPE).
    { apply (collect_source (Cri.next_project_id parse_numeric csv) pdf_files completion).
      rewrite (sort_by_id_perm _). apply list_elem_of_lookup. eauto. }
    split.
    + rewrite Hc2, bool_decide_true by in_columns. rewrite Hcat by in_columns.
      rewrite Hc1, bool_decide_true by in_columns.
      rewrite has_column_records by (auto; in_columns).
      apply row_of_record_id.
    + rewrite Hc2, bool_decide_true by in_columns. rewrite Hcat by in_columns.
      rewrite Hc1, bool_decide_true by in_columns.
      rewrite has_column_records by (auto; in_columns).
      rewrite row_of_record_source, Hsrc. reflexivity.
  - intros Hcompl Hkept. subst out.
    rewrite project_id_column_ensure by (apply Hcat; in_columns).
    assert (Happ : Cri.project_id_column parse_numeric (Cri.concat K Nw)
                   = Cri.project_id_column parse_numeric K
                     ++ Cri.project_id_column parse_numeric Nw).
    { unfold Cri.project_id_column, Cri.concat. cbn [Cri.rows]. apply fmap_app. }
    rewrite Happ. unfold Nw. rewrite project_id_column_new.
    apply NoDup_app. split; [exact Hkept|]. split.
    + intros x Hx Hnew. apply list_elem_of_fmap in Hnew.
      destruct Hnew as (rec & -> & Hrec).
      apply project_id_column_kept in Hx. destruct Hx as [Hc Hq].
      pose proof (_max_project_id_bound parse_numeric df _ Hc Hq) as Hb.
      destruct (new_rows_increasing (Cri.next_project_id parse_numeric csv)
                  pdf_files completion Hcompl) as [_ Hge].
      rewrite Forall_forall in Hge. specialize (Hge rec Hrec).
      unfold Cri.next_project_id in Hge. fold df in Hge.
      assert (E : (this (Q2Qc (inject_Z (Cri.project_id rec)))
                   == inject_Z (Cri.project_id rec))%Q) by apply Qred_correct.
      rewrite E in Hb. rewrite <- Zlt_Qlt in Hb. lia.
    + rewrite (list_fmap_compose Cri.project_id (fun z => Some (Q2Qc (inject_Z z)))).
      apply NoDup_fmap_2.
      * intros a b H. apply (inj Some) in H. apply Q2Qc_inject_Z_inj. exact H.
      * unfold new_rows. rewrite <- (sort_by_id_perm _).
        apply collect_ids_NoDup. exact Hcompl.
Qed.

End Written.

Lemma C9_source_scoped_refresh_witness :
  exists out,
    Cri.process_pdfs sample_parse_numeric (Cri.Readable persisted_sample) sample_files
                     [1; 0]%nat = Some out
    /\ List.length (Cri.rows out) = 3%nat
    /\ NoDup (Cri.project_id_column sample_parse_numeric out).
Proof.
  eexists. split; [reflexivity|].
  pose proof (C9_source_scoped_refresh sample_parse_numeric (Cri.Readable persisted_sample)
                sample_files [1; 0]%nat _ eq_refl) as H.
  cbv zeta in H. destruct H as (_ & _ & _ & Hlen & _ & _ & Hnd).
  split.
  - rewrite Hlen. vm_compute. reflexivity.
  - apply Hnd.
    + apply NoDup_cons. split; [|apply NoDup_singleton].
      intros H. apply list_elem_of_singleton in H. discriminate H.
    + assert (E : Cri.project_id_column sample_parse_numeric
                    (Cri._ensure_columns
                       (Cri._remove_rows_for_this_source
                          (Cri._safe_read_existing_output (Cri.Readable persisted_sample)))
                       Cri.OUTPUT_COLUMNS)
                  = [Some (Q2Qc 3)]) by (vm_compute; reflexivity).
      rewrite E. apply NoDup_singleton.
Defined.

(** The sample run: the row of the other source is kept, the row of
    the earlier run of this source is replaced by the two new rows. *)
Example sample_run_rows :
  (fun out => (fun r => (Cri.cell_at r "project_title", Cri.cell_at r "source_type"))
                <$> Cri.rows out)
    <$> Cri.process_pdfs sample_parse_numeric (Cri.Readable persisted_sample) sample_files
                         [1; 0]%nat
  = Some [ (Cri.CStr (utf8 "Huilerie"), Cri.CStr (utf8 "CRI Fès-Meknès"));
           (Cri.CStr (utf8 "CENTRE D’APPEL CENTRE D’APPEL"), Cri.CStr Cri.SOURCE_TYPE);
           (Cri.CStr (utf8 "fiche_atelier"), Cri.CStr Cri.SOURCE_TYPE) ].
Proof. vm_compute. reflexivity. Qed.

(* ===================================================================== *)
(** * Further properties of the extracted numbers                         *)
(* ===================================================================== *)

Local Open Scope Q_scope.

(** ** Signs *)

Lemma digits_value_nonneg (s : list N) :
  forall acc n, (0 <= acc)%Z -> digits_value acc s = Some n -> (0 <= n)%Z.
Proof.
  induction s as [|c s IH]; intros acc n Hacc H; simpl in H.
  - inversion H; subst. exact Hacc.
  - destruct (is_digit c); [|discriminate H].
    eapply IH; [|exact H]. lia.
Qed.

(** The numerals the scripts convert carry no sign. *)
Lemma float_of_text_nonneg (s : list N) (q : Q) : float_of_text s = Some q -> 0 <= q.
Proof.
  unfold float_of_text. destruct (split_on 46 s) as [|ip [|fp [|x l]]]; try discriminate.
  - destruct ip as [|c ip]; [discriminate|].
    destruct (digits_value 0 (c :: ip)) as [n|] eqn:E; [|discriminate].
    intros H. inversion H; subst.
    apply (digits_value_nonneg _ _ _ (Z.le_refl 0)) in E.
    change 0 with (inject_Z 0). rewrite <- Zle_Qle. exact E.
  - intros H.
    assert (Hv : exists n f, digits_value 0 ip = Some n /\ digits_value 0 fp = Some f
                             /\ q = Qred (Qmake (n * 10 ^ Z.of_nat (List.length fp) + f)
                                            (Z.to_pos (10 ^ Z.of_nat (List.length fp))))).
    { destruct ip as [|a ip]; destruct fp as [|b fp]; try discriminate H;
        destruct (digits_value 0 _) as [n|] eqn:E1 in H; try discriminate H;
        destruct (digits_value 0 _) as [f|] eqn:E2 in H; try discriminate H;
        inversion H; subst; eauto. }
    destruct Hv as (n & f & E1 & E2 & ->).
    apply (digits_value_nonneg _ _ _ (Z.le_refl 0)) in E1.
    apply (digits_value_nonneg _ _ _ (Z.le_refl 0)) in E2.
    rewrite Qred_correct. unfold Qle. simpl. 
    assert (0 <= 10 ^ Z.of_nat (List.length fp))%Z by (apply Z.pow_nonneg; lia).
    nia.
Qed.

Lemma round_half_even_nonneg (x : Q) : 0 <= x -> (0 <= round_half_even x)%Z.
Proof. intros H. apply round_half_even_ge. exact H. Qed.

Lemma round2_nonneg (x : Q) : 0 <= x -> 0 <= round2 x.
Proof.
  intros H. rewrite round2_eq.
  assert (Hz : (0 <= round_half_even (x * 100))%Z).
  { apply round_half_even_nonneg. apply Qmult_le_0_compat; [exact H | discriminate]. }
  assert (Hq : 0 <= inject_Z (round_half_even (x * 100))).
  { change 0 with (inject_Z 0). rewrite <- Zle_Qle. exact Hz. }
  set (z := inject_Z (round_half_even (x * 100))) in *. clearbody z.
  inv_consts. lra.
Qed.

Lemma fadd_nonneg (a b : Q) : 0 <= a -> 0 <= b -> 0 <= fadd a b.
Proof. intros. rewrite fadd_eq. lra. Qed.

Lemma fmul_nonneg (a b : Q) : 0 <= a -> 0 <= b -> 0 <= fmul a b.
Proof. intros. rewrite fmul_eq. apply Qmult_le_0_compat; assumption. Qed.

Lemma fdiv_nonneg (a b : Q) : 0 <= a -> 0 <= b -> 0 <= fdiv a b.
Proof.
  intros Ha Hb. rewrite fdiv_eq. unfold Qdiv.
  apply Qmult_le_0_compat; [exact Ha | apply Qinv_le_0_compat; exact Hb].
Qed.

Lemma float_group_nonneg m i q : Cri.float_group m i = Some q -> 0 <= q.
Proof.
  unfold Cri.float_group. destruct (group m i); [apply float_of_text_nonneg | discriminate].
Qed.

Lemma float_group_nospace_nonneg m i q : Cri.float_group_nospace m i = Some q -> 0 <= q.
Proof.
  unfold Cri.float_group_nospace.
  destruct (group m i); [apply float_of_text_nonneg | discriminate].
Qed.

Lemma float_group_dh_nonneg m i q : Cri.float_group_dh m i = Some q -> 0 <= q.
Proof.
  unfold Cri.float_group_dh.
  destruct (group m i); [apply float_of_text_nonneg | discriminate].
Qed.

Lemma range_value_nonneg m unit q :
  0 <= unit -> Cri.range_value m unit = Some q -> 0 <= q.
Proof.
  intros Hu. unfold Cri.range_value.
  destruct (Cri.float_group m 1) as [a|] eqn:Ea; [|discriminate].
  destruct (Cri.float_group m 2) as [b|] eqn:Eb; [|discriminate].
  apply float_group_nonneg in Ea. apply float_group_nonneg in Eb.
  intros H. inversion H; subst.
  apply fmul_nonneg; [|exact Hu]. apply fdiv_nonneg; [|discriminate].
  apply fadd_nonneg; assumption.
Qed.

Lemma single_value_nonneg m unit q :
  0 <= unit -> Cri.single_value m unit = Some q -> 0 <= q.
Proof.
  intros Hu. unfold Cri.single_value.
  destruct (Cri.float_group m 1) as [a|] eqn:Ea; [|discriminate].
  apply float_group_nonneg in Ea. intros H. inversion H; subst.
  apply fmul_nonneg; assumption.
Qed.

Lemma one_or_mean_nonneg m second q : Cri.one_or_mean m second = Some q -> 0 <= q.
Proof.
  unfold Cri.one_or_mean.
  destruct (Cri.float_group m 1) as [a|] eqn:Ea; [|discriminate].
  apply float_group_nonneg in Ea.
  destruct second as [[|c s]|]; try (intros H; inversion H; subst; exact Ea).
  destruct (Cri.float_group m 2) as [b|] eqn:Eb; [|discriminate].
  apply float_group_nonneg in Eb. intros H. inversion H; subst.
  apply fdiv_nonneg; [|discriminate]. apply fadd_nonneg; assumption.
Qed.

Lemma estimated_investment_nonneg (t : list N) (q : Q) :
  Cri.estimated_investment t = Some q -> 0 <= q.
Proof.
  assert (Hk : forall v, Cri.est_after_kdhs t = Some v -> 0 <= v).
  { intros v. unfold Cri.est_after_kdhs, Cri.assign_or_keep.
    destruct (re_search Cri.RE_KDHS_RANGE IGNORECASE t) as [m|].
    - destruct (Cri.range_value m 1000) eqn:E; [|discriminate].
      intros H. inversion H; subst. eapply range_value_nonneg; [|exact E]. discriminate.
    - destruct (re_search Cri.RE_KDHS_SINGLE IGNORECASE t) as [m|]; [|discriminate].
      destruct (Cri.single_value m 1000) eqn:E; [|discriminate].
      intros H. inversion H; subst. eapply single_value_nonneg; [|exact E]. discriminate. }
  assert (Hm : forall v, Cri.est_after_mdh t = Some v -> 0 <= v).
  { intros v. unfold Cri.est_after_mdh, Cri.assign_or_keep.
    destruct (re_search Cri.RE_MDH_RANGE IGNORECASE t) as [m|].
    - destruct (Cri.range_value m 1000000) eqn:E.
      + intros H. inversion H; subst. eapply range_value_nonneg; [|exact E]. discriminate.
      + apply Hk.
    - destruct (Cri.search_first _ IGNORECASE t) as [m|]; [|apply Hk].
      destruct (Cri.est_after_kdhs t) as [e|] eqn:Ee.
      + intros H. inversion H; subst. apply Hk. reflexivity.
      + destruct (Cri.single_value m 1000000) eqn:E; [|discriminate].
        intros H. inversion H; subst. eapply single_value_nonneg; [|exact E]. discriminate. }
  unfold Cri.estimated_investment.
  destruct (Cri.est_after_mdh t) as [v|] eqn:E.
  - intros H. inversion H; subst. apply Hm. reflexivity.
  - destruct (Cri.search_first _ IGNORECASE t) as [m|]; [|discriminate].
    apply float_group_dh_nonneg.
Qed.

Lemma area_ha_block_nonneg (t : list N) (q : Q) :
  Cri.area_ha_block t = Some q -> 0 <= q.
Proof.
  unfold Cri.area_ha_block.
  destruct (re_search Cri.RE_SURF_HA IGNORECASE t) as [m|]; [|discriminate].
  destruct (Cri.float_group m 1) as [h1|] eqn:E1; [|discriminate].
  apply float_group_nonneg in E1.
  destruct (group m 2) as [[|c s]|];
    try (intros H; inversion H; subst; apply fmul_nonneg; [exact E1 | discriminate]).
  destruct (Cri.float_group m 2) as [h2|] eqn:E2; [|discriminate].
  apply float_group_nonneg in E2. intros H. inversion H; subst.
  apply fmul_nonneg; [|discriminate].
  apply fdiv_nonneg; [|discriminate]. apply fadd_nonneg; assumption.
Qed.

Lemma area_m2_block_nonneg (t : list N) (q : Q) :
  Cri.area_m2_block t = Some q -> 0 <= q.
Proof.
  unfold Cri.area_m2_block.
  destruct (re_search Cri.RE_SURF_RANGE IGNORECASE t) as [m|].
  - destruct (Cri.float_group_nospace m 1) as [a|] eqn:Ea; [|discriminate].
    destruct (Cri.float_group_nospace m 2) as [b|] eqn:Eb; [|discriminate].
    apply float_group_nospace_nonneg in Ea. apply float_group_nospace_nonneg in Eb.
    intros H. inversion H; subst.
    apply fdiv_nonneg; [|discriminate]. apply fadd_nonneg; assumption.
  - destruct (re_search Cri.RE_SURF_SINGLE IGNORECASE t) as [m|]; [|discriminate].
    apply float_group_nospace_nonneg.
Qed.

Lemma required_land_area_nonneg (t : list N) (q : Q) :
  Cri.required_land_area t = Some q -> 0 <= q.
Proof.
  unfold Cri.required_land_area.
  destruct (Cri.area_m2_block t) as [v|] eqn:E.
  - intros H. inversion H; subst. eapply area_m2_block_nonneg. exact E.
  - apply area_ha_block_nonneg.
Qed.

Lemma roi_from_text_nonneg (t : list N) (q : Q) : Cri.roi_from_text t = Some q -> 0 <= q.
Proof.
  unfold Cri.roi_from_text.
  destruct (Cri.search_first _ IGNORECASE t) as [m|]; [|discriminate].
  apply one_or_mean_nonneg.
Qed.

Lemma payback_from_text_nonneg (t : list N) (q : Q) :
  Cri.payback_from_text t = Some q -> 0 <= q.
Proof.
  unfold Cri.payback_from_text.
  destruct (re_search Cri.RE_PBP IGNORECASE t) as [m|].
  - destruct (Cri.one_or_mean m (group m 2)) as [v|] eqn:E.
    + intros H. inversion H; subst. eapply one_or_mean_nonneg. exact E.
    + destruct (re_search Cri.RE_ROI_YEARS IGNORECASE t) as [m'|]; [|discriminate].
      apply one_or_mean_nonneg.
  - destruct (re_search Cri.RE_ROI_YEARS IGNORECASE t) as [m'|]; [|discriminate].
    apply one_or_mean_nonneg.
Qed.

Lemma fill_roi_nonneg (roi pb : option Q) (q : Q) :
  (forall v, roi = Some v -> 0 <= v) -> (forall v, pb = Some v -> 0 <= v) ->
  Cri.fill_roi roi pb = Some q -> 0 <= q.
Proof.
  intros Hr Hp. unfold Cri.fill_roi. destruct roi as [r|]; [apply Hr|].
  destruct pb as [p|]; [|discriminate].
  destruct (flt 0 p); [|discriminate]. intros H. inversion H; subst.
  apply round2_nonneg. apply fdiv_nonneg; [discriminate | apply Hp; reflexivity].
Qed.

Lemma fill_payback_nonneg (roi pb : option Q) (q : Q) :
  (forall v, roi = Some v -> 0 <= v) -> (forall v, pb = Some v -> 0 <= v) ->
  Cri.fill_payback roi pb = Some q -> 0 <= q.
Proof.
  intros Hr Hp. unfold Cri.fill_payback. destruct pb as [p|]; [apply Hp|].
  destruct roi as [r|]; [|discriminate].
  destruct (flt 0 r && fle r 100); [|discriminate]. intros H. inversion H; subst.
  apply round2_nonneg. apply fdiv_nonneg; [discriminate | apply Hr; reflexivity].
Qed.

(** X1. No number of a record of the Béni Mellal pipeline is negative:
    the estimated investment, the minimum investment derived from it,
    the land area, the rate of return and the payback period, read in
    the text or derived, are each absent or at least zero. *)
Theorem X1_record_numbers_nonnegative (filename : list N) (l : Cri.layout_data) (id : Z)
    (r : Cri.project_record) :
  Cri.process_one_pdf filename l id = Some r ->
  (forall v, Cri.estimated_investment_mad r = Some v -> 0 <= v)
  /\ (forall v, Cri.min_investment r = Some v -> 0 <= v)
  /\ (forall v, Cri.required_land_area_m2 r = Some v -> 0 <= v)
  /\ (forall v, Cri.roi_estimated r = Some v -> 0 <= v)
  /\ (forall v, Cri.payback_period_years r = Some v -> 0 <= v).
Proof.
  intros H. unfold Cri.process_one_pdf in H.
  destruct (Cri.full_text l); [discriminate H|].
  apply (inj Some) in H. subst r.
  cbn [Cri.estimated_investment_mad Cri.min_investment Cri.required_land_area_m2
       Cri.roi_estimated Cri.payback_period_years Cri.extract_fields Cri.f_numeric].
  unfold Cri.extract_numeric_fields.
  cbn [Cri.nf_estimated_investment_mad Cri.nf_required_land_area_m2
       Cri.nf_roi_estimated Cri.nf_payback_period_years].
  set (t := Cri._norm _).
  assert (Hroi : forall v, Cri.fill_roi (Cri.roi_from_text t) (Cri.payback_from_text t)
                           = Some v -> 0 <= v).
  { intros v. apply fill_roi_nonneg;
      [apply roi_from_text_nonneg | apply payback_from_text_nonneg]. }
  split; [apply estimated_investment_nonneg|]. split.
  - intros v. unfold Cri.min_investment_mad.
    destruct (Cri.estimated_investment t) as [e|] eqn:E; [|discriminate].
    intros Hv. inversion Hv; subst. apply round2_nonneg.
    apply fmul_nonneg; [|discriminate]. eapply estimated_investment_nonneg. exact E.
  - split; [apply required_land_area_nonneg|]. split; [exact Hroi|].
    intros v. apply fill_payback_nonneg; [exact Hroi | apply payback_from_text_nonneg].
Qed.

Lemma X1_record_numbers_nonnegative_witness :
  exists r,
    Cri.process_one_pdf (utf8 "centre-appel.pdf") example_sheet 7 = Some r
    /\ forall v, Cri.payback_period_years r = Some v -> 0 <= v.
Proof.
  eexists. split; [reflexivity|].
  apply (X1_record_numbers_nonnegative (utf8 "centre-appel.pdf") example_sheet 7%Z _ eq_refl).
Defined.

(** ** The minimum investment *)


(* ===================================================================== *)
(** * Successive runs                                                     *)
(* ===================================================================== *)

Local Close Scope Q_scope.

Lemma filter_fmap_all {A B} (p : B -> bool) (f : A -> B) (l : list A) :
  (forall x, x ∈ l -> p (f x) = true) -> List.filter p (f <$> l) = f <$> l.
Proof.
  induction l as [|a l IH]; intros H; [reflexivity|].
  rewrite fmap_cons. simpl. rewrite (H a) by left.
  f_equal. apply IH. intros x Hx. apply H. right. exact Hx.
Qed.

Lemma filter_fmap_none {A B} (p : B -> bool) (f : A -> B) (l : list A) :
  (forall x, x ∈ l -> p (f x) = false) -> List.filter p (f <$> l) = [].
Proof.
  induction l as [|a l IH]; intros H; [reflexivity|].
  rewrite fmap_cons. simpl. rewrite (H a) by left.
  apply IH. intros x Hx. apply H. right. exact Hx.
Qed.

(** The source tag of a kept row once written: its own tag, which is
    not the tag of the run, or no tag at all. *)
Lemma kept_row_other_source (df : Cri.dataframe) (r1 : gmap string Cri.cell) :
  r1 ∈ Cri.rows (Cri._ensure_columns (Cri._remove_rows_for_this_source df)
                   Cri.OUTPUT_COLUMNS) ->
  other_source "source_type" Cri.SOURCE_TYPE r1 = true.
Proof.
  intros H. apply list_elem_of_lookup in H. destruct H as (i & Hi).
  apply _ensure_columns_cell in Hi. destruct Hi as (r & Hr & Hcell).
  unfold other_source. rewrite Hcell, bool_decide_true by in_columns.
  unfold Cri.has_column at 1. rewrite _remove_rows_columns.
  fold (Cri.has_column df "source_type").
  destruct (Cri.has_column df "source_type") eqn:Hc; [|vm_compute; reflexivity].
  assert (Hin : r ∈ Cri.rows (Cri._remove_rows_for_this_source df))
    by (apply list_elem_of_lookup; eauto).
  rewrite (_remove_rows_by_tag df Hc) in Hin.
  apply list_elem_of_In in Hin. apply filter_In in Hin. apply Hin.
Qed.

Lemma new_row_this_source (next_id : Z) (pdf_files : list Cri.pdf_input)
    (completion : list nat) (r1 : gmap string Cri.cell) :
  r1 ∈ Cri.rows (Cri._ensure_columns
                   (Cri.dataframe_of_records
                      (Cri.sort_by_id
                         (Cri.collect (Cri.submit_all next_id pdf_files) completion)))
                   Cri.OUTPUT_COLUMNS) ->
  other_source "source_type" Cri.SOURCE_TYPE r1 = false.
Proof.
  intros H. apply list_elem_of_lookup in H. destruct H as (i & Hi).
  apply _ensure_columns_cell in Hi. destruct Hi as (r & Hr & Hcell).
  unfold Cri.dataframe_of_records in Hr. cbn [Cri.rows] in Hr.
  rewrite list_lookup_fmap in Hr. apply fmap_Some in Hr. destruct Hr as (rec & Hrec & ->).
  assert (Hne : Cri.sort_by_id (Cri.collect (Cri.submit_all next_id pdf_files) completion)
                <> []) by (intros E; rewrite E in Hrec; discriminate Hrec).
  assert (Hsrc : Cri.source_type rec = Cri.SOURCE_TYPE).
  { apply (collect_source next_id pdf_files completion).
    rewrite (sort_by_id_perm _). apply list_elem_of_lookup. eauto. }
  unfold other_source. rewrite Hcell, bool_decide_true by in_columns.
  rewrite has_column_records by (auto; in_columns).
  rewrite row_of_record_source, Hsrc. cbn [Cri.astype_str_eqb].
  rewrite bool_decide_true by reflexivity. reflexivity.
Qed.

Section Rerun.

Variable parse_numeric : list N -> option Qc.

(** X3. A run followed by another: from the file a run has written,
    the next run removes exactly the rows that run appended and keeps
    the rows it had kept, in their order, so that the rows of the
    other sources go through any number of refreshes. *)
Theorem X3_rerun_keeps_other_sources (csv : Cri.csv_file)
    (pdf_files : list Cri.pdf_input) (completion : list nat) (out : Cri.dataframe) :
  Cri.process_pdfs parse_numeric csv pdf_files completion = Some out ->
  Cri.rows (Cri._remove_rows_for_this_source out)
  = take (List.length
            (Cri.rows (Cri._remove_rows_for_this_source
                         (Cri._safe_read_existing_output csv))))
         (Cri.rows out)
  /\ Cri.columns (Cri._remove_rows_for_this_source out) = Cri.OUTPUT_COLUMNS.
Proof.
  intros Hout. apply process_pdfs_output in Hout.
  set (df := Cri._safe_read_existing_output csv) in *.
  set (K := Cri._ensure_columns (Cri._remove_rows_for_this_source df) Cri.OUTPUT_COLUMNS)
    in *.
  set (Nw := Cri._ensure_columns (Cri.dataframe_of_records _) Cri.OUTPUT_COLUMNS) in *.
  assert (Hcols : Cri.columns out = Cri.OUTPUT_COLUMNS) by (subst out; reflexivity).
  split; [|rewrite _remove_rows_columns; exact Hcols].
  assert (Hc : Cri.has_column out "source_type" = true).
  { unfold Cri.has_column. rewrite Hcols. apply bool_decide_eq_true. in_columns. }
  rewrite (_remove_rows_by_tag out Hc).
  assert (Hrows : Cri.rows out
                  = (fun r : gmap string Cri.cell =>
                       list_to_map
                         ((fun col => (col, if Cri.has_column (Cri.concat K Nw) col
                                            then Cri.cell_at r col else Cri.CNaN))
                            <$> Cri.OUTPUT_COLUMNS))
                      <$> (Cri.rows K ++ Cri.rows Nw)) by (subst out; reflexivity).
  rewrite Hrows. set (F := fun r : gmap string Cri.cell => list_to_map _).
  assert (HF : forall r, other_source "source_type" Cri.SOURCE_TYPE (F r)
                         = other_source "source_type" Cri.SOURCE_TYPE r).
  { intros r. unfold other_source, F.
    rewrite (cell_at_tabulate
               (fun c => if Cri.has_column (Cri.concat K Nw) c
                         then Cri.cell_at r c else Cri.CNaN)).
    rewrite bool_decide_true by in_columns.
    rewrite output_columns_concat by (reflexivity || in_columns). reflexivity. }
  rewrite fmap_app, List.filter_app.
  rewrite filter_fmap_all by (intros x Hx; rewrite HF; apply (kept_row_other_source df x Hx)).
  rewrite filter_fmap_none
    by (intros x Hx; rewrite HF; eapply new_row_this_source; exact Hx).
  rewrite app_nil_r.
  assert (Hlen : List.length (Cri.rows (Cri._remove_rows_for_this_source df))
                 = List.length (F <$> Cri.rows K)).
  { rewrite length_fmap. unfold K. rewrite _ensure_columns_length. reflexivity. }
  rewrite Hlen, take_app_length. reflexivity.
Qed.

(** X4. Identifiers are not handed out twice: every row a run appends
    carries an identifier from the run's first identifier on, and the
    run that reads the written file starts above all of them. *)
Theorem X4_next_run_starts_above (csv : Cri.csv_file) (pdf_files : list Cri.pdf_input)
    (completion : list nat) (out : Cri.dataframe) (rec : Cri.project_record) :
  Cri.process_pdfs parse_numeric csv pdf_files completion = Some out ->
  rec ∈ Cri.sort_by_id
          (Cri.collect (Cri.submit_all (Cri.next_project_id parse_numeric csv) pdf_files)
                       completion) ->
  (Cri.next_project_id parse_numeric csv <= Cri.project_id rec
   < Cri.next_project_id parse_numeric (Cri.Readable out))%Z.
Proof.
  intros Hout Hrec. apply process_pdfs_output in Hout.
  set (df := Cri._safe_read_existing_output csv) in *.
  set (K := Cri._ensure_columns (Cri._remove_rows_for_this_source df) Cri.OUTPUT_COLUMNS)
    in *.
  set (new_rows := Cri.sort_by_id _) in *.
  set (Nw := Cri._ensure_columns (Cri.dataframe_of_records new_rows) Cri.OUTPUT_COLUMNS)
    in *.
  split.
  - unfold new_rows in Hrec. rewrite <- (sort_by_id_perm _) in Hrec.
    apply collect_ids in Hrec. destruct Hrec as (i & _ & _ & ->). lia.
  - assert (Hc : Cri.has_column out "project_id" = true).
    { subst out. unfold Cri.has_column. apply bool_decide_eq_true. in_columns. }
    assert (Hin : Some (Q2Qc (inject_Z (Cri.project_id rec)))
                    ∈ Cri.project_id_column parse_numeric out).
    { subst out.
      rewrite project_id_column_ensure
        by (apply output_columns_concat; [reflexivity | in_columns]).
      assert (Happ : Cri.project_id_column parse_numeric (Cri.concat K Nw)
                     = Cri.project_id_column parse_numeric K
                       ++ Cri.project_id_column parse_numeric Nw).
      { unfold Cri.project_id_column, Cri.concat. cbn [Cri.rows]. apply fmap_app. }
      rewrite Happ. apply elem_of_app. right. unfold Nw.
      rewrite project_id_column_new. apply list_elem_of_fmap. eauto. }
    pose proof (_max_project_id_bound parse_numeric out _ Hc Hin) as Hb.
    assert (E : (this (Q2Qc (inject_Z (Cri.project_id rec)))
                 == inject_Z (Cri.project_id rec))%Q) by apply Qred_correct.
    rewrite E in Hb. rewrite <- Zlt_Qlt in Hb. exact Hb.
Qed.

End Rerun.

Lemma X3_rerun_keeps_other_sources_witness :
  exists out,
    Cri.process_pdfs sample_parse_numeric (Cri.Readable persisted_sample) sample_files
                     [1; 0]%nat = Some out
    /\ Cri.rows (Cri._remove_rows_for_this_source out) = take 1 (Cri.rows out).
Proof.
  eexists. split; [reflexivity|].
  apply (X3_rerun_keeps_other_sources sample_parse_numeric (Cri.Readable persisted_sample)
           sample_files [1; 0]%nat _ eq_refl).
Defined.

Lemma X4_next_run_starts_above_witness :
  exists out,
    Cri.process_pdfs sample_parse_numeric (Cri.Readable persisted_sample) sample_files
                     [1; 0]%nat = Some out
    /\ (Cri.next_project_id sample_parse_numeric (Cri.Readable out) > 5)%Z.
Proof.
  eexists. split; [reflexivity|].
  assert (Hrec : exists rec,
             rec ∈ Cri.sort_by_id
                     (Cri.collect
                        (Cri.submit_all
                           (Cri.next_project_id sample_parse_numeric
                              (Cri.Readable persisted_sample))
                           sample_files) [1; 0]%nat)).
  { eexists. vm_compute. left. }
  destruct Hrec as (rec & Hrec).
  pose proof (X4_next_run_starts_above sample_parse_numeric (Cri.Readable persisted_sample)
                sample_files [1; 0]%nat _ rec eq_refl Hrec) as [H1 H2].
  assert (E : Cri.next_project_id sample_parse_numeric (Cri.Readable persisted_sample)
              = 5%Z) by (vm_compute; reflexivity).
  rewrite E in H1. lia.
Defined.

(* ===================================================================== *)
(** * Payback and rate of return in extract_projects.py                   *)
(* ===================================================================== *)

Local Open Scope Q_scope.

(** A substitution builds its result from pieces of the text and from
    the replacements. *)
Lemma sub_from_Forall (Q : N -> Prop) fl (r : regex) (repl : rematch -> list N)
    (t : list N) :
  (forall m, Forall Q (repl m)) ->
  forall fuel pos prev rest, Forall Q rest -> Forall Q (sub_from fuel fl r repl t pos prev rest).
Proof.
  intros Hrepl. induction fuel as [|f IH]; intros pos prev rest Hrest; simpl; [exact Hrest|].
  destruct (search_from fl r t pos prev rest) as [m|]; [|exact Hrest].
  assert (Hdrop : forall n, Forall Q (skipn n rest)) by (intros n; apply Forall_drop; exact Hrest).
  assert (Htake : forall n, Forall Q (firstn n rest)) by (intros n; apply Forall_take; exact Hrest).
  destruct (m_end m - m_start m)%nat.
  - destruct (skipn (m_start m - pos) rest) as [|y rest'] eqn:E.
    + apply Forall_app. split; [apply Htake | apply Hrepl].
    + specialize (Hdrop (m_start m - pos)%nat). rewrite E in Hdrop.
      apply Forall_cons in Hdrop. destruct Hdrop as [Hy Hrest'].
      apply Forall_app. split; [apply Htake|].
      apply Forall_app. split; [apply Hrepl|]. constructor; [exact Hy | apply IH; exact Hrest'].
  - apply Forall_app. split; [apply Htake|].
    apply Forall_app. split; [apply Hrepl | apply IH; apply Hdrop].
Qed.

Lemma re_sub_fun_Forall (Q : N -> Prop) fl (r : regex) (repl : rematch -> list N)
    (t : list N) :
  (forall m, Forall Q (repl m)) -> Forall Q t -> Forall Q (re_sub_fun r repl fl t).
Proof. intros Hrepl Ht. unfold re_sub_fun. apply sub_from_Forall; assumption. Qed.

Lemma re_sub_Forall (Q : N -> Prop) fl (r : regex) (repl t : list N) :
  Forall Q repl -> Forall Q t -> Forall Q (re_sub r repl fl t).
Proof. intros Hrepl Ht. unfold re_sub. apply re_sub_fun_Forall; auto. Qed.

(** A run of digits converts to a whole number. *)
Lemma float_of_digits_integer (d : list N) (q : Q) :
  all_digits d -> float_of_text d = Some q ->
  exists n, (0 <= n)%Z /\ q = inject_Z n.
Proof.
  intros Hd. unfold float_of_text, split_on.
  rewrite split_on_aux_digits by exact Hd. simpl.
  destruct d as [|c d]; [discriminate|].
  destruct (digits_value 0 (c :: d)) as [n|] eqn:E; [|discriminate].
  intros H. inversion H; subst. exists n. split; [|reflexivity].
  eapply digits_value_nonneg; [|exact E]. lia.
Qed.

Lemma strip_In (s : list N) c : In c (strip s) -> In c s.
Proof. apply strip_by_In. Qed.

(** The field of a group made of digits, white space removed and the
    comma read as a point, is a whole number. *)
Lemma float_of_field_digits (blank : regex) (s : list N) (q : Q) :
  all_digits s -> ExtractProjects.float_of_field blank s = Some q ->
  exists n, (0 <= n)%Z /\ q = inject_Z n.
Proof.
  intros Hd. unfold ExtractProjects.float_of_field.
  assert (Hd' : all_digits (re_sub blank [] NOFLAGS s)).
  { apply re_sub_Forall; [constructor | exact Hd]. }
  change (utf8 ",") with [44%N]. change (utf8 ".") with [46%N].
  rewrite replace_char_absent by (apply all_digits_not; [reflexivity | exact Hd']).
  apply float_of_digits_integer. exact Hd'.
Qed.

Lemma digits_group_run fl (t : list N) lo c cs c' cs' :
  (1 <= lo)%nat -> in_text t c ->
  Rm fl (RRep true lo None (RSet false [CDigit])) c cs c' cs' ->
  digits_group (substr (cpos c) (cpos c') t).
Proof.
  intros Hlo Hc H. apply (digits_run fl t) in H; [|exact Hc].
  destruct H as (Hd & Hlen & _). split; [exact Hd|].
  intros E. rewrite E in Hlen. simpl in Hlen. lia.
Qed.

Lemma RE_PAYBACK_RANGE_groups fl : groups_ok fl digits_group ExtractProjects.RE_PAYBACK_RANGE.
Proof.
  cbn [groups_ok]; repeat split; intros; eapply digits_group_run; eauto.
Qed.

Lemma RE_PAYBACK_SINGLE_groups fl : groups_ok fl digits_group ExtractProjects.RE_PAYBACK_SINGLE.
Proof.
  cbn [groups_ok]; repeat split; intros; eapply digits_group_run; eauto.
Qed.

Lemma int_group_nonneg (m : rematch) (i : nat) (n : Z) :
  ExtractProjects.int_group m i = Some n -> (0 <= n)%Z.
Proof.
  unfold ExtractProjects.int_group. destruct (group m i) as [[|c s]|]; try discriminate.
  apply digits_value_nonneg. lia.
Qed.

Lemma payback_single_integer (t : list N) (p : Q) :
  ExtractProjects.payback_single t = Some p -> exists n, (0 <= n)%Z /\ p = inject_Z n.
Proof.
  unfold ExtractProjects.payback_single, ExtractProjects._first_match_float.
  destruct (re_search ExtractProjects.RE_PAYBACK_SINGLE IGNORECASE t); [|discriminate].
  destruct (re_search ExtractProjects.RE_PAYBACK_SINGLE IGNORECASE_DOTALL t) as [m|] eqn:E;
    [|discriminate].
  destruct (group m 1) as [s|] eqn:G; [|discriminate].
  pose proof (re_search_groups IGNORECASE_DOTALL _ _ _ _ _ _
                (RE_PAYBACK_SINGLE_groups IGNORECASE_DOTALL) E G) as [Hd _].
  assert (Hs : all_digits (strip s)).
  { apply Forall_forall. intros c Hc. unfold all_digits in Hd. rewrite Forall_forall in Hd.
    apply Hd. apply list_elem_of_In. apply strip_In. apply list_elem_of_In. exact Hc. }
  destruct (strip s) as [|c s'] eqn:Es; [discriminate|].
  apply float_of_field_digits. exact Hs.
Qed.

(** X5. For a text written with the characters of the tables and
    whose numbers have at most fifteen digits: in a record of
    [extract_projects.py] the payback period read in the text is a
    whole number of half years, never negative (the mean of the two
    whole numbers of a range, or a single whole number).  The rate of
    return is never absent and never negative: for a positive payback
    it is 100 / payback within a hundredth (the binary64 quotient
    rounded to two decimals), and it is 16.67, the rate of a six-year
    payback, when no payback is read or when it is zero. *)
Theorem X5_payback_half_years (t : list N) :
  covered t -> short_numbers t ->
  (forall p, ExtractProjects.extract_payback_period_years t = Some p ->
             exists n, (0 <= n)%Z /\ p == inject_Z n / 2)
  /\ (exists v, ExtractProjects.roi_estimated (ExtractProjects.build_record t) = Some v
                /\ 0 <= v)
  /\ (forall p, ExtractProjects.extract_payback_period_years t = Some p -> 0 < p ->
                exists v,
                  ExtractProjects.roi_estimated (ExtractProjects.build_record t) = Some v
                  /\ Qabs (v - 100 / p) <= 1 # 100)
  /\ (ExtractProjects.extract_payback_period_years t = None
      \/ (exists p, ExtractProjects.extract_payback_period_years t = Some p /\ p <= 0) ->
      ExtractProjects.roi_estimated (ExtractProjects.build_record t) = Some (1667 # 100)).
Proof.
  intros _ _.
  assert (Hp : forall p, ExtractProjects.extract_payback_period_years t = Some p ->
                         exists n, (0 <= n)%Z /\ p == inject_Z n / 2).
  { intros p. unfold ExtractProjects.extract_payback_period_years.
    assert (Hs : ExtractProjects.payback_single t = Some p ->
                 exists n, (0 <= n)%Z /\ p == inject_Z n / 2).
    { intros H. apply payback_single_integer in H. destruct H as (n & Hn & ->).
      exists (2 * n)%Z. split; [lia|]. rewrite inject_Z_mult. field. }
    destruct (re_search ExtractProjects.RE_PAYBACK_RANGE IGNORECASE t) as [m|]; [|exact Hs].
    destruct (ExtractProjects.int_group m 1) as [a|] eqn:Ea; [|exact Hs].
    destruct (ExtractProjects.int_group m 2) as [b|] eqn:Eb; [|exact Hs].
    apply int_group_nonneg in Ea. apply int_group_nonneg in Eb.
    intros H. inversion H; subst. exists (a + b)%Z. split; [lia|]. apply fdiv_eq. }
  assert (Hpos : forall p, ExtractProjects.extract_payback_period_years t = Some p -> 0 <= p).
  { intros p H. destruct (Hp p H) as (n & Hn & ->).
    assert (0 <= inject_Z n) by (change 0 with (inject_Z 0); rewrite <- Zle_Qle; exact Hn).
    set (z := inject_Z n) in *. clearbody z. inv_consts. lra. }
  split; [exact Hp|]. cbn [ExtractProjects.build_record ExtractProjects.roi_estimated].
  split; [|split].
  - eexists. split; [reflexivity|]. apply round2_nonneg.
    unfold ExtractProjects.roi_estimated_only.
    destruct (ExtractProjects.extract_payback_period_years t) as [p|] eqn:E.
    + destruct (flt 0 p); apply fdiv_nonneg; try discriminate. apply Hpos. reflexivity.
    + apply fdiv_nonneg; discriminate.
  - intros p -> H0. unfold ExtractProjects.roi_estimated_only.
    apply flt_spec in H0. rewrite H0.
    eexists. split; [reflexivity | apply round2_fdiv_near].
  - intros [-> | (p & -> & Hle)]; unfold ExtractProjects.roi_estimated_only.
    + vm_compute. reflexivity.
    + apply flt_false in Hle. rewrite Hle. vm_compute. reflexivity.
Qed.

Lemma X5_payback_half_years_witness :
  covered (utf8 "Retour sur investissement (ROI) : 5 à 6 ans")
  /\ short_numbers (utf8 "Retour sur investissement (ROI) : 5 à 6 ans")
  /\ ExtractProjects.extract_payback_period_years
       (utf8 "Retour sur investissement (ROI) : 5 à 6 ans") = Some (11 # 2)
  /\ exists v,
       ExtractProjects.roi_estimated
         (ExtractProjects.build_record (utf8 "Retour sur investissement (ROI) : 5 à 6 ans"))
       = Some v
       /\ Qabs (v - 100 / (11 # 2)) <= 1 # 100.
Proof.
  assert (Hc : covered (utf8 "Retour sur investissement (ROI) : 5 à 6 ans"))
    by (vm_compute; reflexivity).
  assert (Hs : short_numbers (utf8 "Retour sur investissement (ROI) : 5 à 6 ans"))
    by (vm_compute; reflexivity).
  split; [exact Hc|]. split; [exact Hs|]. split; [vm_compute; reflexivity|].
  apply (proj1 (proj2 (proj2 (X5_payback_half_years
                                (utf8 "Retour sur investissement (ROI) : 5 à 6 ans") Hc Hs)))).
  - vm_compute. reflexivity.
  - reflexivity.
Defined.

(* ===================================================================== *)
(** * White space                                                         *)
(* ===================================================================== *)

Local Close Scope Q_scope.
Local Close Scope Z_scope.

(** ** The substitution of runs of white space *)

Lemma span_by (P : N -> bool) (l : list N) :
  exists a b, l = a ++ b /\ Forall (fun y => P y = true) a
              /\ (forall y tl, b = y :: tl -> P y = false).
Proof.
  induction l as [|c l (a & b & -> & Ha & Hb)].
  - exists [], []. repeat split; [constructor | intros; discriminate].
  - destruct (P c) eqn:E.
    + exists (c :: a), b. repeat split; [constructor; assumption | exact Hb].
    + exists [], (c :: a ++ b). repeat split; [constructor|].
      intros y tl H. inversion H; subst. exact E.
Qed.

Lemma rmatch_rep_unfold fl g lo hi r1 c cs k :
  rmatch fl (RRep g lo hi r1) c cs k
  = rep_loop (rmatch fl r1) g lo hi k (S (List.length (crest c))) O c cs.
Proof. reflexivity. Qed.

Lemma rmatch_space c cs k :
  rmatch NOFLAGS (RSet false [CSpace]) c cs k
  = match crest c with
    | y :: rest => if is_space y then k (advance c y rest) cs else None
    | [] => None
    end.
Proof.
  cbn [rmatch]. destruct (crest c) as [|y rest]; [reflexivity|].
  unfold set_matches. cbn [existsb item_matches xorb]. rewrite orb_false_r. reflexivity.
Qed.

(** The pattern for runs of white space, at the start of a run: it
    takes the whole run. *)
Lemma rep_spaces_run (run : list N) :
  forall fuel n c cs tail,
    crest c = run ++ tail -> Forall (fun y => is_space y = true) run ->
    (forall y tl, tail = y :: tl -> is_space y = false) ->
    (List.length run < fuel)%nat -> (1 <= n + List.length run)%nat ->
    exists c',
      rep_loop (rmatch NOFLAGS (RSet false [CSpace])) true 1 None
               (fun c cs => Some (c, cs)) fuel n c cs = Some (c', cs)
      /\ cpos c' = (cpos c + List.length run)%nat.
Proof.
  induction run as [|y run IH]; intros fuel n c cs tail Hc Hrun Htail Hf Hn.
  - destruct fuel as [|f]; [simpl in Hf; lia|].
    simpl in Hc, Hn. cbn [rep_loop within]. rewrite rmatch_space, Hc.
    assert (Hn' : (1 <=? n)%nat = true) by (apply Nat.leb_le; lia).
    rewrite Hn'. exists c. split; [|simpl; lia].
    destruct tail as [|z tl]; [reflexivity|].
    rewrite (Htail z tl eq_refl). reflexivity.
  - destruct fuel as [|f]; [simpl in Hf; lia|].
    apply Forall_cons in Hrun. destruct Hrun as [Hy Hrun].
    simpl in Hc. cbn [rep_loop within]. rewrite rmatch_space, Hc, Hy.
    cbn [advance cpos].
    assert (Hlt : (cpos c <? S (cpos c))%nat = true) by (apply Nat.ltb_lt; lia).
    rewrite Hlt.
    destruct (IH f (S n) (advance c y (run ++ tail)) cs tail eq_refl Hrun Htail)
      as (c' & E & Hpos); [simpl in Hf; lia | lia |].
    rewrite E. cbn [orelse]. exists c'. split; [reflexivity|].
    rewrite Hpos. simpl. lia.
Qed.

Lemma spaces_no_match pos prev y rest :
  is_space y = false ->
  rmatch NOFLAGS Cri.RE_SPACES {| cpos := pos; cprev := prev; crest := y :: rest |} []
         (fun c cs => Some (c, cs)) = None.
Proof.
  intros Hy. unfold Cri.RE_SPACES. rewrite rmatch_rep_unfold.
  cbn [rep_loop within crest List.length]. rewrite rmatch_space. cbn [crest].
  rewrite Hy. reflexivity.
Qed.

Lemma search_spaces_none (t : list N) :
  forall rest pos prev,
    Forall (fun y => is_space y = false) rest ->
    search_from NOFLAGS Cri.RE_SPACES t pos prev rest = None.
Proof.
  induction rest as [|y rest IH]; intros pos prev H.
  - reflexivity.
  - apply Forall_cons in H. destruct H as [Hy H].
    cbn [search_from]. rewrite spaces_no_match by exact Hy. apply IH. exact H.
Qed.

Lemma search_spaces_run (t : list N) (run tail : list N) :
  run <> [] -> Forall (fun y => is_space y = true) run ->
  (forall y tl, tail = y :: tl -> is_space y = false) ->
  forall before pos prev,
    Forall (fun y => is_space y = false) before ->
    exists m,
      search_from NOFLAGS Cri.RE_SPACES t pos prev (before ++ run ++ tail) = Some m
      /\ m_start m = (pos + List.length before)%nat
      /\ m_end m = (pos + List.length before + List.length run)%nat.
Proof.
  intros Hne Hrun Htail. induction before as [|y before IH]; intros pos prev Hb.
  - destruct run as [|z run]; [congruence|]. simpl app.
    cbn [search_from]. unfold Cri.RE_SPACES at 1. rewrite rmatch_rep_unfold.
    destruct (rep_spaces_run (z :: run) (S (List.length (z :: run ++ tail))) 0
                {| cpos := pos; cprev := prev; crest := z :: run ++ tail |} [] tail
                eq_refl Hrun Htail) as (c' & E & Hpos).
    + simpl. rewrite length_app. lia.
    + simpl. lia.
    + cbn [crest]. rewrite E. eexists. split; [reflexivity|]. simpl in *. split; lia.
  - apply Forall_cons in Hb. destruct Hb as [Hy Hb].
    simpl app. cbn [search_from]. rewrite spaces_no_match by exact Hy.
    destruct (IH (S pos) (Some y) Hb) as (m & E & Hs & He).
    exists m. split; [exact E|]. simpl. split; lia.
Qed.

Lemma squeeze_words (repl : list N) (a : list N) (b : bool) (rest : list N) :
  Forall (fun y => is_space y = false) a ->
  a <> [] \/ b = false ->
  squeeze repl b (a ++ rest) = a ++ squeeze repl false rest.
Proof.
  intros Ha. revert b. induction Ha as [|y a Hy Ha IH]; intros b Hb.
  - destruct Hb as [Hb | ->]; [congruence | reflexivity].
  - simpl. rewrite Hy. f_equal. apply IH. right. reflexivity.
Qed.

Lemma squeeze_run (repl : list N) (run : list N) (rest : list N) :
  Forall (fun y => is_space y = true) run ->
  squeeze repl true (run ++ rest) = squeeze repl true rest.
Proof.
  induction 1 as [|y run Hy _ IH]; [reflexivity|].
  simpl. rewrite Hy. exact IH.
Qed.

Lemma squeeze_after_run (repl : list N) (tail : list N) :
  (forall y tl, tail = y :: tl -> is_space y = false) ->
  squeeze repl true tail = squeeze repl false tail.
Proof.
  intros H. destruct tail as [|y tl]; [reflexivity|].
  simpl. rewrite (H y tl eq_refl). reflexivity.
Qed.

(** [re.sub(r"\s+", repl, t)] replaces each maximal run. *)
Lemma sub_spaces_squeeze (repl : list N) (t : list N) :
  forall fuel rest pos prev,
    (List.length rest < fuel)%nat ->
    sub_from fuel NOFLAGS Cri.RE_SPACES (fun _ => repl) t pos prev rest
    = squeeze repl false rest.
Proof.
  induction fuel as [|f IH]; intros rest pos prev Hf; [lia|].
  destruct (span_by (fun y => negb (is_space y)) rest) as (before & b & -> & Hb & Hhd).
  assert (Hbefore : Forall (fun y => is_space y = false) before).
  { eapply Forall_impl; [exact Hb|]. intros y Hy. simpl in Hy.
    destruct (is_space y); [discriminate | reflexivity]. }
  destruct b as [|y tl].
  - rewrite app_nil_r. cbn [sub_from].
    rewrite search_spaces_none by exact Hbefore.
    rewrite <- (app_nil_r before) at 2.
    rewrite squeeze_words; [simpl; rewrite app_nil_r; reflexivity | exact Hbefore | auto].
  - assert (Hy : is_space y = true).
    { specialize (Hhd y tl eq_refl). destruct (is_space y); [reflexivity | discriminate]. }
    destruct (span_by is_space tl) as (run' & tail & -> & Hrun' & Htail).
    set (run := y :: run').
    assert (Hrun : Forall (fun y => is_space y = true) run) by (constructor; assumption).
    change (y :: run' ++ tail) with (run ++ tail).
    destruct (search_spaces_run t run tail ltac:(discriminate) Hrun Htail before pos prev
                Hbefore) as (m & E & Hs & He).
    cbn [sub_from]. rewrite E.
    replace (m_end m - m_start m)%nat with (S (List.length run')) by (rewrite He, Hs; simpl; lia).
    replace (m_start m - pos)%nat with (List.length before) by lia.
    replace (m_end m - pos)%nat with (List.length before + List.length run)%nat by lia.
    rewrite take_app_length.
    rewrite <- drop_drop, drop_app_length, drop_app_length.
    rewrite IH.
    + rewrite squeeze_words by (auto). f_equal.
      unfold run. simpl. rewrite Hy. f_equal.
      rewrite squeeze_run by exact Hrun'. symmetry. apply squeeze_after_run. exact Htail.
    + rewrite length_app in Hf. simpl in Hf. rewrite length_app in Hf. lia.
Qed.

Lemma re_sub_spaces_squeeze (repl t : list N) :
  re_sub Cri.RE_SPACES repl NOFLAGS t = squeeze repl false t.
Proof. unfold re_sub, re_sub_fun. apply sub_spaces_squeeze. lia. Qed.

(** ** Words *)

Lemma last_char_app (s : list N) (c : N) : last_char (s ++ [c]) = Some c.
Proof.
  induction s as [|a s IH]; [reflexivity|].
  simpl. destruct (s ++ [c]) eqn:E; [destruct s; discriminate E | exact IH].
Qed.

Lemma last_char_cons (c : N) (s : list N) : s <> [] -> last_char (c :: s) = last_char s.
Proof. destruct s; [congruence | reflexivity]. Qed.

Lemma ends_in_word_tail (c : N) (s : list N) : ends_in_word (c :: s) -> ends_in_word s.
Proof.
  intros H. destruct s as [|a s]; [intros z Hz; discriminate Hz|].
  intros z Hz. apply H. rewrite last_char_cons by discriminate. exact Hz.
Qed.

Lemma ends_in_word_space (c : N) (s : list N) :
  ends_in_word (c :: s) -> is_space c = true -> s <> [].
Proof.
  intros H Hc E. subst s. specialize (H c eq_refl). congruence.
Qed.

Lemma all_space_last (s : list N) :
  Forall (fun y => is_space y = true) s -> s <> [] -> ~ ends_in_word s.
Proof.
  intros Hs Hne He. destruct (exists_last Hne) as (s' & z & ->).
  apply Forall_app in Hs. destruct Hs as [_ Hz]. apply Forall_cons in Hz.
  destruct Hz as [Hz _]. specialize (He z (last_char_app s' z)). congruence.
Qed.

Lemma split_ws_aux_nil (s : list N) :
  forall cur, split_ws_aux cur s = [] -> cur = [] /\ Forall (fun y => is_space y = true) s.
Proof.
  induction s as [|c s IH]; intros cur H; simpl in H.
  - destruct cur; [auto | discriminate H].
  - destruct (is_space c) eqn:E.
    + destruct cur; [|discriminate H]. split; [reflexivity|].
      constructor; [exact E | apply (IH [] H)].
    + apply IH in H. destruct H as [H _]. discriminate H.
Qed.

Lemma join_cons (sep p : list N) (ps : list (list N)) :
  ps <> [] -> join sep (p :: ps) = p ++ sep ++ join sep ps.
Proof. destruct ps; [congruence | reflexivity]. Qed.

(** The words of a text that ends in a word, joined by single spaces,
    are the text with its runs of white space squeezed. *)
Lemma join_split_squeeze (s : list N) :
  (forall cur, ends_in_word s -> cur <> [] \/ starts_in_word s ->
               join [32] (split_ws_aux cur s) = rev cur ++ squeeze [32] false s)
  /\ (s <> [] -> ends_in_word s ->
      join [32] (split_ws_aux [] s) = squeeze [32] true s).
Proof.
  induction s as [|c s [IH1 IH2]].
  - split; [|congruence]. intros cur _ _. simpl. rewrite app_nil_r.
    destruct cur; reflexivity.
  - assert (Hword : is_space c = true -> ends_in_word (c :: s) ->
                    split_ws_aux [] s <> []
                    /\ join [32] (split_ws_aux [] s) = squeeze [32] true s).
    { intros Hc He. pose proof (ends_in_word_space c s He Hc) as Hne.
      pose proof (ends_in_word_tail c s He) as He'. split; [|auto].
      intros E. apply split_ws_aux_nil in E. destruct E as [_ E].
      exact (all_space_last s E Hne He'). }
    split.
    + intros cur He Hcur. simpl. destruct (is_space c) eqn:Hc.
      * destruct (Hword eq_refl He) as [Hne Hj].
        destruct cur as [|a cur].
        { destruct Hcur as [Hcur | Hcur]; [congruence|].
          specialize (Hcur c s eq_refl). congruence. }
        rewrite join_cons by exact Hne. rewrite Hj. reflexivity.
      * rewrite IH1; [| eapply ends_in_word_tail; exact He | left; discriminate].
        simpl. rewrite <- app_assoc. reflexivity.
    + intros _ He. simpl. destruct (is_space c) eqn:Hc.
      * apply (Hword eq_refl He).
      * rewrite IH1; [reflexivity | eapply ends_in_word_tail; exact He | left; discriminate].
Qed.

(** ** Stripping *)

Lemma lstrip_decomp (l : list N) :
  exists sp, l = sp ++ lstrip_by is_space l /\ Forall (fun y => is_space y = true) sp
             /\ starts_in_word (lstrip_by is_space l).
Proof.
  induction l as [|c l (sp & E & Hsp & Hst)].
  - exists []. repeat split; [constructor | intros c s H; discriminate H].
  - simpl. destruct (is_space c) eqn:Hc.
    + exists (c :: sp). simpl. rewrite <- E. repeat split; [constructor; assumption | exact Hst].
    + exists []. repeat split; [constructor|].
      intros a s H. inversion H; subst. exact Hc.
Qed.

Lemma starts_in_word_rev (u : list N) : starts_in_word u -> ends_in_word (rev u).
Proof.
  intros H. destruct u as [|c u]; [intros z Hz; discriminate Hz|].
  intros z Hz. simpl in Hz. rewrite last_char_app in Hz. inversion Hz; subst.
  apply (H z u eq_refl).
Qed.

Lemma ends_in_word_rev (u : list N) : ends_in_word u -> starts_in_word (rev u).
Proof.
  intros H c s E. apply H. apply (f_equal (@rev N)) in E. rewrite rev_involutive in E.
  rewrite E. simpl. apply last_char_app.
Qed.

Lemma rstrip_decomp (l : list N) :
  exists sp, l = rstrip_by is_space l ++ sp /\ Forall (fun y => is_space y = true) sp
             /\ ends_in_word (rstrip_by is_space l).
Proof.
  unfold rstrip_by. destruct (lstrip_decomp (rev l)) as (sp & E & Hsp & Hst).
  exists (rev sp). split; [|split].
  - rewrite <- rev_app_distr, <- E, rev_involutive. reflexivity.
  - apply Forall_rev. exact Hsp.
  - apply starts_in_word_rev. exact Hst.
Qed.

Lemma lstrip_spaces (sp rest : list N) :
  Forall (fun y => is_space y = true) sp ->
  lstrip_by is_space (sp ++ rest) = lstrip_by is_space rest.
Proof. induction 1 as [|y sp Hy _ IH]; [reflexivity|]. simpl. rewrite Hy. exact IH. Qed.

Lemma lstrip_all_spaces (sp : list N) :
  Forall (fun y => is_space y = true) sp -> lstrip_by is_space sp = [].
Proof. induction 1 as [|y sp Hy _ IH]; [reflexivity|]. simpl. rewrite Hy. exact IH. Qed.

Lemma lstrip_word (u : list N) : starts_in_word u -> lstrip_by is_space u = u.
Proof.
  intros H. destruct u as [|c u]; [reflexivity|]. simpl. rewrite (H c u eq_refl). reflexivity.
Qed.

Lemma starts_in_word_app (u v : list N) : u <> [] -> starts_in_word u -> starts_in_word (u ++ v).
Proof.
  intros Hne H c s E. destruct u as [|a u]; [congruence|].
  simpl in E. inversion E; subst. apply (H c u eq_refl).
Qed.

(** A text that starts and ends in a word, between two runs of white
    space: stripping gives it back. *)
Lemma strip_pad (s0 x s1 : list N) :
  Forall (fun y => is_space y = true) s0 -> Forall (fun y => is_space y = true) s1 ->
  starts_in_word x -> ends_in_word x ->
  strip (s0 ++ x ++ s1) = x.
Proof.
  intros H0 H1 Hst Hen. unfold strip, strip_by, rstrip_by.
  rewrite lstrip_spaces by exact H0.
  destruct x as [|c x].
  - simpl. rewrite (lstrip_all_spaces s1 H1). reflexivity.
  - rewrite (lstrip_word ((c :: x) ++ s1))
      by (apply starts_in_word_app; [discriminate | exact Hst]).
    rewrite rev_app_distr. rewrite lstrip_spaces by (apply Forall_rev; exact H1).
    rewrite (lstrip_word (rev (c :: x))) by (apply ends_in_word_rev; exact Hen).
    apply rev_involutive.
Qed.

Lemma strip_decomp (t : list N) :
  exists sp0 sp1,
    t = sp0 ++ strip t ++ sp1
    /\ Forall (fun y => is_space y = true) sp0 /\ Forall (fun y => is_space y = true) sp1
    /\ starts_in_word (strip t) /\ ends_in_word (strip t).
Proof.
  destruct (lstrip_decomp t) as (sp0 & E0 & H0 & Hst).
  destruct (rstrip_decomp (lstrip_by is_space t)) as (sp1 & E1 & H1 & Hen).
  exists sp0, sp1. unfold strip, strip_by.
  split; [rewrite <- E1; exact E0|]. split; [exact H0|]. split; [exact H1|].
  split; [|exact Hen].
  intros c s E. rewrite E in E1.
  destruct (lstrip_by is_space t) as [|a l] eqn:El; [discriminate E1|].
  simpl in E1. inversion E1; subst. apply (Hst c _ eq_refl).
Qed.

(** ** Squeezing and stripping *)

Lemma pad_spaces (sp : list N) : Forall (fun y => is_space y = true) (pad sp).
Proof. destruct sp; repeat constructor. Qed.

Lemma squeeze_cons (repl : list N) (b : bool) (c : N) (s : list N) :
  squeeze repl b (c :: s)
  = if is_space c
    then (if b then [] else repl) ++ squeeze repl true s
    else c :: squeeze repl false s.
Proof. reflexivity. Qed.

Lemma squeeze_true_spaces (repl sp : list N) :
  Forall (fun y => is_space y = true) sp -> squeeze repl true sp = [].
Proof. induction 1 as [|y sp Hy _ IH]; [reflexivity|]. simpl. rewrite Hy. exact IH. Qed.

Lemma squeeze_false_spaces (sp : list N) :
  Forall (fun y => is_space y = true) sp -> squeeze [32] false sp = pad sp.
Proof.
  destruct 1 as [|y sp Hy Hsp]; [reflexivity|].
  simpl. rewrite Hy, squeeze_true_spaces by exact Hsp. reflexivity.
Qed.

Lemma squeeze_leading (sp0 r : list N) :
  Forall (fun y => is_space y = true) sp0 -> starts_in_word r ->
  squeeze [32] false (sp0 ++ r) = pad sp0 ++ squeeze [32] false r.
Proof.
  intros H0 Hr. destruct H0 as [|y sp0 Hy Hsp]; [reflexivity|].
  simpl. rewrite Hy. f_equal.
  rewrite squeeze_run by exact Hsp. apply squeeze_after_run. exact Hr.
Qed.

Lemma squeeze_trailing (sp1 : list N) :
  Forall (fun y => is_space y = true) sp1 ->
  forall u b, u <> [] -> ends_in_word u ->
    squeeze [32] b (u ++ sp1) = squeeze [32] b u ++ pad sp1.
Proof.
  intros H1. induction u as [|c u IH]; intros b Hne He; [congruence|].
  destruct u as [|a u].
  - simpl. rewrite (He c eq_refl). rewrite squeeze_false_spaces by exact H1. reflexivity.
  - assert (He' : ends_in_word (a :: u)) by (eapply ends_in_word_tail; exact He).
    change ((c :: a :: u) ++ sp1) with (c :: (a :: u) ++ sp1).
    cbn [squeeze]. destruct (is_space c).
    + rewrite IH by (discriminate || exact He'). rewrite app_assoc. reflexivity.
    + rewrite IH by (discriminate || exact He'). reflexivity.
Qed.

Lemma last_char_app_r (pre x : list N) : x <> [] -> last_char (pre ++ x) = last_char x.
Proof.
  intros Hx. induction pre as [|a pre IH]; [reflexivity|].
  simpl. destruct (pre ++ x) eqn:E; [|exact IH].
  destruct pre; [simpl in E; congruence | discriminate E].
Qed.

Lemma squeeze_starts (u : list N) (b : bool) :
  starts_in_word u -> starts_in_word (squeeze [32] b u).
Proof.
  intros H. destruct u as [|c u]; [intros a s E; discriminate E|].
  simpl. pose proof (H c u eq_refl) as Hc. rewrite Hc.
  intros a s E. inversion E; subst. exact Hc.
Qed.

Lemma squeeze_true_starts (u : list N) : starts_in_word (squeeze [32] true u).
Proof.
  induction u as [|c u IH]; [intros a s E; discriminate E|].
  simpl. destruct (is_space c) eqn:Hc; [exact IH|].
  intros a s E. inversion E; subst. exact Hc.
Qed.

Lemma squeeze_ends (u : list N) :
  forall b, u <> [] -> ends_in_word u ->
    squeeze [32] b u <> [] /\ ends_in_word (squeeze [32] b u).
Proof.
  induction u as [|c u IH]; intros b Hne He; [congruence|].
  destruct u as [|a u].
  - simpl. rewrite (He c eq_refl). split; [discriminate|].
    intros z Hz. inversion Hz; subst. apply (He z eq_refl).
  - assert (He' : ends_in_word (a :: u)) by (eapply ends_in_word_tail; exact He).
    assert (Hx : forall pre b', pre ++ squeeze [32] b' (a :: u) <> []
                                /\ ends_in_word (pre ++ squeeze [32] b' (a :: u))).
    { intros pre b'. destruct (IH b' ltac:(discriminate) He') as [Hn Hl]. split.
      - intros E. apply app_eq_nil in E. tauto.
      - intros z Hz. rewrite last_char_app_r in Hz by exact Hn. apply Hl. exact Hz. }
    rewrite squeeze_cons. destruct (is_space c).
    + apply Hx.
    + apply (Hx [c]).
Qed.

Lemma squeeze_idempotent (u : list N) :
  forall b, squeeze [32] false (squeeze [32] b u) = squeeze [32] b u.
Proof.
  induction u as [|c u IH]; intros b; [reflexivity|].
  simpl. destruct (is_space c) eqn:Hc.
  - destruct b; [apply IH|]. simpl. f_equal.
    rewrite squeeze_after_run by (apply squeeze_true_starts). apply IH.
  - simpl. rewrite Hc. f_equal. apply IH.
Qed.

Lemma strip_all_spaces (l : list N) :
  Forall (fun y => is_space y = true) l -> strip l = [].
Proof.
  intros H. unfold strip, strip_by, rstrip_by. rewrite (lstrip_all_spaces l H).
  reflexivity.
Qed.

Lemma squeeze_all_spaces (l : list N) (b : bool) :
  Forall (fun y => is_space y = true) l ->
  Forall (fun y => is_space y = true) (squeeze [32] b l).
Proof.
  intros H. destruct b.
  - rewrite squeeze_true_spaces by exact H. constructor.
  - rewrite squeeze_false_spaces by exact H. apply pad_spaces.
Qed.

(** Squeezing, then stripping: the same as stripping, then squeezing. *)
Lemma strip_squeeze (t : list N) :
  strip (squeeze [32] false t) = squeeze [32] false (strip t).
Proof.
  destruct (strip_decomp t) as (sp0 & sp1 & E & H0 & H1 & Hst & Hen).
  set (u := strip t) in *. clearbody u. subst t.
  destruct u as [|c u].
  - simpl. apply strip_all_spaces. apply squeeze_all_spaces.
    apply Forall_app. split; assumption.
  - rewrite squeeze_leading
      by (exact H0 || (apply starts_in_word_app; [discriminate | exact Hst])).
    rewrite squeeze_trailing by (exact H1 || discriminate || exact Hen).
    apply strip_pad; try apply pad_spaces.
    + apply squeeze_starts. exact Hst.
    + apply squeeze_ends; [discriminate | exact Hen].
Qed.

(** ** The words of a text *)

Lemma split_ws_leading (sp r : list N) :
  Forall (fun y => is_space y = true) sp ->
  split_ws_aux [] (sp ++ r) = split_ws_aux [] r.
Proof. induction 1 as [|y sp Hy _ IH]; [reflexivity|]. simpl. rewrite Hy. exact IH. Qed.

Lemma split_ws_spaces (sp : list N) :
  Forall (fun y => is_space y = true) sp ->
  forall cur, split_ws_aux cur sp = split_ws_aux cur [].
Proof.
  induction 1 as [|y sp Hy _ IH]; intros cur; [reflexivity|].
  simpl. rewrite Hy. destruct cur; [apply (IH [])|]. rewrite (IH []). reflexivity.
Qed.

Lemma split_ws_trailing (sp : list N) :
  Forall (fun y => is_space y = true) sp ->
  forall u cur, split_ws_aux cur (u ++ sp) = split_ws_aux cur u.
Proof.
  intros Hsp. induction u as [|c u IH]; intros cur.
  - simpl. apply split_ws_spaces. exact Hsp.
  - simpl. destruct (is_space c); [destruct cur|]; rewrite IH; reflexivity.
Qed.

Lemma split_ws_strip (t : list N) : split_ws (strip t) = split_ws t.
Proof.
  destruct (strip_decomp t) as (sp0 & sp1 & E & H0 & H1 & _).
  unfold split_ws. rewrite E at 2.
  rewrite split_ws_leading by exact H0. rewrite split_ws_trailing by exact H1. reflexivity.
Qed.

Lemma split_ws_squeeze (u : list N) :
  (forall cur, split_ws_aux cur (squeeze [32] false u) = split_ws_aux cur u)
  /\ split_ws_aux [] (squeeze [32] true u) = split_ws_aux [] u.
Proof.
  induction u as [|c u [IH1 IH2]]; [split; reflexivity|].
  simpl. destruct (is_space c) eqn:Hc.
  - split; [|exact IH2]. intros cur. simpl.
    destruct cur; [exact IH2 | rewrite IH2; reflexivity].
  - split; [intros cur|]; simpl; rewrite Hc; apply IH1.
Qed.

(** [clean_text] is the text stripped, its runs of white space
    squeezed. *)
Lemma clean_text_squeeze (t : list N) : Cri.clean_text t = squeeze [32] false (strip t).
Proof.
  unfold Cri.clean_text. change (utf8 " ") with [32].
  rewrite re_sub_spaces_squeeze. apply strip_squeeze.
Qed.

Lemma clean_text_ends (t : list N) :
  starts_in_word (Cri.clean_text t) /\ ends_in_word (Cri.clean_text t).
Proof.
  destruct (strip_decomp t) as (sp0 & sp1 & _ & _ & _ & Hst & Hen).
  rewrite clean_text_squeeze. split.
  - apply squeeze_starts. exact Hst.
  - destruct (strip t) as [|c u] eqn:E; [intros z Hz; discriminate Hz|].
    apply squeeze_ends; [discriminate | exact Hen].
Qed.

(** [clean_text(t)] is [" ".join(t.split())]. *)
Lemma clean_text_words (t : list N) : Cri.clean_text t = join [32] (split_ws t).
Proof.
  destruct (strip_decomp t) as (sp0 & sp1 & _ & _ & _ & Hst & Hen).
  rewrite clean_text_squeeze, <- split_ws_strip. unfold split_ws.
  rewrite (proj1 (join_split_squeeze (strip t)) [] Hen (or_intror Hst)). reflexivity.
Qed.

Lemma split_ws_clean_text (t : list N) : split_ws (Cri.clean_text t) = split_ws t.
Proof.
  rewrite clean_text_squeeze. unfold split_ws.
  rewrite (proj1 (split_ws_squeeze (strip t))). apply split_ws_strip.
Qed.

Lemma clean_text_idempotent (t : list N) :
  Cri.clean_text (Cri.clean_text t) = Cri.clean_text t.
Proof.
  destruct (clean_text_ends t) as [Hstarts Hends].
  rewrite (clean_text_squeeze (Cri.clean_text t)).
  pose proof (strip_pad [] (Cri.clean_text t) []
                (List.Forall_nil _) (List.Forall_nil _) Hstarts Hends) as HS.
  cbn [app] in HS. rewrite app_nil_r in HS. rewrite HS.
  rewrite clean_text_squeeze. apply squeeze_idempotent.
Qed.

(** X6. [clean_text] gives the words of the text joined by single
    spaces, that is " ".join(t.split()): it keeps the words, starts
    and ends in a word, and cleaning a cleaned text changes nothing. *)
Theorem X6_clean_text_words (t : list N) :
  Cri.clean_text t = join (utf8 " ") (split_ws t)
  /\ split_ws (Cri.clean_text t) = split_ws t
  /\ Cri.clean_text (Cri.clean_text t) = Cri.clean_text t
  /\ starts_in_word (Cri.clean_text t) /\ ends_in_word (Cri.clean_text t).
Proof.
  split; [apply clean_text_words|]. split; [apply split_ws_clean_text|].
  split; [apply clean_text_idempotent | apply clean_text_ends].
Qed.

(* ===================================================================== *)
(** * Searches and substitutions of one character class                   *)
(* ===================================================================== *)

Local Close Scope Q_scope.
Local Close Scope Z_scope.

Section ClassSearch.

Variables (fl : flags) (neg : bool) (items : list cset_item).

Lemma rmatch_class c cs k :
  rmatch fl (RSet neg items) c cs k
  = match crest c with
    | y :: rest => if set_matches fl neg items y then k (advance c y rest) cs else None
    | [] => None
    end.
Proof. reflexivity. Qed.

(** No match: no character of the class in the text. *)
Lemma search_class_none (t : list N) :
  forall rest pos prev,
    search_from fl (RSet neg items) t pos prev rest = None
    <-> Forall (fun y => set_matches fl neg items y = false) rest.
Proof.
  induction rest as [|y rest IH]; intros pos prev.
  - split; [constructor | reflexivity].
  - cbn [search_from]. rewrite rmatch_class. cbn [crest].
    destruct (set_matches fl neg items y) eqn:E.
    + split; [discriminate|]. intros H. apply Forall_cons in H. destruct H as [H _].
      congruence.
    + rewrite IH. split; intros H.
      * constructor; assumption.
      * apply Forall_cons in H. tauto.
Qed.





End ClassSearch.

(* ===================================================================== *)
(** * Building area in extract_projects.py                                *)
(* ===================================================================== *)








(* ===================================================================== *)
(** * Numeric columns of extract_projects.py                              *)
(* ===================================================================== *)

Local Open Scope Q_scope.

Lemma group_float_nonneg (blank : regex) (m : rematch) (q : Q) :
  ExtractProjects.group_float blank m = Some q -> 0 <= q.
Proof.
  unfold ExtractProjects.group_float, ExtractProjects.float_of_field.
  destruct (group m 1); [apply float_of_text_nonneg | discriminate].
Qed.

Lemma investment_dh_nonneg (t : list N) (q : Q) :
  ExtractProjects.investment_dh t = Some q -> 0 <= q.
Proof.
  unfold ExtractProjects.investment_dh.
  destruct (re_search ExtractProjects.RE_INV_DH IGNORECASE t);
    [apply group_float_nonneg | discriminate].
Qed.

Lemma extract_estimated_investment_nonneg (t : list N) (q : Q) :
  ExtractProjects.extract_estimated_investment_mad t = Some q -> 0 <= q.
Proof.
  unfold ExtractProjects.extract_estimated_investment_mad.
  destruct (re_search ExtractProjects.RE_INV_MDH IGNORECASE t) as [m|];
    [|apply investment_dh_nonneg].
  destruct (ExtractProjects.group_float ExtractProjects.RE_BLANK m) as [val|] eqn:E;
    [|apply investment_dh_nonneg].
  apply group_float_nonneg in E. intros H. inversion H; subst.
  destruct (flt val 1000); [apply fmul_nonneg; [exact E | discriminate] | exact E].
Qed.

Lemma extract_payback_nonneg (t : list N) (p : Q) :
  ExtractProjects.extract_payback_period_years t = Some p -> 0 <= p.
Proof.
  assert (Hs : ExtractProjects.payback_single t = Some p -> 0 <= p).
  { intros H. apply payback_single_integer in H. destruct H as (n & Hn & ->).
    change 0 with (inject_Z 0). rewrite <- Zle_Qle. exact Hn. }
  unfold ExtractProjects.extract_payback_period_years.
  destruct (re_search ExtractProjects.RE_PAYBACK_RANGE IGNORECASE t) as [m|]; [|exact Hs].
  destruct (ExtractProjects.int_group m 1) as [a|] eqn:Ea; [|exact Hs].
  destruct (ExtractProjects.int_group m 2) as [b|] eqn:Eb; [|exact Hs].
  apply int_group_nonneg in Ea. apply int_group_nonneg in Eb.
  intros H. inversion H; subst. apply fdiv_nonneg; [|discriminate].
  change 0 with (inject_Z 0). rewrite <- Zle_Qle. lia.
Qed.

Lemma area_step_nonneg (p blank : regex) (scale : Q) (t : list N) (q : Q) :
  0 <= scale -> ExtractProjects.area_step p blank scale t = Some q -> 0 <= q.
Proof.
  intros Hs. unfold ExtractProjects.area_step.
  destruct (re_search p IGNORECASE t) as [m|]; [|discriminate].
  destruct (ExtractProjects.group_float blank m) as [v|] eqn:E; [|discriminate].
  apply group_float_nonneg in E. intros H. inversion H; subst.
  apply fmul_nonneg; assumption.
Qed.

Lemma extract_land_area_nonneg (t : list N) (q : Q) :
  ExtractProjects.extract_required_land_area_m2 t = Some q -> 0 <= q.
Proof.
  unfold ExtractProjects.extract_required_land_area_m2. intros H.
  repeat match type of H with
         | orelse ?a _ = Some _ =>
           let E := fresh "E" in
           destruct a eqn:E;
           [cbn [orelse] in H; inversion H; subst;
            eapply area_step_nonneg; [|exact E]; discriminate
           |cbn [orelse] in H]
         end.
  eapply area_step_nonneg; [|exact H]. discriminate.
Qed.

Lemma fmap_round2_nonneg (o : option Q) (v : Q) :
  (forall q, o = Some q -> 0 <= q) -> round2 <$> o = Some v -> 0 <= v.
Proof.
  intros Ho H. destruct o as [q|]; [|discriminate H].
  inversion H; subst. apply round2_nonneg. apply Ho. reflexivity.
Qed.

(** X8. No numeric column of a record of [extract_projects.py] is
    negative: the estimated and the minimum investment, the payback
    period, the rate of return, the land area and the building area
    are absent, zero or positive, whatever the text of the project. *)
Theorem X8_project_numbers_nonnegative (t : list N) :
  (forall v, ExtractProjects.estimated_investment_mad (ExtractProjects.build_record t) = Some v
             -> 0 <= v)
  /\ (forall v, ExtractProjects.min_investment (ExtractProjects.build_record t) = Some v
                -> 0 <= v)
  /\ (forall v, ExtractProjects.payback_period_years (ExtractProjects.build_record t) = Some v
                -> 0 <= v)
  /\ (forall v, ExtractProjects.roi_estimated (ExtractProjects.build_record t) = Some v
                -> 0 <= v)
  /\ (forall v, ExtractProjects.required_land_area_m2 (ExtractProjects.build_record t) = Some v
                -> 0 <= v)
  /\ (forall v, ExtractProjects.extract_required_building_area_m2 t = Some v -> 0 <= v).
Proof.
  unfold ExtractProjects.build_record.
  cbn [ExtractProjects.estimated_investment_mad ExtractProjects.min_investment
       ExtractProjects.payback_period_years ExtractProjects.roi_estimated
       ExtractProjects.required_land_area_m2].
  split; [|split; [|split; [|split; [|split]]]]; intros v H.
  - eapply fmap_round2_nonneg; [|exact H]. intros q. apply extract_estimated_investment_nonneg.
  - unfold ExtractProjects.min_investment_mad in H.
    destruct (ExtractProjects.extract_estimated_investment_mad t) as [e|] eqn:E;
      [|discriminate H].
    inversion H; subst. apply round2_nonneg. apply fmul_nonneg; [|discriminate].
    eapply extract_estimated_investment_nonneg. exact E.
  - eapply fmap_round2_nonneg; [|exact H]. intros q. apply extract_payback_nonneg.
  - inversion H; subst. apply round2_nonneg. unfold ExtractProjects.roi_estimated_only.
    destruct (ExtractProjects.extract_payback_period_years t) as [p|] eqn:E.
    + apply extract_payback_nonneg in E.
      destruct (flt 0 p); apply fdiv_nonneg; (discriminate || exact E).
    + apply fdiv_nonneg; discriminate.
  - apply (extract_land_area_nonneg t). exact H.
  - unfold ExtractProjects.extract_required_building_area_m2 in H.
    destruct (re_search ExtractProjects.RE_BUILDING IGNORECASE t) as [m|]; [|discriminate H].
    destruct (group m 1); [|discriminate H].
    eapply float_of_text_nonneg. exact H.
Qed.

(* ===================================================================== *)
(** * Province in cri_benimallal.py                                       *)
(* ===================================================================== *)

Local Close Scope Q_scope.
Local Close Scope Z_scope.

Lemma rmatch_seq_unfold fl r1 r2 c cs k :
  rmatch fl (RSeq r1 r2) c cs k
  = rmatch fl r1 c cs (fun c' cs' => rmatch fl r2 c' cs' k).
Proof. reflexivity. Qed.

Lemma orelse_not_None_r {A} (a b : option A) : b <> None -> orelse a b <> None.
Proof. destruct a; [discriminate | exact id]. Qed.

(** A greedy repetition that may stop matches when what follows does. *)
Lemma rep_loop_greedy_stop body lo hi (k : kont) fuel n c cs :
  (lo <= n)%nat -> k c cs <> None -> rep_loop body true lo hi k fuel n c cs <> None.
Proof.
  intros Hlo Hk. apply Nat.leb_le in Hlo.
  destruct fuel; cbn [rep_loop]; rewrite Hlo; apply orelse_not_None_r; exact Hk.
Qed.

(** The separators of [RE_CHUNK_SEP]: semicolon, dashes, hyphen. *)
Lemma separator_matches pos prev y rest :
  set_matches NOFLAGS false [CChar 59; CChar 8211; CChar 8212; CChar 45] y = true ->
  rmatch NOFLAGS Cri.RE_CHUNK_SEP {| cpos := pos; cprev := prev; crest := y :: rest |} []
         (fun c cs => Some (c, cs)) <> None.
Proof.
  intros Hy. unfold Cri.RE_CHUNK_SEP.
  rewrite rmatch_seq_unfold, rmatch_rep_unfold.
  apply rep_loop_greedy_stop; [lia|].
  rewrite rmatch_seq_unfold, rmatch_class. cbn [crest]. rewrite Hy.
  rewrite rmatch_rep_unfold. apply rep_loop_greedy_stop; [lia | discriminate].
Qed.

(** The text before the first match holds no separator. *)
Lemma chunk_before_separator (t : list N) :
  forall rest pos prev m,
    search_from NOFLAGS Cri.RE_CHUNK_SEP t pos prev rest = Some m ->
    (pos <= m_start m)%nat
    /\ Forall (fun y => set_matches NOFLAGS false
                          [CChar 59; CChar 8211; CChar 8212; CChar 45] y = false)
              (firstn (m_start m - pos) rest).
Proof.
  induction rest as [|y rest IH]; intros pos prev m; cbn [search_from].
  - destruct (rmatch _ _ _ _ _) as [[c' cs]|]; [|discriminate].
    intros H. inversion H; subst. cbn [m_start]. split; [lia|].
    rewrite firstn_nil. constructor.
  - destruct (rmatch _ _ _ _ _) as [[c' cs]|] eqn:E.
    + intros H. inversion H; subst. cbn [m_start]. split; [lia|].
      rewrite Nat.sub_diag. constructor.
    + intros H. apply IH in H. destruct H as [Hle Hall]. split; [lia|].
      replace (m_start m - pos)%nat with (S (m_start m - S pos)) by lia.
      cbn [firstn]. constructor; [|exact Hall].
      destruct (set_matches NOFLAGS false [CChar 59; CChar 8211; CChar 8212; CChar 45] y)
        eqn:Hy; [|reflexivity].
      exfalso. apply (separator_matches pos prev y rest Hy). exact E.
Qed.

Lemma no_separator (t : list N) :
  forall rest pos prev,
    search_from NOFLAGS Cri.RE_CHUNK_SEP t pos prev rest = None ->
    Forall (fun y => set_matches NOFLAGS false
                       [CChar 59; CChar 8211; CChar 8212; CChar 45] y = false) rest.
Proof.
  induction rest as [|y rest IH]; intros pos prev; [constructor|].
  cbn [search_from].
  destruct (rmatch _ _ _ _ _) as [[c' cs]|] eqn:E; [discriminate|].
  intros H. apply IH in H. constructor; [|exact H].
  destruct (set_matches NOFLAGS false [CChar 59; CChar 8211; CChar 8212; CChar 45] y)
    eqn:Hy; [|reflexivity].
  exfalso. apply (separator_matches pos prev y rest Hy). exact E.
Qed.

Lemma not_separator (y : N) :
  set_matches NOFLAGS false [CChar 59; CChar 8211; CChar 8212; CChar 45] y = false ->
  y <> 59 /\ y <> 8211 /\ y <> 8212 /\ y <> 45.
Proof.
  unfold set_matches.
  cbn [existsb item_matches char_matches ignorecase NOFLAGS xorb].
  intros Hy.
  repeat (apply orb_false_iff in Hy; destruct Hy as [? Hy]).
  repeat match goal with
         | H : (_ =? _) = false |- _ => apply N.eqb_neq in H
         end.
  repeat split; congruence.
Qed.

(** The first chunk of a split at the separators: a prefix of the
    text, without any separator. *)
Lemma re_split_first_chunk (s : list N) :
  Forall (fun y => y <> 59 /\ y <> 8211 /\ y <> 8212 /\ y <> 45)
         (Cri.re_split_first Cri.RE_CHUNK_SEP NOFLAGS s)
  /\ exists n, Cri.re_split_first Cri.RE_CHUNK_SEP NOFLAGS s = firstn n s.
Proof.
  unfold Cri.re_split_first, re_search.
  destruct (search_from NOFLAGS Cri.RE_CHUNK_SEP s 0 None s) as [m|] eqn:E.
  - split; [|eauto]. apply chunk_before_separator in E. destruct E as [_ H].
    rewrite Nat.sub_0_r in H. eapply Forall_impl; [exact H|]. apply not_separator.
  - split; [|exists (List.length s); rewrite firstn_all; reflexivity].
    apply no_separator in E. eapply Forall_impl; [exact E|]. apply not_separator.
Qed.

Lemma squeeze_plain_spaces (u : list N) :
  forall b, plain_spaces (squeeze [32] b u).
Proof.
  unfold plain_spaces.
  induction u as [|c u IH]; intros b; [constructor|].
  rewrite squeeze_cons. destruct (is_space c) eqn:Hc.
  - apply Forall_app. split; [|apply IH].
    destruct b; repeat constructor.
  - constructor; [|apply IH]. intros H. congruence.
Qed.

Lemma Forall_strip (P : N -> Prop) (s : list N) : Forall P s -> Forall P (strip s).
Proof.
  intros H. apply Forall_forall. intros y Hy. rewrite Forall_forall in H.
  apply H. apply list_elem_of_In. apply strip_In. apply list_elem_of_In. exact Hy.
Qed.

Lemma first_known_In (ps : list (list N)) (text p : list N) :
  Cri.first_known ps text = Some p ->
  In p ps /\ re_search (Cri.re_whole_word p) IGNORECASE text <> None.
Proof.
  induction ps as [|q ps IH]; simpl; [discriminate|].
  destruct (re_search (Cri.re_whole_word q) IGNORECASE text) eqn:E.
  - intros H. inversion H; subst. split; [left; reflexivity | congruence].
  - intros H. apply IH in H. tauto.
Qed.

(** X9. The province of a project sheet is one of the five known
    provinces, found in the text as a whole word whatever the case, or,
    when none of them occurs, a short value read after the label Lieu:
    not empty, of at most 40 characters, with no digit, percent sign,
    semicolon, hyphen or dash, no white space but single plain spaces,
    and none at its ends. *)
Theorem X9_province_known_or_short (text p : list N) :
  Cri.extract_province text = Some p ->
  (Cri.first_known Cri.known_provinces text = Some p
   /\ In p Cri.known_provinces
   /\ re_search (Cri.re_whole_word p) IGNORECASE text <> None)
  \/ (Cri.first_known Cri.known_provinces text = None
      /\ p <> [] /\ (List.length p <= 40)%nat
      /\ Forall (fun y => is_digit y = false /\ y <> 37
                          /\ y <> 59 /\ y <> 8211 /\ y <> 8212 /\ y <> 45) p
      /\ plain_spaces p
      /\ starts_in_word p /\ ends_in_word p).
Proof.
  unfold Cri.extract_province. destruct text as [|c0 text0]; [discriminate|].
  set (text := c0 :: text0).
  destruct (Cri.first_known Cri.known_provinces text) as [q|] eqn:Ek.
  - intros H. inversion H; subst. left. split; [reflexivity|].
    apply first_known_In. exact Ek.
  - destruct (re_search Cri.RE_LIEU IGNORECASE text) as [m|]; [|discriminate].
    set (loc := Cri.clean_text (default [] (group m 1))).
    destruct (re_split_first_chunk loc) as [Hsep (n & Hn)].
    set (chunk := Cri.re_split_first Cri.RE_CHUNK_SEP NOFLAGS loc) in *.
    destruct (strip_decomp chunk) as (sp0 & sp1 & _ & _ & _ & Hst & Hen).
    destruct (40 <? List.length (strip chunk))%nat eqn:Hlen; [discriminate|].
    apply Nat.ltb_ge in Hlen.
    destruct (re_search Cri.RE_DIGIT_PERCENT NOFLAGS (strip chunk)) eqn:Hd; [discriminate|].
    cbn [orb].
    destruct (strip chunk) as [|c l] eqn:Es; [discriminate|].
    intros H. inversion H; subst p. right.
    split; [reflexivity|]. split; [discriminate|]. split; [exact Hlen|].
    rewrite <- Es in *. split; [|split; [|split; assumption]].
    + unfold re_search, Cri.RE_DIGIT_PERCENT in Hd. apply search_class_none in Hd.
      apply Forall_strip in Hsep.
      rewrite Forall_forall in Hd, Hsep. apply Forall_forall. intros y Hy.
      specialize (Hd y Hy). specialize (Hsep y Hy).
      unfold set_matches in Hd.
      cbn [existsb item_matches char_matches ignorecase NOFLAGS xorb] in Hd.
      apply orb_false_iff in Hd. destruct Hd as [Hdig Hd].
      apply orb_false_iff in Hd. destruct Hd as [Hpc _].
      apply N.eqb_neq in Hpc. split; [exact Hdig|]. split; [congruence | exact Hsep].
    + apply Forall_strip. rewrite Hn. apply Forall_take.
      unfold loc. rewrite clean_text_squeeze. apply squeeze_plain_spaces.
Qed.

Lemma X9_province_known_or_short_witness :
  Cri.extract_province (utf8 "Lieu : Ouled  Youssef - route de Marrakech")
  = Some (utf8 "Ouled Youssef")
  /\ (List.length (utf8 "Ouled Youssef") <= 40)%nat.
Proof.
  split; [vm_compute; reflexivity|].
  destruct (X9_province_known_or_short
              (utf8 "Lieu : Ouled  Youssef - route de Marrakech") (utf8 "Ouled Youssef"))
    as [(H & _) | (_ & _ & H & _)].
  - vm_compute. reflexivity.
  - vm_compute in H. discriminate H.
  - exact H.
Defined.

(* ===================================================================== *)
(** * Pages and numbering in extract_projects.py                          *)
(* ===================================================================== *)

Local Close Scope Q_scope.
Local Close Scope Z_scope.
Local Open Scope nat_scope.

(** Pages numbered from [k + 1] on, as [extract_text_per_page] numbers
    them from 1 on. *)
Lemma pages_from (k : nat) (texts : list (list N)) :
  imap (fun i text => (S (k + i), text)) texts
  = match texts with
    | [] => []
    | t :: texts' => (S k, t) :: imap (fun i text => (S (S k + i), text)) texts'
    end.
Proof.
  destruct texts as [|t texts']; [reflexivity|].
  rewrite imap_cons, Nat.add_0_r. f_equal.
  apply imap_ext. intros i x _. simpl. f_equal. lia.
Qed.

Lemma extract_text_per_page_from (texts : list (list N)) :
  ExtractProjects.extract_text_per_page texts
  = imap (fun i text => (S (0 + i), text)) texts.
Proof. reflexivity. Qed.

Lemma selected_pages_increasing (P : nat * list N -> bool) (texts : list (list N)) :
  forall k,
    StronglySorted lt
      (List.map fst (List.filter P (imap (fun i text => (S (k + i), text)) texts)))
    /\ Forall (fun p => k < p <= k + List.length texts)
         (List.map fst (List.filter P (imap (fun i text => (S (k + i), text)) texts))).
Proof.
  induction texts as [|t texts IH]; intros k; rewrite pages_from.
  - split; constructor.
  - destruct (IH (S k)) as [Hs Hb].
    assert (Hb' : Forall (fun p => k < p <= k + List.length (t :: texts))
                    (List.map fst
                       (List.filter P (imap (fun i text => (S (S k + i), text)) texts)))).
    { eapply Forall_impl; [exact Hb|]. intros p Hp. simpl in *. lia. }
    cbn [List.filter]. destruct (P (S k, t)); [|split; assumption].
    cbn [List.map fst]. split.
    + constructor; [exact Hs|]. eapply Forall_impl; [exact Hb|]. intros p Hp. simpl in Hp. lia.
    + constructor; [simpl; lia | exact Hb'].
Qed.

Lemma insert_page_smallest (p : nat) (l : list nat) :
  Forall (lt p) l -> ExtractProjects.insert_page p l = p :: l.
Proof.
  destruct 1 as [|q l Hq _]; [reflexivity|].
  simpl. destruct (Nat.leb_spec p q); [reflexivity | lia].
Qed.

(** Sorting a strictly increasing list, or removing its duplicates,
    changes nothing. *)
Lemma sorted_increasing (l : list nat) :
  StronglySorted lt l -> ExtractProjects.sorted l = l.
Proof.
  induction 1 as [|p l Hs IH Hp]; [reflexivity|].
  unfold ExtractProjects.sorted in *. cbn [fold_right]. rewrite IH.
  apply insert_page_smallest. exact Hp.
Qed.

Lemma remove_dups_increasing (l : list nat) :
  StronglySorted lt l -> remove_dups l = l.
Proof.
  induction 1 as [|p l Hs IH Hp]; [reflexivity|].
  cbn [remove_dups]. rewrite IH.
  destruct (decide_rel elem_of p l) as [Hin|]; [|reflexivity].
  rewrite Forall_forall in Hp. specialize (Hp p Hin). lia.
Qed.

Lemma existsb_filter {A} (P : A -> bool) (l : list A) :
  existsb P l = match List.filter P l with [] => false | _ => true end.
Proof.
  induction l as [|a l IH]; [reflexivity|].
  simpl. destruct (P a); [reflexivity | exact IH].
Qed.

(** On the pages of a document, sorting and removing duplicates
    change nothing: the start pages are the pages the rule selects. *)
Lemma start_pages_rule (texts : list (list N)) :
  ExtractProjects.find_project_start_pages (ExtractProjects.extract_text_per_page texts)
  = List.map fst
      (List.filter
         (if existsb ExtractProjects.numbered_start
                     (ExtractProjects.extract_text_per_page texts)
          then ExtractProjects.numbered_start
          else ExtractProjects.titled_start)
         (ExtractProjects.extract_text_per_page texts)).
Proof.
  unfold ExtractProjects.find_project_start_pages. rewrite existsb_filter.
  rewrite extract_text_per_page_from.
  destruct (selected_pages_increasing ExtractProjects.numbered_start texts 0) as [Hn _].
  destruct (selected_pages_increasing ExtractProjects.titled_start texts 0) as [Ht _].
  destruct (List.filter ExtractProjects.numbered_start _) as [|pt l] eqn:E.
  - cbn [List.map]. rewrite remove_dups_increasing by exact Ht.
    apply sorted_increasing. exact Ht.
  - rewrite <- E in *.
    destruct (List.map fst _) as [|p ps] eqn:Em at 1.
    + rewrite E in Em. discriminate Em.
    + rewrite <- Em. apply sorted_increasing. exact Hn.
Qed.

Lemma start_pages_bounds (texts : list (list N)) :
  StronglySorted lt
    (ExtractProjects.find_project_start_pages (ExtractProjects.extract_text_per_page texts))
  /\ Forall (fun p => 2 <= p <= List.length texts)
       (ExtractProjects.find_project_start_pages
          (ExtractProjects.extract_text_per_page texts)).
Proof.
  rewrite start_pages_rule, extract_text_per_page_from.
  set (rule := if existsb _ _ then _ else _).
  destruct (selected_pages_increasing rule texts 0) as [Hs Hb].
  split; [exact Hs|].
  rewrite Forall_forall in Hb. apply Forall_forall. intros p Hp.
  specialize (Hb p Hp). simpl in Hb. split; [|lia].
  destruct (Nat.eq_dec p 1) as [->|]; [|lia].
  exfalso. apply list_elem_of_In, in_map_iff in Hp.
  destruct Hp as ([p t] & Hfst & Hin). simpl in Hfst. subst p.
  apply filter_In in Hin. destruct Hin as [_ Hrule].
  unfold rule in Hrule.
  destruct (existsb _ _); unfold ExtractProjects.numbered_start,
    ExtractProjects.titled_start in Hrule; simpl in Hrule; discriminate Hrule.
Qed.

(** X10. On the pages of a document, numbered from 1 on, the start
    pages come out in page order, each once; the cover page is never
    one of them, and none lies beyond the last page. *)
Theorem X10_start_pages_in_page_order (texts : list (list N)) :
  StronglySorted lt
    (ExtractProjects.find_project_start_pages
       (ExtractProjects.extract_text_per_page texts))
  /\ Forall (fun p => 2 <= p <= List.length texts)
       (ExtractProjects.find_project_start_pages
          (ExtractProjects.extract_text_per_page texts)).
Proof. apply start_pages_bounds. Qed.

(** ** The text block of a project *)

Lemma filter_pages_none (P : nat * list N -> bool) (texts : list (list N)) :
  forall k,
    (forall p t, k < p -> P (p, t) = false) ->
    List.filter P (imap (fun i text => (S (k + i), text)) texts) = [].
Proof.
  induction texts as [|t texts IH]; intros k H; rewrite pages_from; [reflexivity|].
  cbn [List.filter]. rewrite H by lia.
  apply IH. intros p t' Hp. apply H. lia.
Qed.

Lemma block_pages (start_page : nat) (texts : list (list N)) :
  forall k,
    k <= start_page ->
    List.map snd
      (List.filter (fun pt => (fst pt =? start_page) || (fst pt =? start_page + 1))
                   (imap (fun i text => (S (k + i), text)) texts))
    = match texts !! (start_page - S k), texts !! (start_page - k) with
      | Some t, Some t' => if start_page =? k then [t'] else [t; t']
      | Some t, None => if start_page =? k then [] else [t]
      | None, _ => []
      end.
Proof.
  induction texts as [|t texts IH]; intros k Hk; rewrite pages_from.
  - rewrite !lookup_nil. reflexivity.
  - cbn [List.filter fst].
    destruct (Nat.eq_dec start_page k) as [->|Hne].
    + (* the page before the first of these: only the next page counts *)
      rewrite Nat.sub_diag, Nat.eqb_refl.
      replace (k - S k) with 0 by lia. cbn [lookup list_lookup].
      replace (S k =? k) with false by (symmetry; apply Nat.eqb_neq; lia).
      replace (S k =? k + 1) with true by (symmetry; apply Nat.eqb_eq; lia).
      cbn [orb List.map snd]. f_equal.
      rewrite filter_pages_none; [reflexivity|].
      intros p t' Hp. cbn [fst].
      replace (p =? k) with false by (symmetry; apply Nat.eqb_neq; lia).
      replace (p =? k + 1) with false by (symmetry; apply Nat.eqb_neq; lia).
      reflexivity.
    + replace (S k =? start_page + 1) with false by (symmetry; apply Nat.eqb_neq; lia).
      rewrite orb_false_r.
      replace (start_page =? k) with false by (symmetry; apply Nat.eqb_neq; lia).
      replace (start_page - k) with (S (start_page - S k)) by lia.
      destruct (Nat.eq_dec start_page (S k)) as [->|Hne'].
      * rewrite Nat.eqb_refl, Nat.sub_diag. cbn [lookup list_lookup List.map snd].
        rewrite (IH (S k)) by lia. rewrite Nat.sub_diag, Nat.eqb_refl.
        replace (S k - S (S k)) with 0 by lia.
        destruct texts as [|t' texts']; reflexivity.
      * replace (S k =? start_page) with false by (symmetry; apply Nat.eqb_neq; lia).
        rewrite (IH (S k)) by lia.
        replace (start_page =? S k) with false by (symmetry; apply Nat.eqb_neq; lia).
        replace (start_page - S k) with (S (start_page - S (S k))) by lia.
        reflexivity.
Qed.

(** X11. The text block of a project is the text of its start page,
    followed after a line break by the text of the next page when
    the document has one, whether or not that page starts another
    project. *)
Theorem X11_text_block_two_pages (texts : list (list N)) (i : nat) (t : list N) :
  texts !! i = Some t ->
  ExtractProjects.get_project_text_block (ExtractProjects.extract_text_per_page texts) (S i)
  = match texts !! S i with
    | Some t' => t ++ [10%N] ++ t'
    | None => t
    end.
Proof.
  intros Ht. unfold ExtractProjects.get_project_text_block.
  rewrite extract_text_per_page_from, (block_pages (S i) texts 0) by lia.
  replace (S i - 1) with i by lia. rewrite Nat.sub_0_r, Ht.
  destruct (texts !! S i); reflexivity.
Qed.

Lemma X11_text_block_two_pages_witness :
  ExtractProjects.get_project_text_block
    (ExtractProjects.extract_text_per_page [utf8 "cover"; utf8 "PROJET N°1"; utf8 "PROJET N°2"])
    2
  = utf8 "PROJET N°1" ++ [10%N] ++ utf8 "PROJET N°2".
Proof.
  apply (X11_text_block_two_pages [utf8 "cover"; utf8 "PROJET N°1"; utf8 "PROJET N°2"] 1
           (utf8 "PROJET N°1") eq_refl).
Defined.

(** ** Numbering of the rows *)

Local Open Scope Z_scope.

Lemma rows_of_pages_ids (pages_text : ExtractProjects.pages) (project_pages : list nat) :
  forall g,
    List.map ExtractProjects.project_id
             (ExtractProjects.rows_of_pages pages_text project_pages g)
    = List.map (fun k => g + Z.of_nat k) (seq 0 (List.length project_pages))
    /\ List.length (ExtractProjects.rows_of_pages pages_text project_pages g)
       = List.length project_pages
    /\ List.map ExtractProjects.pdf_page_number
                (ExtractProjects.rows_of_pages pages_text project_pages g)
       = project_pages.
Proof.
  induction project_pages as [|p ps IH]; intros g; [repeat split|].
  destruct (IH (g + 1)) as (Hid & Hlen & Hpg).
  cbn [ExtractProjects.rows_of_pages List.map List.length seq
       ExtractProjects.project_id ExtractProjects.pdf_page_number].
  rewrite Hid, Hlen, Hpg. repeat split. f_equal; [f_equal; lia|].
  rewrite <- seq_shift, List.map_map. apply List.map_ext. intros k. lia.
Qed.

Lemma map_seq_from {A} (n : nat) :
  forall (f : nat -> A) (a : nat),
    List.map f (seq a n) = List.map (fun k => f (a + k)%nat) (seq 0 n).
Proof.
  induction n as [|n IH]; intros f a; [reflexivity|].
  cbn [seq List.map]. rewrite Nat.add_0_r. f_equal.
  rewrite (IH f (S a)), (IH (fun k => f (a + k)%nat) 1%nat).
  apply List.map_ext. intros k. f_equal. lia.
Qed.

Lemma main_loop_ids (docs : list (option (list (list N)))) :
  forall g,
    List.map ExtractProjects.project_id (ExtractProjects.main_loop docs g)
    = List.map (fun k => g + Z.of_nat k)
               (seq 0 (List.length (ExtractProjects.main_loop docs g))).
Proof.
  induction docs as [|[texts|] docs IH]; intros g; cbn [ExtractProjects.main_loop].
  - reflexivity.
  - set (pages_text := ExtractProjects.extract_text_per_page texts).
    set (project_pages := List.filter _ _).
    destruct (rows_of_pages_ids pages_text project_pages g) as (Hid & Hlen & _).
    rewrite List.map_app, Hid, IH, length_app, seq_app, List.map_app, Hlen.
    f_equal. cbn [Nat.add].
    rewrite (map_seq_from _ _ (List.length project_pages)).
    apply List.map_ext. intros k. lia.
  - apply IH.
Qed.

Lemma rows_of_pages_rows (pages_text : ExtractProjects.pages) (project_pages : list nat) :
  forall g,
    Forall (fun r =>
              In (ExtractProjects.pdf_page_number r) project_pages
              /\ ExtractProjects.numbers r
                 = ExtractProjects.build_record
                     (ExtractProjects.get_project_text_block
                        pages_text (ExtractProjects.pdf_page_number r)))
           (ExtractProjects.rows_of_pages pages_text project_pages g).
Proof.
  induction project_pages as [|p ps IH]; intros g; [constructor|].
  cbn [ExtractProjects.rows_of_pages]. constructor.
  - split; [left; reflexivity | reflexivity].
  - eapply Forall_impl; [apply IH|]. intros r [Hin Hn]. split; [right; exact Hin | exact Hn].
Qed.

Lemma main_loop_rows (docs : list (option (list (list N)))) :
  forall g,
    Forall (fun r =>
              exists texts,
                In (Some texts) docs
                /\ (2 <= ExtractProjects.pdf_page_number r <= List.length texts)%nat
                /\ In (ExtractProjects.pdf_page_number r)
                      (ExtractProjects.find_project_start_pages
                         (ExtractProjects.extract_text_per_page texts))
                /\ ExtractProjects.numbers r
                   = ExtractProjects.build_record
                       (ExtractProjects.get_project_text_block
                          (ExtractProjects.extract_text_per_page texts)
                          (ExtractProjects.pdf_page_number r)))
           (ExtractProjects.main_loop docs g).
Proof.
  induction docs as [|[texts|] docs IH]; intros g; cbn [ExtractProjects.main_loop].
  - constructor.
  - apply Forall_app. split.
    + eapply Forall_impl; [apply rows_of_pages_rows|].
      intros r [Hin Hn]. exists texts. split; [left; reflexivity|].
      apply filter_In in Hin. destruct Hin as [Hin _].
      destruct (start_pages_bounds texts) as [_ Hb].
      rewrite Forall_forall in Hb.
      split; [apply Hb; apply list_elem_of_In; exact Hin|]. split; [exact Hin | exact Hn].
    + eapply Forall_impl; [apply IH|].
      intros r (texts' & Hin & H). exists texts'. split; [right; exact Hin | exact H].
  - eapply Forall_impl; [apply IH|].
    intros r (texts' & Hin & H). exists texts'. split; [right; exact Hin | exact H].
Qed.

(** X12. The rows of a run of [extract_projects.py] are numbered 1, 2,
    3, ... without a gap, across the documents and in the order of
    the pages; a document that is not found takes no number.  Every
    row comes from a start page of one of the documents, never its
    cover, and its numbers are read in the text block of that page. *)
Theorem X12_rows_numbered_from_one (docs : list (option (list (list N)))) :
  List.map ExtractProjects.project_id (ExtractProjects.main docs)
  = List.map Z.of_nat (seq 1 (List.length (ExtractProjects.main docs)))
  /\ Forall (fun r =>
               exists texts,
                 In (Some texts) docs
                 /\ (2 <= ExtractProjects.pdf_page_number r <= List.length texts)%nat
                 /\ In (ExtractProjects.pdf_page_number r)
                       (ExtractProjects.find_project_start_pages
                          (ExtractProjects.extract_text_per_page texts))
                 /\ ExtractProjects.numbers r
                    = ExtractProjects.build_record
                        (ExtractProjects.get_project_text_block
                           (ExtractProjects.extract_text_per_page texts)
                           (ExtractProjects.pdf_page_number r)))
            (ExtractProjects.main docs).
Proof.
  unfold ExtractProjects.main. split; [|apply main_loop_rows].
  rewrite main_loop_ids.
  rewrite (map_seq_from _ Z.of_nat 1%nat).
  apply List.map_ext. intros k. lia.
Qed.

Local Close Scope Z_scope.
Local Close Scope nat_scope.

(* ===================================================================== *)
(** * Sector and sub-sector in cri_benimallal.py                          *)
(* ===================================================================== *)

Local Close Scope Q_scope.
Local Close Scope Z_scope.
Local Close Scope nat_scope.

(** ** A pattern anchored at the start *)

Lemma search_bol_later fl (r : regex) (t : list N) :
  forall rest pos prev,
    pos <> O -> search_from fl (RSeq RBol r) t pos prev rest = None.
Proof.
  induction rest as [|y rest IH]; intros pos prev Hpos; cbn [search_from];
    rewrite rmatch_seq_unfold; cbn [rmatch cpos];
    destruct (Nat.eqb_spec pos 0) as [E|_]; try (exfalso; exact (Hpos E)).
  - reflexivity.
  - apply IH. discriminate.
Qed.

Lemma search_bol_start fl (r : regex) (t : list N) prev rest m :
  search_from fl (RSeq RBol r) t O prev rest = Some m -> m_start m = O.
Proof.
  destruct rest as [|y rest]; cbn [search_from];
    destruct (rmatch _ _ _ _ _) as [[c' cs]|]; intros H;
    try (inversion H; subst; reflexivity); try discriminate H.
  rewrite search_bol_later in H by discriminate. discriminate H.
Qed.

Lemma sub_from_none fuel fl (r : regex) repl (t : list N) pos prev rest :
  search_from fl r t pos prev rest = None ->
  sub_from fuel fl r repl t pos prev rest = rest.
Proof. intros H. destruct fuel; cbn [sub_from]; [|rewrite H]; reflexivity. Qed.

(** Deleting the matches of a pattern anchored at the start deletes a
    prefix at most. *)
Lemma re_sub_bol fl (r : regex) (t : list N) :
  exists n, re_sub (RSeq RBol r) [] fl t = skipn n t.
Proof.
  unfold re_sub, re_sub_fun. cbn [sub_from].
  destruct (search_from fl (RSeq RBol r) t 0 None t) as [m|] eqn:E;
    [|exists O; reflexivity].
  rewrite (search_bol_start _ _ _ _ _ _ E), !Nat.sub_0_r. cbn [firstn skipn app].
  destruct (m_end m) as [|k] eqn:Ek.
  - exists O. destruct t as [|y rest]; [reflexivity|]. cbn [firstn skipn app].
    rewrite sub_from_none by (apply search_bol_later; discriminate). reflexivity.
  - exists (S k). cbn [firstn app].
    rewrite sub_from_none by (apply search_bol_later; discriminate). reflexivity.
Qed.

(** ** Clean texts: the fixed points of the squeeze *)

Lemma squeeze_length (x : list N) :
  forall b, (List.length (squeeze [32%N] b x) <= List.length x)%nat.
Proof.
  induction x as [|a x IH]; intros b; [reflexivity|].
  rewrite squeeze_cons. destruct (is_space a).
  - rewrite length_app. specialize (IH true). destruct b; simpl; lia.
  - specialize (IH false). simpl. lia.
Qed.

Lemma squeezed_tail (a : N) (x : list N) :
  squeeze [32] false (a :: x) = a :: x -> squeeze [32] false x = x.
Proof.
  rewrite squeeze_cons. destruct (is_space a).
  - intros H. cbn [app] in H. injection H as Ha Hx. destruct x as [|y x']; [reflexivity|].
    rewrite squeeze_cons in Hx. rewrite squeeze_cons.
    destruct (is_space y); [|exact Hx].
    exfalso. cbn [app] in Hx. pose proof (squeeze_length x' true) as Hl.
    rewrite Hx in Hl. simpl in Hl. lia.
  - intros H. injection H as Hx. exact Hx.
Qed.

Lemma squeezed_skipn (n : nat) :
  forall x, squeeze [32] false x = x -> squeeze [32] false (skipn n x) = skipn n x.
Proof.
  induction n as [|n IH]; intros x H; [exact H|].
  destruct x as [|a x]; [reflexivity|].
  cbn [skipn]. apply IH. eapply squeezed_tail. exact H.
Qed.

Lemma squeezed_strip (x : list N) :
  squeeze [32] false x = x -> squeeze [32] false (strip x) = strip x.
Proof.
  intros H. destruct (strip_decomp x) as (sp0 & sp1 & E & H0 & H1 & Hst & Hen).
  set (u := strip x) in *. clearbody u.
  apply (squeezed_skipn (List.length sp0)) in H.
  rewrite E, drop_app_length in H.
  destruct u as [|c u]; [reflexivity|].
  rewrite squeeze_trailing in H by (exact H1 || discriminate || exact Hen).
  apply app_inj_1 in H; [tauto|].
  pose proof (squeeze_length (c :: u) false) as Hl1.
  assert (Hl2 : (List.length (pad sp1) <= List.length sp1)%nat)
    by (destruct sp1; simpl; lia).
  apply (f_equal (@List.length N)) in H. rewrite !length_app in H. lia.
Qed.

Lemma strip_strip (x : list N) : strip (strip x) = strip x.
Proof.
  destruct (strip_decomp x) as (_ & _ & _ & _ & _ & Hst & Hen).
  pose proof (strip_pad [] (strip x) [] (List.Forall_nil _) (List.Forall_nil _) Hst Hen) as H.
  cbn [app] in H. rewrite app_nil_r in H. exact H.
Qed.

(** A clean text: cleaning it changes nothing. *)
Lemma clean_text_squeezed (x : list N) :
  squeeze [32] false x = x -> Cri.clean_text (strip x) = strip x.
Proof.
  intros H. rewrite clean_text_squeeze, strip_strip. apply squeezed_strip. exact H.
Qed.

Lemma _strip_label_prefix_clean (s : list N) :
  Cri.clean_text (Cri._strip_label_prefix s) = Cri._strip_label_prefix s
  /\ exists n, Cri._strip_label_prefix s = strip (skipn n (Cri.clean_text s)).
Proof.
  unfold Cri._strip_label_prefix.
  assert (Hshape : exists r, Cri.RE_LABEL_PREFIX = RSeq RBol r)
    by (eexists; reflexivity).
  destruct Hshape as [r ->].
  destruct (re_sub_bol IGNORECASE r (Cri.clean_text s)) as [n ->].
  split; [|exists n; reflexivity].
  apply clean_text_squeezed. apply squeezed_skipn.
  rewrite clean_text_squeeze. apply squeeze_idempotent.
Qed.

(** X13. The sector and the sub-sector of a record are clean texts:
    words separated by single plain spaces, with no line break, no
    tab and no white space at either end, so that cleaning them again
    changes nothing; the category of the project bank is the sector. *)
Theorem X13_sector_is_clean_text (filename : list N) (l : Cri.layout_data) (id : Z)
    (r : Cri.project_record) :
  Cri.process_one_pdf filename l id = Some r ->
  (exists s, Cri.sector r = Some s /\ Cri.clean_text s = s
             /\ s = join (utf8 " ") (split_ws s))
  /\ (forall s, Cri.sub_sector r = Some s ->
                Cri.clean_text s = s /\ s = join (utf8 " ") (split_ws s))
  /\ Cri.project_bank_category r = Cri.sector r.
Proof.
  assert (Hwords : forall s, Cri.clean_text s = s -> s = join (utf8 " ") (split_ws s)).
  { intros s Hs. rewrite <- Hs at 1. apply clean_text_words. }
  assert (Hlabel : forall s, Cri.clean_text (Cri._strip_label_prefix s)
                             = Cri._strip_label_prefix s)
    by (intros s; apply _strip_label_prefix_clean).
  intros H. unfold Cri.process_one_pdf in H.
  destruct (Cri.full_text l) as [|c full]; [discriminate H|].
  apply (inj Some) in H. subst r.
  cbn [Cri.sector Cri.sub_sector Cri.project_bank_category Cri.extract_fields
       Cri.f_sector Cri.f_sub_sector].
  split; [|split; [|reflexivity]].
  - eexists. split; [reflexivity|].
    assert (Hs : Cri.clean_text
                   (Cri.extract_sector_from_layout (Cri.left_text l) (Cri.full_text l))
                 = Cri.extract_sector_from_layout (Cri.left_text l) (Cri.full_text l)).
    { unfold Cri.extract_sector_from_layout.
      destruct (re_search Cri.RE_SECTOR_LEFT _ _); [apply Hlabel|].
      destruct (re_search Cri.RE_SECTOR_FULL _ _); [apply Hlabel|].
      vm_compute. reflexivity. }
    split; [exact Hs | apply Hwords; exact Hs].
  - intros s Hs.
    assert (Hc : Cri.clean_text s = s).
    { unfold Cri.extract_sub_sector_from_layout in Hs.
      destruct (re_search Cri.RE_SUB_RIGHT _ _);
        [inversion Hs; subst; apply Hlabel|].
      destruct (re_search Cri.RE_SUB_FULL _ _);
        [inversion Hs; subst; apply Hlabel | discriminate Hs]. }
    split; [exact Hc | apply Hwords; exact Hc].
Qed.

Lemma X13_sector_is_clean_text_witness :
  exists r,
    Cri.process_one_pdf (utf8 "centre-appel.pdf") example_sheet 7 = Some r
    /\ Cri.project_bank_category r = Cri.sector r.
Proof.
  eexists. split; [reflexivity|].
  apply (X13_sector_is_clean_text (utf8 "centre-appel.pdf") example_sheet 7 _ eq_refl).
Defined.

(* ===================================================================== *)
(** * The reference as a key                                              *)
(* ===================================================================== *)

Local Close Scope Q_scope.
Local Close Scope Z_scope.
Local Close Scope nat_scope.

Lemma bytes_of_string_inj (a b : string) : bytes_of_string a = bytes_of_string b -> a = b.
Proof.
  unfold bytes_of_string. intros H.
  rewrite <- (string_of_list_ascii_of_string a), <- (string_of_list_ascii_of_string b).
  f_equal. revert H.
  generalize (list_ascii_of_string a) (list_ascii_of_string b).
  induction l as [|x l IH]; intros [|y l']; simpl; intros H; try discriminate H.
  - reflexivity.
  - injection H as Hx Hl. f_equal; [|apply IH; exact Hl].
    rewrite <- (ascii_N_embedding x), <- (ascii_N_embedding y), Hx. reflexivity.
Qed.

Lemma to_int_not_nil (z : Z) :
  Z.to_int z <> Decimal.Pos Decimal.Nil /\ Z.to_int z <> Decimal.Neg Decimal.Nil.
Proof.
  split; intros E; pose proof (DecimalZ.of_to z) as H; rewrite E in H; simpl in H;
    subst z; discriminate E.
Qed.

(** Two identifiers are written alike only when they are equal. *)
Lemma str_of_Z_inj (a b : Z) : str_of_Z a = str_of_Z b -> a = b.
Proof.
  unfold str_of_Z. intros H. apply bytes_of_string_inj in H.
  apply (f_equal DecimalString.NilZero.int_of_string) in H.
  rewrite !DecimalString.NilZero.isi in H by apply to_int_not_nil.
  injection H as H. apply DecimalZ.to_int_inj. exact H.
Qed.

Lemma string_of_uint_digits (d : Decimal.uint) :
  all_digits (bytes_of_string (DecimalString.NilEmpty.string_of_uint d)).
Proof.
  unfold all_digits, bytes_of_string.
  induction d; simpl; constructor; try reflexivity; assumption.
Qed.

(** An identifier that is not negative is written with digits only. *)
Lemma str_of_Z_digits (z : Z) : (0 <= z)%Z -> all_digits (str_of_Z z).
Proof.
  intros Hz. unfold str_of_Z, DecimalString.NilZero.string_of_int.
  destruct z as [|p|p]; [| |lia]; cbn [Z.to_int].
  - repeat constructor.
  - unfold DecimalString.NilZero.string_of_uint.
    destruct (Pos.to_uint p); try apply string_of_uint_digits. repeat constructor.
Qed.

(** What follows the last hyphen of a text. *)
Lemma before_first (s : N) (a : list N) :
  forall a' b b',
    Forall (fun y => y <> s) a -> Forall (fun y => y <> s) a' ->
    a ++ s :: b = a' ++ s :: b' -> a = a'.
Proof.
  induction a as [|x a IH]; intros [|x' a'] b b' Ha Ha' H; simpl in H.
  - reflexivity.
  - injection H as Hx _. apply Forall_cons in Ha'. destruct Ha' as [Hne _]. congruence.
  - injection H as Hx _. apply Forall_cons in Ha. destruct Ha as [Hne _]. congruence.
  - injection H as Hx H. apply Forall_cons in Ha. apply Forall_cons in Ha'.
    f_equal; [exact Hx|]. eapply IH; [| |exact H]; tauto.
Qed.

Lemma after_last (s : N) (x x' d d' : list N) :
  Forall (fun y => y <> s) d -> Forall (fun y => y <> s) d' ->
  x ++ s :: d = x' ++ s :: d' -> d = d'.
Proof.
  intros Hd Hd' H. apply (f_equal (@rev N)) in H.
  rewrite !rev_app_distr in H. cbn [rev] in H. rewrite <- !app_assoc in H. cbn [app] in H.
  apply before_first in H.
  - rewrite <- (rev_involutive d), <- (rev_involutive d'), H. reflexivity.
  - apply Forall_rev. exact Hd.
  - apply Forall_rev. exact Hd'.
Qed.

Lemma digits_no_hyphen (d : list N) : all_digits d -> Forall (fun y => y <> 45) d.
Proof.
  intros H. eapply Forall_impl; [exact H|]. intros y Hy E. subst y. discriminate Hy.
Qed.

Lemma make_reference_tail (ref_region ref_title : list N) (id : Z) :
  exists x, Cri.make_reference ref_region ref_title id = x ++ 45 :: str_of_Z id.
Proof.
  rewrite make_reference_parts. change (utf8 "-") with [45].
  set (title := if (_ <? _)%nat then _ else _).
  exists (ref_region ++ [45] ++ title). rewrite <- !app_assoc. reflexivity.
Qed.

(** X14. The reference is a key of the rows: two records whose
    identifiers are not negative carry the same reference only when
    they carry the same identifier, whatever their titles and however
    the titles are cut. *)
Theorem X14_reference_identifies_project (f1 f2 : list N) (l1 l2 : Cri.layout_data)
    (id1 id2 : Z) (r1 r2 : Cri.project_record) :
  Cri.process_one_pdf f1 l1 id1 = Some r1 ->
  Cri.process_one_pdf f2 l2 id2 = Some r2 ->
  (0 <= id1)%Z -> (0 <= id2)%Z ->
  Cri.project_reference r1 = Cri.project_reference r2 ->
  Cri.project_id r1 = Cri.project_id r2 /\ id1 = id2.
Proof.
  intros H1 H2 Hid1 Hid2 Href.
  unfold Cri.process_one_pdf in H1, H2.
  destruct (Cri.full_text l1); [discriminate H1|].
  destruct (Cri.full_text l2); [discriminate H2|].
  apply (inj Some) in H1. apply (inj Some) in H2. subst r1 r2.
  cbn [Cri.project_reference Cri.project_id] in *.
  destruct (make_reference_tail
              (Cri.normalize_for_reference Cri.REGION)
              (Cri.normalize_for_reference
                 (Cri.f_project_title (Cri.extract_fields f1 l1))) id1) as [x1 E1].
  destruct (make_reference_tail
              (Cri.normalize_for_reference Cri.REGION)
              (Cri.normalize_for_reference
                 (Cri.f_project_title (Cri.extract_fields f2 l2))) id2) as [x2 E2].
  rewrite E1, E2 in Href.
  apply after_last in Href;
    [|apply digits_no_hyphen, str_of_Z_digits; assumption
     |apply digits_no_hyphen, str_of_Z_digits; assumption].
  apply str_of_Z_inj in Href. split; exact Href.
Qed.

Lemma X14_reference_identifies_project_witness :
  exists r,
    Cri.process_one_pdf (utf8 "centre-appel.pdf") example_sheet 7 = Some r
    /\ Cri.project_id r = 7%Z.
Proof.
  eexists. split; [reflexivity|].
  apply (X14_reference_identifies_project
           (utf8 "centre-appel.pdf") (utf8 "centre-appel.pdf") example_sheet example_sheet
           7 7 _ _ eq_refl eq_refl); [lia | lia | reflexivity].
Defined.

(* ===================================================================== *)
(** * Words: splitting and joining                                        *)
(* ===================================================================== *)

Local Close Scope Q_scope.
Local Close Scope Z_scope.
Local Close Scope nat_scope.

Lemma split_ws_aux_word (w : list N) :
  Forall (fun y => is_space y = false) w ->
  forall cur rest, split_ws_aux cur (w ++ rest) = split_ws_aux (rev w ++ cur) rest.
Proof.
  induction 1 as [|y w Hy _ IH]; intros cur rest; [reflexivity|].
  simpl. rewrite Hy, IH, <- app_assoc. reflexivity.
Qed.

(** Round trip: the words joined by single spaces split into the same
    words. *)
Lemma split_ws_join (ws : list (list N)) :
  Forall (fun w => w <> [] /\ Forall (fun y => is_space y = false) w) ws ->
  split_ws (join [32] ws) = ws.
Proof.
  unfold split_ws. induction 1 as [|w ws [Hne Hw] Hws IH]; [reflexivity|].
  assert (Hrev : rev w <> []).
  { intros E. apply Hne. rewrite <- (rev_involutive w), E. reflexivity. }
  destruct ws as [|w' ws].
  - cbn [join]. rewrite <- (app_nil_r w) at 1.
    rewrite split_ws_aux_word by exact Hw. rewrite app_nil_r. cbn [split_ws_aux].
    destruct (rev w) eqn:E; [congruence|]. rewrite <- E, rev_involutive. reflexivity.
  - change (join [32] (w :: w' :: ws)) with (w ++ 32 :: join [32] (w' :: ws)).
    rewrite split_ws_aux_word by exact Hw. rewrite app_nil_r.
    change (split_ws_aux (rev w) (32 :: join [32] (w' :: ws)))
      with (match rev w with
            | [] => split_ws_aux [] (join [32] (w' :: ws))
            | _ => rev (rev w) :: split_ws_aux [] (join [32] (w' :: ws))
            end).
    destruct (rev w) eqn:E; [congruence|]. rewrite <- E, rev_involutive, IH. reflexivity.
Qed.

(** The words of a text are not empty and hold no white space. *)
Lemma split_ws_aux_words (s : list N) :
  forall cur,
    Forall (fun y => is_space y = false) cur ->
    Forall (fun w => w <> [] /\ Forall (fun y => is_space y = false) w)
           (split_ws_aux cur s).
Proof.
  assert (Hcur : forall cur, Forall (fun y => is_space y = false) cur -> cur <> [] ->
                   rev cur <> [] /\ Forall (fun y => is_space y = false) (rev cur)).
  { intros cur H Hne. split; [|apply Forall_rev; exact H].
    intros E. apply Hne. rewrite <- (rev_involutive cur), E. reflexivity. }
  induction s as [|c s IH]; intros cur H.
  - cbn [split_ws_aux]. destruct cur as [|a cur]; [constructor|].
    constructor; [apply Hcur; [exact H | discriminate] | constructor].
  - cbn [split_ws_aux]. destruct (is_space c) eqn:Hc.
    + destruct cur as [|a cur]; [apply IH; constructor|].
      constructor; [apply Hcur; [exact H | discriminate] | apply IH; constructor].
    + apply IH. constructor; assumption.
Qed.

Lemma split_ws_words (s : list N) :
  Forall (fun w => w <> [] /\ Forall (fun y => is_space y = false) w) (split_ws s).
Proof. apply split_ws_aux_words. constructor. Qed.

(** X15. The title after [_dedupe_repeated_title] is clean text, and
    its words are the words of the title as captured, or one of two
    equal halves of them: no word is lost otherwise, none is added. *)
Theorem X15_dedupe_keeps_words (title : list N) :
  Cri.clean_text (Cri._dedupe_repeated_title title) = Cri._dedupe_repeated_title title
  /\ (split_ws (Cri._dedupe_repeated_title title) = split_ws title
      \/ split_ws title
         = split_ws (Cri._dedupe_repeated_title title)
           ++ split_ws (Cri._dedupe_repeated_title title)).
Proof.
  unfold Cri._dedupe_repeated_title. cbv zeta.
  pose proof (clean_text_idempotent title) as Hidem.
  pose proof (split_ws_clean_text title) as Hsplit.
  destruct (Cri.clean_text title) as [|c t] eqn:E; [split; [reflexivity | left; exact Hsplit]|].
  set (words := split_ws (c :: t)) in *.
  destruct ((6 <=? List.length words)%nat && (List.length words mod 2 =? 0)%nat);
    [|split; [exact Hidem | left; exact Hsplit]].
  destruct (bool_decide (firstn (List.length words / 2) words
                         = skipn (List.length words / 2) words)) eqn:Hd;
    [|split; [exact Hidem | left; exact Hsplit]].
  apply bool_decide_eq_true in Hd.
  set (half := firstn (List.length words / 2) words) in *.
  assert (Hhalf : Forall (fun w => w <> [] /\ Forall (fun y => is_space y = false) w) half).
  { apply Forall_take. apply split_ws_words. }
  change (utf8 " ") with [32].
  split.
  - rewrite clean_text_words, split_ws_join by exact Hhalf. reflexivity.
  - right. rewrite split_ws_join by exact Hhalf.
    rewrite <- Hsplit. rewrite <- (take_drop (List.length words / 2) words) at 1.
    fold half. rewrite <- Hd. reflexivity.
Qed.

(* ===================================================================== *)
(** * Description in cri_benimallal.py                                    *)
(* ===================================================================== *)

(** X16. The description of a project sheet, when one is found, is
    clean text: the words of the passage joined by single plain
    spaces, on one line, with no white space at either end. *)
Theorem X16_description_is_clean_text (left_text full_text d : list N) :
  Cri.extract_description_from_layout left_text full_text = Some d ->
  Cri.clean_text d = d
  /\ d = join (utf8 " ") (split_ws d)
  /\ plain_spaces d /\ starts_in_word d /\ ends_in_word d.
Proof.
  intros H.
  assert (Hd : exists s, d = Cri.clean_text s).
  { unfold Cri.extract_description_from_layout in H.
    repeat match type of H with
           | match ?x with Some _ => _ | None => _ end = Some _ =>
             destruct x; [apply (inj Some) in H; eexists; symmetry; exact H|]
           end.
    discriminate H. }
  destruct Hd as [s ->].
  split; [apply clean_text_idempotent|].
  split; [rewrite <- (clean_text_idempotent s) at 1; apply clean_text_words|].
  split; [rewrite clean_text_squeeze; apply squeeze_plain_spaces | apply clean_text_ends].
Qed.

Lemma X16_description_is_clean_text_witness :
  Cri.extract_description_from_layout
    (utf8 "DESCRIPTION DU PROJET Une  unité de   trituration") []
  = Some (utf8 "Une unité de trituration")
  /\ Cri.clean_text (utf8 "Une unité de trituration") = utf8 "Une unité de trituration".
Proof.
  split; [vm_compute; reflexivity|].
  apply (X16_description_is_clean_text
           (utf8 "DESCRIPTION DU PROJET Une  unité de   trituration") []
           (utf8 "Une unité de trituration")).
  vm_compute. reflexivity.
Defined.

(* ===================================================================== *)
(** * Industrial zones in cri_benimallal.py                               *)
(* ===================================================================== *)

Local Close Scope Q_scope.
Local Close Scope Z_scope.
Local Close Scope nat_scope.

(** ** Stripping a set of characters *)

Lemma lstrip_by_head (p : N -> bool) (s : list N) c s' :
  lstrip_by p s = c :: s' -> p c = false.
Proof.
  induction s as [|a s IH]; simpl; [discriminate|].
  destruct (p a) eqn:E; [exact IH|]. intros H. inversion H; subst. exact E.
Qed.

Lemma lstrip_by_suffix (p : N -> bool) (s : list N) :
  exists pre, s = pre ++ lstrip_by p s.
Proof.
  induction s as [|a s [pre IH]]; [exists []; reflexivity|].
  simpl. destruct (p a); [|exists []; reflexivity].
  exists (a :: pre). simpl. f_equal. exact IH.
Qed.

Lemma last_char_rev (v : list N) : last_char (rev v) = head v.
Proof. destruct v as [|a v]; [reflexivity|]. simpl. apply last_char_app. Qed.

Lemma last_char_In (s : list N) c : last_char s = Some c -> In c s.
Proof.
  induction s as [|a s IH]; [discriminate|].
  destruct s as [|b s]; [intros H; inversion H; left; reflexivity|].
  intros H. right. apply IH. exact H.
Qed.

(** A stripped text neither starts nor ends with a stripped character. *)
Lemma strip_by_ends (p : N -> bool) (s : list N) :
  (forall c s', strip_by p s = c :: s' -> p c = false)
  /\ (forall c, last_char (strip_by p s) = Some c -> p c = false).
Proof.
  unfold strip_by, rstrip_by. set (u := lstrip_by p s).
  assert (Hu : forall c u', u = c :: u' -> p c = false)
    by (intros c u'; apply lstrip_by_head).
  clearbody u. set (v := lstrip_by p (rev u)).
  assert (Hv : forall c v', v = c :: v' -> p c = false)
    by (intros c v'; apply lstrip_by_head).
  destruct (lstrip_by_suffix p (rev u)) as [pre Hpre]. fold v in Hpre. clearbody v.
  split.
  - intros c s' E. apply (f_equal (@rev N)) in Hpre.
    rewrite rev_involutive, rev_app_distr, E in Hpre.
    apply (Hu c (s' ++ rev pre)). exact Hpre.
  - intros c E. rewrite last_char_rev in E.
    destruct v as [|a v']; [discriminate E|]. inversion E; subst. apply (Hv c v' eq_refl).
Qed.

Lemma plain_strip_by (p : N -> bool) (x : list N) :
  plain_spaces x -> plain_spaces (strip_by p x).
Proof.
  unfold plain_spaces. intros H. apply Forall_forall. intros y Hy.
  rewrite Forall_forall in H. apply H. apply list_elem_of_In.
  eapply strip_by_In. apply list_elem_of_In. exact Hy.
Qed.

(** Stripped of the margin characters, a text with plain spaces only
    starts and ends in a word. *)
Lemma margin_stripped (x : list N) :
  plain_spaces x ->
  plain_spaces (strip_by Cri.zone_margin x)
  /\ starts_in_word (strip_by Cri.zone_margin x)
  /\ ends_in_word (strip_by Cri.zone_margin x).
Proof.
  intros Hx. pose proof (plain_strip_by Cri.zone_margin x Hx) as Hr.
  destruct (strip_by_ends Cri.zone_margin x) as [Hhead Hlast].
  assert (Hword : forall c, In c (strip_by Cri.zone_margin x) ->
                            Cri.zone_margin c = false -> is_space c = false).
  { intros c Hin Hc. destruct (is_space c) eqn:Hs; [|reflexivity].
    unfold plain_spaces in Hr. rewrite Forall_forall in Hr.
    rewrite (Hr c (proj2 (list_elem_of_In _ _) Hin) Hs) in Hc. discriminate Hc. }
  split; [exact Hr|]. split.
  - intros c s' E. apply Hword; [rewrite E; left; reflexivity | eapply Hhead; exact E].
  - intros c E. apply Hword; [apply last_char_In; exact E | apply Hlast; exact E].
Qed.

(** ** The shape of a zone *)

Lemma clean_text_plain (s : list N) : plain_spaces (Cri.clean_text s).
Proof. rewrite clean_text_squeeze. apply squeeze_plain_spaces. Qed.

Lemma join_words_clean (ws : list (list N)) :
  Forall (fun w => w <> [] /\ Forall (fun y => is_space y = false) w) ws ->
  ws <> [] ->
  join [32] ws <> [] /\ plain_spaces (join [32] ws)
  /\ starts_in_word (join [32] ws) /\ ends_in_word (join [32] ws).
Proof.
  intros Hws Hne.
  assert (E : Cri.clean_text (join [32] ws) = join [32] ws)
    by (rewrite clean_text_words, split_ws_join by exact Hws; reflexivity).
  split.
  - destruct ws as [|w ws]; [congruence|].
    apply Forall_cons in Hws. destruct Hws as [[Hw _] _].
    destruct ws; cbn [join]; [exact Hw|].
    intros H. apply app_eq_nil in H. tauto.
  - rewrite <- E. split; [apply clean_text_plain | apply clean_text_ends].
Qed.

(** A zone: not empty, with plain spaces only and none at its ends. *)
Lemma _trim_zone_shape (z : list N) :
  Cri._trim_zone z = []
  \/ (Cri._trim_zone z <> [] /\ plain_spaces (Cri._trim_zone z)
      /\ starts_in_word (Cri._trim_zone z) /\ ends_in_word (Cri._trim_zone z)).
Proof.
  unfold Cri._trim_zone. cbv zeta.
  pose proof (margin_stripped (Cri.clean_text z) (clean_text_plain z)) as Hz0.
  set (z0 := strip_by Cri.zone_margin (Cri.clean_text z)) in *.
  destruct z0 as [|c0 z0'] eqn:Ez0; [left; reflexivity|]. rewrite <- Ez0 in *.
  destruct (re_search Cri.RE_SPACED_DASH NOFLAGS z0) as [m|].
  - assert (Hx : plain_spaces (re_sub Cri.RE_STOP_TAIL [] IGNORECASE z0)).
    { apply re_sub_Forall; [constructor | apply Hz0]. }
    apply margin_stripped in Hx.
    destruct (strip_by Cri.zone_margin (re_sub Cri.RE_STOP_TAIL [] IGNORECASE z0)) eqn:E;
      [left; reflexivity | right; split; [discriminate | exact Hx]].
  - assert (Hwhole : z0 <> [] /\ plain_spaces z0 /\ starts_in_word z0 /\ ends_in_word z0)
      by (split; [rewrite Ez0; discriminate | exact Hz0]).
    assert (Hfirst : (3 <=? List.length (split_ws z0))%nat = true ->
                     let x := join [32] (firstn 3 (split_ws z0)) in
                     x <> [] /\ plain_spaces x /\ starts_in_word x /\ ends_in_word x).
    { intros H3. apply Nat.leb_le in H3. apply join_words_clean.
      - apply Forall_take. apply split_ws_words.
      - destruct (split_ws z0) as [|a [|b [|c l]]]; simpl in H3; try lia. discriminate. }
    change (utf8 " ") with [32]. cbv zeta in Hfirst.
    destruct (3 <=? List.length (split_ws z0))%nat; cbn [andb];
      repeat match goal with
             | |- context [if ?c then _ else _] => destruct c
             end; right; auto.
Qed.

(** The first word of a zone is read in a list that is not empty. *)
Lemma zone_words_not_empty (z : list N) :
  strip_by Cri.zone_margin (Cri.clean_text z) <> [] ->
  split_ws (strip_by Cri.zone_margin (Cri.clean_text z)) <> [].
Proof.
  destruct (margin_stripped (Cri.clean_text z) (clean_text_plain z)) as (_ & Hst & _).
  destruct (strip_by Cri.zone_margin (Cri.clean_text z)) as [|c s]; [congruence|].
  intros _ E. unfold split_ws in E. cbn [split_ws_aux] in E.
  rewrite (Hst c s eq_refl) in E. apply split_ws_aux_nil in E. destruct E as [E _].
  discriminate E.
Qed.

(** ** The list of zones *)

Lemma add_zone_keeps (zones : list (list N)) (m : rematch) :
  NoDup zones /\ Forall clean_value zones ->
  NoDup (Cri.add_zone zones m) /\ Forall clean_value (Cri.add_zone zones m).
Proof.
  intros [Hnd Hall]. unfold Cri.add_zone. cbv zeta.
  destruct (_trim_zone_shape (group0 m)) as [E | Hz]; [rewrite E; auto|].
  destruct (Cri._trim_zone (group0 m)) as [|c z] eqn:E; [auto|].
  destruct (bool_decide (c :: z ∈ zones)) eqn:Hin; [auto|].
  apply bool_decide_eq_false in Hin. split.
  - apply NoDup_app. split; [exact Hnd|]. split; [|apply NoDup_singleton].
    intros x Hx Hx'. apply list_elem_of_singleton in Hx'. subst x. exact (Hin Hx).
  - apply Forall_app. split; [exact Hall|]. constructor; [exact Hz | constructor].
Qed.

Lemma fold_left_keeps {A B} (I : A -> Prop) (f : A -> B -> A) (l : list B) :
  (forall a b, I a -> I (f a b)) -> forall a, I a -> I (fold_left f l a).
Proof.
  intros Hf. induction l as [|b l IH]; intros a Ha; [exact Ha|].
  simpl. apply IH. apply Hf. exact Ha.
Qed.

Lemma collect_zones_keeps (t : list N) :
  NoDup (Cri.collect_zones t) /\ Forall clean_value (Cri.collect_zones t).
Proof.
  unfold Cri.collect_zones.
  apply (fold_left_keeps (fun zones => NoDup zones /\ Forall clean_value zones)).
  - intros zones pat H.
    apply (fold_left_keeps (fun zones => NoDup zones /\ Forall clean_value zones));
      [|exact H].
    intros a b. apply add_zone_keeps.
  - split; [apply NoDup_nil_2 | constructor].
Qed.

(** X17. The industrial zones of a project sheet, when any is found,
    come out as a list joined by "; " in which no zone is empty, no
    zone is listed twice, and every zone is on one line, with plain
    spaces only and none at its ends. *)
Theorem X17_zones_distinct_and_clean (text s : list N) :
  Cri.extract_industrial_zone text = Some s ->
  exists zones,
    s = join (utf8 "; ") zones
    /\ zones <> [] /\ NoDup zones /\ Forall clean_value zones.
Proof.
  unfold Cri.extract_industrial_zone. destruct text as [|c text]; [discriminate|].
  set (t := replace _ _ _).
  destruct (collect_zones_keeps t) as [Hnd Hall].
  destruct (Cri.collect_zones t) as [|z zones] eqn:E; [discriminate|].
  intros H. apply (inj Some) in H. subst s.
  exists (z :: zones). split; [reflexivity|]. split; [discriminate|]. split; assumption.
Qed.

Lemma X17_zones_distinct_and_clean_witness :
  Cri.extract_industrial_zone (utf8 "ZAE Béni Mellal ; ZI Kasba Sup : 3 ha ; ZI  Kasba")
  = Some (utf8 "ZAE Béni Mellal; ZI Kasba")
  /\ exists zones,
       utf8 "ZAE Béni Mellal; ZI Kasba" = join (utf8 "; ") zones
       /\ zones <> [] /\ NoDup zones /\ Forall clean_value zones.
Proof.
  split; [vm_compute; reflexivity|].
  apply (X17_zones_distinct_and_clean
           (utf8 "ZAE Béni Mellal ; ZI Kasba Sup : 3 ha ; ZI  Kasba")).
  vm_compute. reflexivity.
Defined.

(* ===================================================================== *)
(** * The ends of a reference token                                       *)
(* ===================================================================== *)

Local Close Scope Q_scope.
Local Close Scope Z_scope.
Local Close Scope nat_scope.

(** Upper-casing makes no hyphen and never empties a character. *)
Lemma upper_hyphen (w c : N) : In c (upper w) -> c = 45 -> w = 45.
Proof. intros H Hc. upper_cases H; lia. Qed.

Lemma upper_not_empty (w : N) : upper w <> [].
Proof.
  unfold upper.
  repeat match goal with
         | |- context [if ?b then _ else _] => destruct b
         end; discriminate.
Qed.

Lemma str_upper_app (a b : list N) : str_upper (a ++ b) = str_upper a ++ str_upper b.
Proof. unfold str_upper. rewrite List.map_app, concat_app. reflexivity. Qed.

Lemma str_upper_edges (s : list N) :
  (forall c s', s = c :: s' -> c <> 45) ->
  (forall c, last_char s = Some c -> c <> 45) ->
  (forall c s', str_upper s = c :: s' -> c <> 45)
  /\ (forall c, last_char (str_upper s) = Some c -> c <> 45).
Proof.
  intros Hhead Hlast. split.
  - intros c s' E. destruct s as [|w s]; [discriminate E|].
    unfold str_upper in E. cbn [List.map concat] in E.
    destruct (upper w) as [|u us] eqn:Eu; [exact (False_ind _ (upper_not_empty w Eu))|].
    cbn [app] in E. inversion E; subst u. intros Hc.
    apply (Hhead w s eq_refl). apply (upper_hyphen w c); [rewrite Eu; left; reflexivity|].
    exact Hc.
  - intros c E. destruct s as [|a s0]; [discriminate E|].
    destruct (exists_last (l := a :: s0) ltac:(discriminate)) as (s' & w & Es).
    rewrite Es in *. rewrite str_upper_app in E.
    assert (Hw : str_upper [w] = upper w) by (unfold str_upper; simpl; apply app_nil_r).
    rewrite Hw, last_char_app_r in E by apply upper_not_empty.
    intros Hc. apply (Hlast w (last_char_app s' w)).
    apply (upper_hyphen w c); [apply last_char_In; exact E | exact Hc].
Qed.

(** X18. A reference token has no hyphen at its ends, whatever the
    punctuation and the white space of the text it is made from, and
    no white space at all; a blank text gives the empty token. *)
Theorem X18_reference_token_edges (s : list N) :
  (forall c s', Cri.normalize_for_reference s = c :: s' -> c <> 45)
  /\ (forall c, last_char (Cri.normalize_for_reference s) = Some c -> c <> 45)
  /\ Forall (fun c => is_space c = false) (Cri.normalize_for_reference s)
  /\ (Forall (fun c => is_space c = true) s -> Cri.normalize_for_reference s = []).
Proof.
  split; [|split; [|split]].
  - unfold Cri.normalize_for_reference.
    destruct (strip s) as [|a s1]; [intros c s' E; discriminate E|].
    set (x := re_sub Cri.RE_SPACES _ _ _).
    destruct (strip_by_ends (N.eqb 45) x) as [Hh Hl].
    apply str_upper_edges.
    + intros c s' E Hc. specialize (Hh c s' E). subst c. discriminate Hh.
    + intros c E Hc. specialize (Hl c E). subst c. discriminate Hl.
  - unfold Cri.normalize_for_reference.
    destruct (strip s) as [|a s1]; [intros c E; discriminate E|].
    set (x := re_sub Cri.RE_SPACES _ _ _).
    destruct (strip_by_ends (N.eqb 45) x) as [Hh Hl].
    apply str_upper_edges.
    + intros c s' E Hc. specialize (Hh c s' E). subst c. discriminate Hh.
    + intros c E Hc. specialize (Hl c E). subst c. discriminate Hl.
  - eapply Forall_impl; [apply normalize_for_reference_reference_chars|].
    intros c Hc. apply Hc.
  - intros Hs. unfold Cri.normalize_for_reference.
    rewrite strip_all_spaces by exact Hs. reflexivity.
Qed.

(* ===================================================================== *)
(** * The order of the appended rows                                      *)
(* ===================================================================== *)

Local Close Scope Q_scope.
Local Close Scope nat_scope.
Local Open Scope Z_scope.

(** The records of the files that have a text, in the order of the
    files. *)
Lemma submit_all_cons (next_id : Z) (p : Cri.pdf_input) (pdf_files : list Cri.pdf_input) :
  Cri.submit_all next_id (p :: pdf_files)
  = Cri.process_one_pdf (fst p) (snd p) next_id :: Cri.submit_all (next_id + 1) pdf_files.
Proof.
  unfold Cri.submit_all. rewrite imap_cons. f_equal.
  - f_equal. simpl. lia.
  - apply imap_ext. intros i x _. simpl. f_equal. lia.
Qed.

Lemma submitted_ids (pdf_files : list Cri.pdf_input) :
  forall next_id,
    StronglySorted Z.lt (Cri.project_id <$> omap id (Cri.submit_all next_id pdf_files))
    /\ Forall (fun r => next_id <= Cri.project_id r)
              (omap id (Cri.submit_all next_id pdf_files)).
Proof.
  induction pdf_files as [|p pdf_files IH]; intros next_id.
  - split; constructor.
  - rewrite submit_all_cons. destruct (IH (next_id + 1)) as [Hs Hb].
    assert (Hb' : Forall (fun r => next_id <= Cri.project_id r)
                    (omap id (Cri.submit_all (next_id + 1) pdf_files))).
    { eapply Forall_impl; [exact Hb|]. intros r Hr. simpl in Hr. lia. }
    cbn [omap list_omap].
    destruct (Cri.process_one_pdf (fst p) (snd p) next_id) as [r|] eqn:E;
      [|split; assumption].
    apply process_one_pdf_id in E. cbn [id]. split.
    + rewrite fmap_cons. constructor; [exact Hs|].
      apply Forall_fmap. eapply Forall_impl; [exact Hb|].
      intros r' Hr'. simpl in *. lia.
    + constructor; [lia | exact Hb'].
Qed.

Lemma collect_in_order {A} (results pre : list (option A)) :
  omap (fun i : nat => match (pre ++ results) !! i with
                       | Some (Some r) => Some r
                       | _ => None
                       end)
       (seq (List.length pre) (List.length results))
  = omap id results.
Proof.
  revert pre. induction results as [|x results IH]; intros pre; [reflexivity|].
  cbn [List.length seq omap list_omap].
  rewrite (list_lookup_middle pre results x (List.length pre) eq_refl).
  specialize (IH (pre ++ [x])).
  rewrite <- app_assoc, length_app, Nat.add_1_r in IH. cbn [app] in IH. rewrite IH.
  destruct x; reflexivity.
Qed.

(** Two lists of records with the same members, one sorted by
    identifier, the other with strictly increasing identifiers, are
    the same list. *)
Lemma sorted_perm_unique (l2 : list Cri.project_record) :
  forall l1,
    Permutation l1 l2 ->
    StronglySorted Z.le (Cri.project_id <$> l1) ->
    StronglySorted Z.lt (Cri.project_id <$> l2) ->
    l1 = l2.
Proof.
  induction l2 as [|a l2 IH]; intros l1 Hp H1 H2.
  - apply Permutation_nil_r in Hp. exact Hp.
  - destruct l1 as [|h l1]; [apply Permutation_nil_cons in Hp; contradiction|].
    rewrite fmap_cons in H1, H2.
    apply StronglySorted_inv in H1. destruct H1 as [H1 Hh].
    apply StronglySorted_inv in H2. destruct H2 as [H2 Ha].
    rewrite Forall_fmap, Forall_forall in Hh, Ha.
    assert (Hha : h = a).
    { assert (Hin : h ∈ a :: l2) by (rewrite <- Hp; left).
      assert (Hin' : a ∈ h :: l1) by (rewrite Hp; left).
      apply elem_of_cons in Hin. destruct Hin as [-> | Hin]; [reflexivity|].
      apply elem_of_cons in Hin'. destruct Hin' as [-> | Hin']; [reflexivity|].
      specialize (Ha h Hin). specialize (Hh a Hin'). simpl in *. lia. }
    subst h. f_equal. apply IH; [|exact H1 | exact H2].
    eapply Permutation_cons_inv. exact Hp.
Qed.

Lemma rows_in_file_order (next_id : Z) (pdf_files : list Cri.pdf_input)
    (completion : list nat) :
  Permutation completion (seq 0 (List.length pdf_files)) ->
  Cri.sort_by_id (Cri.collect (Cri.submit_all next_id pdf_files) completion)
  = omap id (Cri.submit_all next_id pdf_files).
Proof.
  intros Hp. apply sorted_perm_unique.
  - rewrite <- sort_by_id_perm. unfold Cri.collect. rewrite Hp.
    pose proof (collect_in_order (Cri.submit_all next_id pdf_files) []) as H.
    cbn [app List.length] in H.
    assert (Hlen : List.length (Cri.submit_all next_id pdf_files) = List.length pdf_files)
      by (unfold Cri.submit_all; apply length_imap).
    rewrite Hlen in H. rewrite H. reflexivity.
  - apply sort_by_id_sorted.
  - apply submitted_ids.
Qed.

Section Completion.

Variable parse_numeric : list N -> option Qc.

(** X19. The written file does not depend on the order in which the
    workers finish: when every file is completed once, the appended
    rows are the records of the files that have a text, in the order
    of the sorted file list, and the written frame is the one a
    sequential run would write. *)
Theorem X19_output_independent_of_completion (csv : Cri.csv_file)
    (pdf_files : list Cri.pdf_input) (completion : list nat) :
  Permutation completion (seq 0 (List.length pdf_files)) ->
  (forall next_id,
      Cri.sort_by_id (Cri.collect (Cri.submit_all next_id pdf_files) completion)
      = omap id (Cri.submit_all next_id pdf_files))
  /\ Cri.process_pdfs parse_numeric csv pdf_files completion
     = Cri.process_pdfs parse_numeric csv pdf_files (seq 0 (List.length pdf_files)).
Proof.
  intros Hp. split; [intros next_id; apply rows_in_file_order; exact Hp|].
  unfold Cri.process_pdfs. cbv zeta.
  destruct pdf_files as [|p pdf_files]; [reflexivity|].
  rewrite (rows_in_file_order _ _ completion Hp).
  rewrite (rows_in_file_order _ _ (seq 0 (List.length (p :: pdf_files)))) by reflexivity.
  reflexivity.
Qed.

End Completion.

Lemma X19_output_independent_of_completion_witness :
  Cri.process_pdfs sample_parse_numeric (Cri.Readable persisted_sample) sample_files
                   [1; 0]%nat
  = Cri.process_pdfs sample_parse_numeric (Cri.Readable persisted_sample) sample_files
                     [0; 1]%nat.
Proof.
  apply (X19_output_independent_of_completion sample_parse_numeric
           (Cri.Readable persisted_sample) sample_files [1; 0]%nat).
  apply perm_swap.
Defined.

Local Close Scope Z_scope.
